(** * advanced-vector: RawMemory<T> and Vector<T> (vector.h)

    A shallow embedding of the two class templates of vector.h and the
    properties of their growth, insertion, erasure and assignment code.

    Modelling decisions, all of them visible in the definitions below.

    - A block of raw memory obtained by [Allocate] is a list of slots;
      a slot is [None] while no object lives in it and [Some x] while an
      object of value [x] lives there.  The null pointer is the empty block.
    - [RawMemory] cannot be copied (its copy operations are deleted), so a
      block has exactly one owner; the owner therefore carries the block by
      value.  Two [Vector] objects are told apart by their address in a
      [Store], which is what [this != &other] compares.
    - [size_t] quantities are natural numbers.  [Allocate] is first
      modelled on slots: a request for [n] elements fails or yields [n]
      slots.  That is what the source does as long as the byte count
      [n * sizeof(T)], which it computes in [size_t], does not wrap; it
      cannot wrap for a request that is the size of a living vector, or
      twice the capacity of a full one.  For the requests the caller chooses
      ([Vector(size)], [Reserve], [Resize]) the section on the byte count
      gives the allocation as the source computes it, and those three
      functions over it.  [Capacity() * 2] is only evaluated when [size_]
      live objects fill the whole block, and [++size_] only below the
      capacity, so neither can pass [SIZE_MAX].
    - The template parameter [T] is an [ElementType]: the values its
      operations produce, its two type traits, and an oracle that tells, from
      the history of the run, whether the next fallible operation (an
      allocation, a constructor, an assignment) throws.  Destructors and
      [operator delete] do not throw.  An operation that throws leaves its
      operands as they were.
    - Every function threads the history [World] of the run, newest event
      first.  A function that can exit through an exception returns a
      [result]: [Normal] with the state and the returned value, [Throws] with
      the state the exception leaves behind, or [Fault] when an [assert]
      fails or memory outside a block or an absent object is read or
      assigned.  Running a destructor on a slot without an object has no
      defined behaviour in the source either; it is recorded as
      [DestroyDead] and the run goes on, so that the history shows every
      such call.  A history with a [DestroyDead] is a run the source does
      not define. *)

From stdpp Require Import base list gmap.

(** ** Histories *)

(** An operation that may throw. *)
Inductive Attempt (T Args : Type) : Type :=
| AAlloc (n : nat)                (* operator new(n * sizeof(T)) *)
| AConstruct (args : Args)        (* T(std::forward<Args>(args)...) *)
| AValueInit                      (* T() *)
| ACopyCtor (x : T)               (* T(const T&) *)
| AMoveCtor (x : T)               (* T(T&&) *)
| ACopyAssign (dst src : T)       (* dst = src *)
| AMoveAssign (dst src : T).      (* dst = std::move(src) *)

Arguments AAlloc {T Args} n.
Arguments AConstruct {T Args} args.
Arguments AValueInit {T Args}.
Arguments ACopyCtor {T Args} x.
Arguments AMoveCtor {T Args} x.
Arguments ACopyAssign {T Args} dst src.
Arguments AMoveAssign {T Args} dst src.

Inductive Event (T Args : Type) : Type :=
| Try (a : Attempt T Args) (ok : bool)   (* a fallible operation and whether it completed *)
| Destroy (x : T)                        (* ~T() on a live object *)
| DestroyDead                            (* ~T() on a slot holding no object *)
| Free (abandoned : list T).             (* operator delete; the objects still alive in the block *)

Arguments Try {T Args} a ok.
Arguments Destroy {T Args} x.
Arguments DestroyDead {T Args}.
Arguments Free {T Args} abandoned.

(** The template parameter. *)
Class ElementType (T Args : Type) : Type := {
  construct_from : Args -> T;            (* the value T(args...) builds *)
  value_init : T;                        (* the value T() builds *)
  moved_from : T -> T;                   (* what a move leaves in its source *)
  is_nothrow_move_constructible : bool;  (* std::is_nothrow_move_constructible_v<T> *)
  is_copy_constructible : bool;          (* std::is_copy_constructible_v<T> *)
  throws : list (Event T Args) -> Attempt T Args -> bool
}.

Inductive result (W S A : Type) : Type :=
| Normal (s : S) (a : A) (w : W)
| Throws (s : S) (w : W)
| Fault.

Arguments Normal {W S A} s a w.
Arguments Throws {W S A} s w.
Arguments Fault {W S A}.

(** ** RawMemory<T> *)

Record RawMemory (T : Type) : Type := {
  buffer_ : list (option T);
  capacity_ : nat
}.

Arguments buffer_ {T} r.
Arguments capacity_ {T} r.

(** ** Vector<T> *)

Record Vector (T : Type) : Type := {
  data_ : RawMemory T;
  size_ : nat
}.

Arguments data_ {T} v.
Arguments size_ {T} v.

Section Code.

Context {T Args : Type} `{E : ElementType T Args}.

Local Abbreviation World := (list (Event T Args)).
Local Abbreviation Buf := (list (option T)).

Definition attempt (a : Attempt T Args) (w : World) : bool * World :=
  let ok := negb (throws w a) in (ok, Try a ok :: w).

(** *** <memory> and <algorithm> *)

(** [p->~T()] at [b + i]. *)
Definition destroy_at (b : Buf) (i : nat) (w : World) : option (Buf * World) :=
  match b !! i with
  | Some (Some x) => Some (<[i := None]> b, Destroy x :: w)
  | Some None => Some (b, DestroyDead :: w)
  | None => None
  end.

(** [std::destroy_n(b + first, n)]. *)
Fixpoint destroy_n (b : Buf) (first n : nat) (w : World) : option (Buf * World) :=
  match n with
  | 0 => Some (b, w)
  | S n' =>
      match destroy_at b first w with
      | Some (b', w') => destroy_n b' (S first) n' w'
      | None => None
      end
  end.

(** [new (b + i) T(...)]: the constructor call is [a], the object it builds
    has value [x]. *)
Definition construct (b : Buf) (i : nat) (a : Attempt T Args) (x : T) (w : World)
  : result World Buf unit :=
  if decide (i < length b) then
    let '(ok, w') := attempt a w in
    if ok then Normal (<[i := Some x]> b) tt w' else Throws b w'
  else Fault.

(** The loop of [std::uninitialized_copy_n]; [cur] is the destination slot
    reached. *)
Fixpoint copy_construct_loop (src : Buf) (first n : nat) (dst : Buf) (cur : nat) (w : World)
  : result World (Buf * nat) unit :=
  match n with
  | 0 => Normal (dst, cur) tt w
  | S n' =>
      match src !! first with
      | Some (Some x) =>
          match construct dst cur (ACopyCtor x) x w with
          | Normal dst' _ w' => copy_construct_loop src (S first) n' dst' (S cur) w'
          | Throws dst' w' => Throws (dst', cur) w'
          | Fault => Fault
          end
      | _ => Fault
      end
  end.

(** [std::uninitialized_copy_n(src + first, n, dst + d_first)]: when a copy
    throws, the objects built so far are destroyed and the exception goes on. *)
Definition uninitialized_copy_n (src : Buf) (first n : nat) (dst : Buf) (d_first : nat) (w : World)
  : result World Buf unit :=
  match copy_construct_loop src first n dst d_first w with
  | Normal (dst', _) _ w' => Normal dst' tt w'
  | Throws (dst', cur) w' =>
      match destroy_n dst' d_first (cur - d_first) w' with
      | Some (dst'', w'') => Throws dst'' w''
      | None => Fault
      end
  | Fault => Fault
  end.

(** The loop of [std::uninitialized_move_n]; the source objects are left
    moved-from. *)
Fixpoint move_construct_loop (src : Buf) (first n : nat) (dst : Buf) (cur : nat) (w : World)
  : result World (Buf * Buf * nat) unit :=
  match n with
  | 0 => Normal (src, dst, cur) tt w
  | S n' =>
      match src !! first with
      | Some (Some x) =>
          match construct dst cur (AMoveCtor x) x w with
          | Normal dst' _ w' =>
              move_construct_loop (<[first := Some (moved_from x)]> src) (S first) n' dst' (S cur) w'
          | Throws dst' w' => Throws (src, dst', cur) w'
          | Fault => Fault
          end
      | _ => Fault
      end
  end.

(** [std::uninitialized_move_n(src + first, n, dst + d_first)]. *)
Definition uninitialized_move_n (src : Buf) (first n : nat) (dst : Buf) (d_first : nat) (w : World)
  : result World (Buf * Buf) unit :=
  match move_construct_loop src first n dst d_first w with
  | Normal (src', dst', _) _ w' => Normal (src', dst') tt w'
  | Throws (src', dst', cur) w' =>
      match destroy_n dst' d_first (cur - d_first) w' with
      | Some (dst'', w'') => Throws (src', dst'') w''
      | None => Fault
      end
  | Fault => Fault
  end.

(** The loop of [std::uninitialized_value_construct_n]. *)
Fixpoint value_construct_loop (b : Buf) (cur n : nat) (w : World)
  : result World (Buf * nat) unit :=
  match n with
  | 0 => Normal (b, cur) tt w
  | S n' =>
      match construct b cur AValueInit value_init w with
      | Normal b' _ w' => value_construct_loop b' (S cur) n' w'
      | Throws b' w' => Throws (b', cur) w'
      | Fault => Fault
      end
  end.

(** [std::uninitialized_value_construct_n(b + first, n)]. *)
Definition uninitialized_value_construct_n (b : Buf) (first n : nat) (w : World)
  : result World Buf unit :=
  match value_construct_loop b first n w with
  | Normal (b', _) _ w' => Normal b' tt w'
  | Throws (b', cur) w' =>
      match destroy_n b' first (cur - first) w' with
      | Some (b'', w'') => Throws b'' w''
      | None => Fault
      end
  | Fault => Fault
  end.

(** [dst[j] = src[i]] between two blocks. *)
Definition copy_assign_slot (src : Buf) (i : nat) (dst : Buf) (j : nat) (w : World)
  : result World Buf unit :=
  match src !! i, dst !! j with
  | Some (Some s), Some (Some d) =>
      let '(ok, w') := attempt (ACopyAssign d s) w in
      if ok then Normal (<[j := Some s]> dst) tt w' else Throws dst w'
  | _, _ => Fault
  end.

Fixpoint std_copy_loop (src : Buf) (first n : nat) (dst : Buf) (d_first : nat) (w : World)
  : result World Buf unit :=
  match n with
  | 0 => Normal dst tt w
  | S n' =>
      match copy_assign_slot src first dst d_first w with
      | Normal dst' _ w' => std_copy_loop src (S first) n' dst' (S d_first) w'
      | Throws dst' w' => Throws dst' w'
      | Fault => Fault
      end
  end.

(** [std::copy(src + first, src + last, dst + d_first)]. *)
Definition std_copy (src : Buf) (first last : nat) (dst : Buf) (d_first : nat) (w : World)
  : result World Buf unit :=
  std_copy_loop src first (last - first) dst d_first w.

(** [b[to] = std::move(b[from])] inside one block. *)
Definition move_assign_slot (b : Buf) (from to : nat) (w : World) : result World Buf unit :=
  match b !! from, b !! to with
  | Some (Some s), Some (Some d) =>
      let '(ok, w') := attempt (AMoveAssign d s) w in
      if ok then Normal (<[from := Some (moved_from s)]> (<[to := Some s]> b)) tt w'
      else Throws b w'
  | _, _ => Fault
  end.

Fixpoint std_move_loop (b : Buf) (first n d_first : nat) (w : World) : result World Buf unit :=
  match n with
  | 0 => Normal b tt w
  | S n' =>
      match move_assign_slot b first d_first w with
      | Normal b' _ w' => std_move_loop b' (S first) n' (S d_first) w'
      | Throws b' w' => Throws b' w'
      | Fault => Fault
      end
  end.

(** [std::move(b + first, b + last, b + d_first)]. *)
Definition std_move (b : Buf) (first last d_first : nat) (w : World) : result World Buf unit :=
  std_move_loop b first (last - first) d_first w.

(** The loop of [std::move_backward]: step both [last] and [d_last] back by
    one, then move-assign; [last = first + n]. *)
Fixpoint std_move_backward_loop (b : Buf) (first n d_last : nat) (w : World)
  : result World Buf unit :=
  match n with
  | 0 => Normal b tt w
  | S n' =>
      match d_last with
      | 0 => Fault
      | S d' =>
          match move_assign_slot b (first + n') d' w with
          | Normal b' _ w' => std_move_backward_loop b' first n' d' w'
          | Throws b' w' => Throws b' w'
          | Fault => Fault
          end
      end
  end.

(** [std::move_backward(b + first, b + last, b + d_last)]. *)
Definition std_move_backward (b : Buf) (first last d_last : nat) (w : World)
  : result World Buf unit :=
  std_move_backward_loop b first (last - first) d_last w.

(** [new (b + to) T(std::move(b[from]))] inside one block. *)
Definition move_construct_within (b : Buf) (from to : nat) (w : World) : result World Buf unit :=
  match b !! from with
  | Some (Some x) =>
      match construct b to (AMoveCtor x) x w with
      | Normal b' _ w' => Normal (<[from := Some (moved_from x)]> b') tt w'
      | Throws b' w' => Throws b' w'
      | Fault => Fault
      end
  | _ => Fault
  end.

(** *** RawMemory<T> *)

(** [RawMemory() = default]. *)
Definition RawMemory_default : RawMemory T := {| buffer_ := []; capacity_ := 0 |}.

(** [Allocate(n)]: no allocation call for [n = 0]. *)
Definition Allocate (n : nat) (w : World) : option Buf * World :=
  if n =? 0 then (Some [], w)
  else
    let '(ok, w') := attempt (AAlloc n) w in
    (if ok then Some (replicate n None) else None, w').

(** [explicit RawMemory(size_t capacity)]. *)
Definition RawMemory_new (capacity : nat) (w : World) : option (RawMemory T) * World :=
  let '(b, w') := Allocate capacity w in
  (match b with
   | Some buf => Some {| buffer_ := buf; capacity_ := capacity |}
   | None => None
   end, w').

(** [Deallocate(buf)]: [operator delete] does nothing on the null pointer. *)
Definition Deallocate (buf : Buf) (w : World) : World :=
  match buf with
  | [] => w
  | _ => Free (omap id buf) :: w
  end.

(** [RawMemory::Swap]. *)
Definition RawMemory_Swap (a b : RawMemory T) : RawMemory T * RawMemory T :=
  ({| buffer_ := buffer_ b; capacity_ := capacity_ b |},
   {| buffer_ := buffer_ a; capacity_ := capacity_ a |}).

(** *** Vector<T> *)

(** [Vector() = default]. *)
Definition Vector_default : Vector T := {| data_ := RawMemory_default; size_ := 0 |}.

Definition Size (v : Vector T) : nat := size_ v.
Definition Capacity (v : Vector T) : nat := capacity_ (data_ v).

(** The vector with the objects of its block updated to [b]. *)
Definition with_buffer (v : Vector T) (b : Buf) : Vector T :=
  {| data_ := {| buffer_ := b; capacity_ := capacity_ (data_ v) |}; size_ := size_ v |}.

(** [std::is_nothrow_move_constructible_v<T> || !std::is_copy_constructible_v<T>],
    the condition of the three [if constexpr]. *)
Definition move_if_noexcept : bool :=
  is_nothrow_move_constructible || negb is_copy_constructible.

(** [Vector(size_t size)]. *)
Definition Vector_sized (size : nat) (w : World) : result World unit (Vector T) :=
  match RawMemory_new size w with
  | (None, w1) => Throws tt w1
  | (Some data, w1) =>
      match uninitialized_value_construct_n (buffer_ data) 0 size w1 with
      | Normal b _ w2 =>
          Normal tt {| data_ := {| buffer_ := b; capacity_ := capacity_ data |}; size_ := size |} w2
      | Throws b w2 => Throws tt (Deallocate b w2)
      | Fault => Fault
      end
  end.

(** [Vector(const Vector& other)]. *)
Definition Vector_copy (other : Vector T) (w : World) : result World unit (Vector T) :=
  match RawMemory_new (size_ other) w with
  | (None, w1) => Throws tt w1
  | (Some data, w1) =>
      match uninitialized_copy_n (buffer_ (data_ other)) 0 (size_ other) (buffer_ data) 0 w1 with
      | Normal b _ w2 =>
          Normal tt {| data_ := {| buffer_ := b; capacity_ := capacity_ data |};
                       size_ := size_ other |} w2
      | Throws b w2 => Throws tt (Deallocate b w2)
      | Fault => Fault
      end
  end.

(** [Vector::Swap] on two objects. *)
Definition Vector_Swap (a b : Vector T) : Vector T * Vector T :=
  let '(da, db) := RawMemory_Swap (data_ a) (data_ b) in
  ({| data_ := da; size_ := size_ b |}, {| data_ := db; size_ := size_ a |}).

(** [~Vector()], followed by [~RawMemory()]. *)
Definition Vector_dtor (v : Vector T) (w : World) : option World :=
  match destroy_n (buffer_ (data_ v)) 0 (size_ v) w with
  | Some (b, w') => Some (Deallocate b w')
  | None => None
  end.

(** [CopyAssign(other)], called on an object other than [other]. *)
Definition CopyAssign (other : Vector T) (v : Vector T) (w : World) : result World (Vector T) unit :=
  let min_size := Nat.min (size_ v) (size_ other) in
  match std_copy (buffer_ (data_ other)) 0 min_size (buffer_ (data_ v)) 0 w with
  | Normal b _ w1 =>
      if min_size =? size_ other then
        match destroy_n b (size_ other) (size_ v - size_ other) w1 with
        | Some (b', w2) => Normal (with_buffer v b') tt w2
        | None => Fault
        end
      else
        match uninitialized_copy_n (buffer_ (data_ other)) (size_ v) (size_ other - size_ v)
                b (size_ v) w1 with
        | Normal b' _ w2 => Normal (with_buffer v b') tt w2
        | Throws b' w2 => Throws (with_buffer v b') w2
        | Fault => Fault
        end
  | Throws b w1 => Throws (with_buffer v b) w1
  | Fault => Fault
  end.

(** [Reserve(new_capacity)]. *)
Definition Reserve (new_capacity : nat) (v : Vector T) (w : World) : result World (Vector T) unit :=
  if new_capacity <=? capacity_ (data_ v) then Normal v tt w
  else
    match RawMemory_new new_capacity w with
    | (None, w1) => Throws v w1
    | (Some new_data, w1) =>
        if move_if_noexcept then
          match uninitialized_move_n (buffer_ (data_ v)) 0 (size_ v) (buffer_ new_data) 0 w1 with
          | Normal (old, new) _ w2 =>
              match destroy_n old 0 (size_ v) w2 with
              | Some (old', w3) =>
                  Normal {| data_ := {| buffer_ := new; capacity_ := capacity_ new_data |};
                            size_ := size_ v |} tt (Deallocate old' w3)
              | None => Fault
              end
          | Throws (old, new) w2 => Throws (with_buffer v old) (Deallocate new w2)
          | Fault => Fault
          end
        else
          match uninitialized_copy_n (buffer_ (data_ v)) 0 (size_ v) (buffer_ new_data) 0 w1 with
          | Normal new _ w2 =>
              match destroy_n (buffer_ (data_ v)) 0 (size_ v) w2 with
              | Some (old', w3) =>
                  Normal {| data_ := {| buffer_ := new; capacity_ := capacity_ new_data |};
                            size_ := size_ v |} tt (Deallocate old' w3)
              | None => Fault
              end
          | Throws new w2 => Throws v (Deallocate new w2)
          | Fault => Fault
          end
    end.

(** [Resize(new_size)]. *)
Definition Resize (new_size : nat) (v : Vector T) (w : World) : result World (Vector T) unit :=
  if new_size <? size_ v then
    match destroy_n (buffer_ (data_ v)) new_size (size_ v - new_size) w with
    | Some (b, w1) =>
        Normal {| data_ := {| buffer_ := b; capacity_ := capacity_ (data_ v) |};
                  size_ := new_size |} tt w1
    | None => Fault
    end
  else
    match Reserve new_size v w with
    | Normal v1 _ w1 =>
        match uninitialized_value_construct_n (buffer_ (data_ v1)) (size_ v1)
                (new_size - size_ v1) w1 with
        | Normal b _ w2 =>
            Normal {| data_ := {| buffer_ := b; capacity_ := capacity_ (data_ v1) |};
                      size_ := new_size |} tt w2
        | Throws b w2 => Throws (with_buffer v1 b) w2
        | Fault => Fault
        end
    | Throws v1 w1 => Throws v1 w1
    | Fault => Fault
    end.

(** [PopBack()]. *)
Definition PopBack (v : Vector T) (w : World) : option (Vector T * World) :=
  if size_ v =? 0 then None                                    (* assert(size_ != 0) *)
  else
    match destroy_n (buffer_ (data_ v)) (size_ v - 1) 1 w with
    | Some (b, w1) =>
        Some ({| data_ := {| buffer_ := b; capacity_ := capacity_ (data_ v) |};
                 size_ := size_ v - 1 |}, w1)
    | None => None
    end.

(** [std::destroy_n(data_.GetAddress(), size_); data_.Swap(new_data);] and
    the release of the old block when [new_data] goes out of scope: the three
    growing functions all end this way.  [old] is the old block, [new] the
    filled new one, of [new_capacity] slots. *)
Definition destroy_and_swap (v : Vector T) (old new : Buf) (new_capacity : nat) (w : World)
  : result World (Vector T) unit :=
  match destroy_n old 0 (size_ v) w with
  | Some (old', w') =>
      Normal {| data_ := {| buffer_ := new; capacity_ := new_capacity |}; size_ := size_ v |} tt
             (Deallocate old' w')
  | None => Fault
  end.

(** [EmplaceBack(args...)]; the reference it returns is given as an index. *)
Definition EmplaceBack (args : Args) (v : Vector T) (w : World) : result World (Vector T) nat :=
  let body : result World (Vector T) unit :=
    if size_ v =? Capacity v then
      match RawMemory_new (if size_ v =? 0 then 1 else Capacity v * 2) w with
      | (None, w1) => Throws v w1
      | (Some new_data, w1) =>
          match construct (buffer_ new_data) (size_ v) (AConstruct args) (construct_from args) w1 with
          | Normal nb _ w2 =>
              if move_if_noexcept then
                match uninitialized_move_n (buffer_ (data_ v)) 0 (size_ v) nb 0 w2 with
                | Normal (old, nb1) _ w3 => destroy_and_swap v old nb1 (capacity_ new_data) w3
                | Throws (old, nb1) w3 => Throws (with_buffer v old) (Deallocate nb1 w3)
                | Fault => Fault
                end
              else
                match uninitialized_copy_n (buffer_ (data_ v)) 0 (size_ v) nb 0 w2 with
                | Normal nb1 _ w3 =>
                    destroy_and_swap v (buffer_ (data_ v)) nb1 (capacity_ new_data) w3
                | Throws nb1 w3 =>
                    (* catch (...) { std::destroy_n(new_data.GetAddress(), size_); throw; } *)
                    match destroy_n nb1 0 (size_ v) w3 with
                    | Some (nb2, w4) => Throws v (Deallocate nb2 w4)
                    | None => Fault
                    end
                | Fault => Fault
                end
          | Throws nb w2 => Throws v (Deallocate nb w2)
          | Fault => Fault
          end
      end
    else if size_ v <? Capacity v then
      match construct (buffer_ (data_ v)) (size_ v) (AConstruct args) (construct_from args) w with
      | Normal b _ w1 => Normal (with_buffer v b) tt w1
      | Throws _ w1 => Throws v w1
      | Fault => Fault
      end
    else Normal v tt w
  in
  match body with
  | Normal v1 _ w1 =>
      let new_size_ := size_ v1 in
      let v2 := {| data_ := data_ v1; size_ := S (size_ v1) |} in
      if decide (new_size_ < capacity_ (data_ v2))              (* assert(index < capacity_) *)
      then Normal v2 new_size_ w1 else Fault
  | Throws v1 w1 => Throws v1 w1
  | Fault => Fault
  end.

(** [PushBack(args...)]. *)
Definition PushBack (args : Args) (v : Vector T) (w : World) : result World (Vector T) unit :=
  match EmplaceBack args v w with
  | Normal v' _ w' => Normal v' tt w'
  | Throws v' w' => Throws v' w'
  | Fault => Fault
  end.

(** [Emplace(pos, args...)]; [pos] and the returned iterator are offsets from
    [begin()]. *)
Definition Emplace (pos : nat) (args : Args) (v : Vector T) (w : World)
  : result World (Vector T) nat :=
  if decide (pos <= size_ v) then              (* assert(pos >= begin() && pos <= end()) *)
    let count := pos in
    let body : result World (Vector T) unit :=
      if size_ v <? Capacity v then
        if pos =? size_ v then                                        (* pos == end() *)
          match construct (buffer_ (data_ v)) (size_ v) (AConstruct args) (construct_from args) w with
          | Normal b _ w1 => Normal (with_buffer v b) tt w1
          | Throws _ w1 => Throws v w1
          | Fault => Fault
          end
        else if size_ v =? 0 then Fault                               (* assert(size_ > 0) *)
        else
          let '(ok, w1) := attempt (AConstruct args) w in             (* T temp(args...) *)
          if ok then
            let temp := construct_from args in
            match move_construct_within (buffer_ (data_ v)) (size_ v - 1) (size_ v) w1 with
            | Normal b1 _ w2 =>
                match std_move_backward b1 count (size_ v - 1) (size_ v) w2 with
                | Normal b2 _ w3 =>
                    match b2 !! count with
                    | Some (Some d) =>
                        let '(ok', w4) := attempt (AMoveAssign d temp) w3 in
                        if ok' then
                          Normal (with_buffer v (<[count := Some temp]> b2)) tt
                                 (Destroy (moved_from temp) :: w4)
                        else
                          (* catch (...) { std::destroy_n(data_.GetAddress() + count, 1); } *)
                          match destroy_n b2 count 1 w4 with
                          | Some (b3, w5) => Normal (with_buffer v b3) tt (Destroy temp :: w5)
                          | None => Fault
                          end
                    | _ => Fault
                    end
                | Throws b2 w3 =>
                    (* catch (...) { std::destroy_n(data_.GetAddress() + size_, 1); throw; } *)
                    match destroy_n b2 (size_ v) 1 w3 with
                    | Some (b3, w4) => Throws (with_buffer v b3) (Destroy temp :: w4)
                    | None => Fault
                    end
                | Fault => Fault
                end
            | Throws b1 w2 => Throws (with_buffer v b1) (Destroy temp :: w2)
            | Fault => Fault
            end
          else Throws v w1
      else
        match RawMemory_new (if size_ v =? 0 then 1 else Capacity v * 2) w with
        | (None, w1) => Throws v w1
        | (Some new_data, w1) =>
            match construct (buffer_ new_data) count (AConstruct args) (construct_from args) w1 with
            | Normal nb _ w2 =>
                if move_if_noexcept then
                  match uninitialized_move_n (buffer_ (data_ v)) 0 count nb 0 w2 with
                  | Normal (old1, nb1) _ w3 =>
                      match uninitialized_move_n old1 count (size_ v - count) nb1 (count + 1) w3 with
                      | Normal (old2, nb2) _ w4 =>
                          destroy_and_swap v old2 nb2 (capacity_ new_data) w4
                      | Throws (old2, nb2) w4 => Throws (with_buffer v old2) (Deallocate nb2 w4)
                      | Fault => Fault
                      end
                  | Throws (old1, nb1) w3 => Throws (with_buffer v old1) (Deallocate nb1 w3)
                  | Fault => Fault
                  end
                else
                  let copied :=
                    match uninitialized_copy_n (buffer_ (data_ v)) 0 count nb 0 w2 with
                    | Normal nb1 _ w3 =>
                        uninitialized_copy_n (buffer_ (data_ v)) count (size_ v - count)
                          nb1 (count + 1) w3
                    | r => r
                    end in
                  match copied with
                  | Normal nb2 _ w4 =>
                      destroy_and_swap v (buffer_ (data_ v)) nb2 (capacity_ new_data) w4
                  | Throws nb2 w4 =>
                      (* catch (...) { std::destroy_n(new_data.GetAddress(), size_); throw; } *)
                      match destroy_n nb2 0 (size_ v) w4 with
                      | Some (nb3, w5) => Throws v (Deallocate nb3 w5)
                      | None => Fault
                      end
                  | Fault => Fault
                  end
            | Throws nb w2 =>
                (* catch (...) { std::destroy_n(new_data.GetAddress() + count, 1); throw; } *)
                match destroy_n nb count 1 w2 with
                | Some (nb1, w3) => Throws v (Deallocate nb1 w3)
                | None => Fault
                end
            | Fault => Fault
            end
        end
    in
    match body with
    | Normal v1 _ w1 => Normal {| data_ := data_ v1; size_ := S (size_ v1) |} count w1
    | Throws v1 w1 => Throws v1 w1
    | Fault => Fault
    end
  else Fault.

(** [Insert(pos, args...)]. *)
Definition Insert (pos : nat) (args : Args) (v : Vector T) (w : World)
  : result World (Vector T) nat :=
  Emplace pos args v w.

(** [Erase(pos)]. *)
Definition Erase (pos : nat) (v : Vector T) (w : World) : result World (Vector T) nat :=
  if decide (pos < size_ v) then               (* assert(pos < end() && pos >= begin()) *)
    let count := pos in
    match std_move (buffer_ (data_ v)) (count + 1) (size_ v) count w with
    | Normal b _ w1 =>
        match PopBack (with_buffer v b) w1 with
        | Some (v', w2) => Normal v' count w2
        | None => Fault
        end
    | Throws b w1 => Throws (with_buffer v b) w1
    | Fault => Fault
    end
  else Fault.

(** *** The objects of a program

    Vector objects live at addresses; a method is called on the object at an
    address, and the two-object operations compare addresses as the source
    compares [this] with [&other]. *)

(** A method of one object, run on the object at address [a]. *)
Definition on_object {A : Type} (a : nat)
    (method : Vector T -> World -> result World (Vector T) A)
    (st : gmap nat (Vector T)) (w : World) : result World (gmap nat (Vector T)) A :=
  match st !! a with
  | Some v =>
      match method v w with
      | Normal v' x w' => Normal (<[a := v']> st) x w'
      | Throws v' w' => Throws (<[a := v']> st) w'
      | Fault => Fault
      end
  | None => Fault
  end.

(** [Swap(other)] called on the object at [this]. *)
Definition Swap (this other : nat) (st : gmap nat (Vector T)) : option (gmap nat (Vector T)) :=
  match st !! this, st !! other with
  | Some v, Some o =>
      let '(v', o') := Vector_Swap v o in
      Some (<[this := v']> (<[other := o']> st))
  | _, _ => None
  end.

(** [Vector(Vector&& other) noexcept { Swap(other); }] building a new object
    at [this]. *)
Definition move_construct (this other : nat) (st : gmap nat (Vector T))
  : option (gmap nat (Vector T)) :=
  match st !! this with
  | None => Swap this other (<[this := Vector_default]> st)
  | Some _ => None
  end.

(** [operator=(Vector&& other) noexcept]. *)
Definition move_assign (this other : nat) (st : gmap nat (Vector T))
  : option (gmap nat (Vector T)) :=
  match st !! this, st !! other with
  | Some _, Some _ => if decide (this <> other) then Swap this other st else Some st
  | _, _ => None
  end.

(** [operator=(const Vector& other)]. *)
Definition copy_assign (this other : nat) (st : gmap nat (Vector T)) (w : World)
  : result World (gmap nat (Vector T)) unit :=
  match st !! this, st !! other with
  | Some v, Some o =>
      if decide (this <> other) then
        if capacity_ (data_ v) <? size_ o then
          match Vector_copy o w with                          (* Vector copy_other(other) *)
          | Normal _ copy_other w1 =>
              let '(v1, copy_other1) := Vector_Swap v copy_other in   (* Swap(copy_other) *)
              match Vector_dtor copy_other1 w1 with                  (* ~copy_other *)
              | Some w2 => Normal (<[this := {| data_ := data_ v1; size_ := size_ o |}]> st) tt w2
              | None => Fault
              end
          | Throws _ w1 => Throws st w1
          | Fault => Fault
          end
        else
          match CopyAssign o v w with
          | Normal v1 _ w1 => Normal (<[this := {| data_ := data_ v1; size_ := size_ o |}]> st) tt w1
          | Throws v1 w1 => Throws (<[this := v1]> st) w1
          | Fault => Fault
          end
      else
        Normal (<[this := {| data_ := data_ v; size_ := size_ o |}]> st) tt w
  | _, _ => Fault
  end.

(** The calls a program makes on its vectors. *)
Inductive Call : Type :=
| CNew (a : nat)                          (* Vector<T> a; *)
| CNewSized (a size : nat)                (* Vector<T> a(size); *)
| CNewCopy (a other : nat)                (* Vector<T> a(other); *)
| CNewMove (a other : nat)                (* Vector<T> a(std::move(other)); *)
| CDelete (a : nat)                       (* the object at a is destroyed *)
| CCopyAssign (a other : nat)             (* a = other; *)
| CMoveAssign (a other : nat)             (* a = std::move(other); *)
| CReserve (a new_capacity : nat)
| CResize (a new_size : nat)
| CPushBack (a : nat) (args : Args)
| CEmplaceBack (a : nat) (args : Args)
| CPopBack (a : nat)
| CEmplace (a pos : nat) (args : Args)
| CInsert (a pos : nat) (args : Args)
| CErase (a pos : nat)
| CSwap (a other : nat).

Definition drop_value {S A : Type} (r : result World S A) : result World S unit :=
  match r with
  | Normal s _ w => Normal s tt w
  | Throws s w => Throws s w
  | Fault => Fault
  end.

Definition no_throw {S : Type} (r : option S) (w : World) : result World S unit :=
  match r with
  | Some s => Normal s tt w
  | None => Fault
  end.

Definition run_call (c : Call) (st : gmap nat (Vector T)) (w : World)
  : result World (gmap nat (Vector T)) unit :=
  match c with
  | CNew a =>
      match st !! a with
      | None => Normal (<[a := Vector_default]> st) tt w
      | Some _ => Fault
      end
  | CNewSized a size =>
      match st !! a with
      | None =>
          match Vector_sized size w with
          | Normal _ v w' => Normal (<[a := v]> st) tt w'
          | Throws _ w' => Throws st w'
          | Fault => Fault
          end
      | Some _ => Fault
      end
  | CNewCopy a other =>
      match st !! a, st !! other with
      | None, Some o =>
          match Vector_copy o w with
          | Normal _ v w' => Normal (<[a := v]> st) tt w'
          | Throws _ w' => Throws st w'
          | Fault => Fault
          end
      | _, _ => Fault
      end
  | CNewMove a other => no_throw (move_construct a other st) w
  | CDelete a =>
      match st !! a with
      | Some v =>
          match Vector_dtor v w with
          | Some w' => Normal (delete a st) tt w'
          | None => Fault
          end
      | None => Fault
      end
  | CCopyAssign a other => copy_assign a other st w
  | CMoveAssign a other => no_throw (move_assign a other st) w
  | CReserve a n => on_object a (Reserve n) st w
  | CResize a n => on_object a (Resize n) st w
  | CPushBack a args => on_object a (PushBack args) st w
  | CEmplaceBack a args => drop_value (on_object a (EmplaceBack args) st w)
  | CPopBack a =>
      match st !! a with
      | Some v =>
          match PopBack v w with
          | Some (v', w') => Normal (<[a := v']> st) tt w'
          | None => Fault
          end
      | None => Fault
      end
  | CEmplace a pos args => drop_value (on_object a (Emplace pos args) st w)
  | CInsert a pos args => drop_value (on_object a (Insert pos args) st w)
  | CErase a pos => drop_value (on_object a (Erase pos) st w)
  | CSwap a other => no_throw (Swap a other st) w
  end.

(** The states a program can be in after some calls, each of which returned
    or threw. *)
Inductive reachable (st0 : gmap nat (Vector T)) (w0 : World)
  : gmap nat (Vector T) -> World -> Prop :=
| reach_start : reachable st0 w0 st0 w0
| reach_return c st w st' w' :
    reachable st0 w0 st w -> run_call c st w = Normal st' tt w' -> reachable st0 w0 st' w'
| reach_throw c st w st' w' :
    reachable st0 w0 st w -> run_call c st w = Throws st' w' -> reachable st0 w0 st' w'.

(** *** Reading a vector *)

(** The slots of the live range [0, size_). *)
Definition elements (v : Vector T) : list (option T) := take (size_ v) (buffer_ (data_ v)).

(** The vector holding the objects [l] in a block of [cap] slots. *)
Definition vector_of (l : list T) (cap : nat) : Vector T :=
  {| data_ := {| buffer_ := (Some <$> l) ++ replicate (cap - length l) None; capacity_ := cap |};
     size_ := length l |}.

(** [v] holds exactly the objects [l]: they are alive in the first slots of
    its block and the other slots are raw. *)
Definition holds (v : Vector T) (l : list T) : Prop :=
  v = vector_of l (capacity_ (data_ v)) /\ length l <= capacity_ (data_ v).

(** The histories read by the claims: the allocation requests made, and the
    kind of each construction that took an element from another element
    ([true] for a move, [false] for a copy), newest first. *)
Definition alloc_requests (w : World) : list nat :=
  omap (fun e => match e with Try (AAlloc n) _ => Some n | _ => None end) w.

Definition transfers (w : World) : list bool :=
  omap (fun e => match e with
                 | Try (AMoveCtor _) _ => Some true
                 | Try (ACopyCtor _) _ => Some false
                 | _ => None
                 end) w.

(** An element type none of whose operations throws, with an allocator that
    never fails. *)
Definition never_throws : Prop := forall w a, throws w a = false.

(** The invariant of §8: [0 <= size_ <= capacity_] (the lower bound holds of
    every natural number). *)
Definition size_le_capacity (v : Vector T) : Prop := size_ v <= capacity_ (data_ v).

(** [P] holds of the object a method leaves behind, whether it returns or
    throws. *)
Definition post (P : Vector T -> Prop) {A : Type} (r : result World (Vector T) A) : Prop :=
  match r with
  | Normal v _ _ => P v
  | Throws v _ => P v
  | Fault => True
  end.

Definition store_post (P : gmap nat (Vector T) -> Prop) {A : Type}
    (r : result World (gmap nat (Vector T)) A) : Prop :=
  match r with
  | Normal st _ _ => P st
  | Throws st _ => P st
  | Fault => True
  end.

End Code.

(** ** The rest of the interface, and what the histories show *)

Section MoreCode.

Context {T Args : Type} `{E : ElementType T Args}.

Local Abbreviation World := (list (Event T Args)).

(** [Vector::operator[](index)], read: the object in the slot. *)
Definition subscript (v : Vector T) (index : nat) : option T :=
  if decide (index < size_ v) then                               (* assert(index < size_) *)
    match buffer_ (data_ v) !! index with
    | Some (Some x) => Some x
    | _ => None
    end
  else None.

(** [for (auto& a : xs) v.PushBack(a);] *)
Fixpoint push_all (xs : list Args) (v : Vector T) (w : World) : result World (Vector T) unit :=
  match xs with
  | [] => Normal v tt w
  | a :: xs' =>
      match PushBack a v w with
      | Normal v' _ w' => push_all xs' v' w'
      | Throws v' w' => Throws v' w'
      | Fault => Fault
      end
  end.

(** What a history shows to have gone wrong with object lifetimes: the
    destructor calls on slots holding no object, and the objects still alive
    in a block when it was released. *)
Definition misuse (e : Event T Args) : nat :=
  match e with
  | DestroyDead => 1
  | Free abandoned => length abandoned
  | _ => 0
  end.

Definition misuses (w : World) : nat := sum_list_with misuse w.

(** [quiet w w']: between [w] and [w'] nothing was allocated and no slot was
    misused. *)
Definition quiet (w w' : World) : Prop :=
  alloc_requests w' = alloc_requests w /\ misuses w' = misuses w.

Definition quietly {S A : Type} (w : World) (r : result World S A) : Prop :=
  match r with
  | Normal _ _ w' => quiet w w'
  | Throws _ w' => quiet w w'
  | Fault => True
  end.

(** The call left the vector in the block it had: same capacity, and no
    allocation was requested. *)
Definition keeps_block {A : Type} (v : Vector T) (w : World)
    (r : result World (Vector T) A) : Prop :=
  match r with
  | Normal v' _ w' | Throws v' w' =>
      capacity_ (data_ v') = capacity_ (data_ v) /\ alloc_requests w' = alloc_requests w
  | Fault => True
  end.

(** The constructor calls that built an object, and the destructor calls. *)
Definition constructed (e : Event T Args) : nat :=
  match e with
  | Try (AConstruct _) true | Try AValueInit true
  | Try (ACopyCtor _) true | Try (AMoveCtor _) true => 1
  | _ => 0
  end.

Definition destructed (e : Event T Args) : nat :=
  match e with
  | Destroy _ | DestroyDead => 1
  | _ => 0
  end.

Definition constructions (w : World) : nat := sum_list_with constructed w.
Definition destructor_calls (w : World) : nat := sum_list_with destructed w.

(** Between [w] and [w'], [c] objects were built and [d] destructor calls
    were made. *)
Definition tally (w w' : World) (c d : nat) : Prop :=
  constructions w' = c + constructions w /\ destructor_calls w' = d + destructor_calls w.

Definition tallies {S A : Type} (w : World) (c d : nat) (r : result World S A) : Prop :=
  match r with
  | Normal _ _ w' => tally w w' c d
  | Throws _ _ => False
  | Fault => True
  end.

(** A call that returns has built as many objects more than it has destroyed
    as the vector has gained elements. *)
Definition balanced {A : Type} (v : Vector T) (w : World)
    (r : result World (Vector T) A) : Prop :=
  match r with
  | Normal v' _ w' =>
      constructions w' + destructor_calls w + size_ v
      = constructions w + destructor_calls w' + size_ v'
  | Throws _ _ => False
  | Fault => True
  end.

(** The number of elements of all the vectors of a program. *)
Definition total_size (st : gmap nat (Vector T)) : nat :=
  map_fold (fun _ v n => size_ v + n) 0 st.

(** Every object of the program is well formed: it holds some list of
    elements, alive in the first slots of its block, the others raw. *)
Definition well_formed (v : Vector T) : Prop := exists l, holds v l.

End MoreCode.


(** ** The byte count of an allocation

    [Allocate(n)] asks [operator new] for [n * sizeof(T)] bytes, a product
    computed in [size_t] (vector.h:72).  When it wraps, the block has room
    for fewer than [n] objects, and [RawMemory(size_t capacity)] records
    [capacity_ = n] all the same (vector.h:19-22).  The caller chooses the
    request of [Vector(size)], [Reserve] and [Resize]; these are given here
    over the allocation as the source computes it.  ([operator new] returns
    a block for a byte count of 0 as well; in the model a block of no slots
    is the null pointer, and its release leaves no trace in the history.) *)

(** [sizeof(T)], at least 1. *)
Class ObjectSize (T : Type) : Type := sizeof : positive.

(** [size_t] has 64 bits. *)
Definition SIZE_MAX : N := 18446744073709551615.

Section SizeT.

Context {T Args : Type} `{E : ElementType T Args} `{Sz : ObjectSize T}.

Local Abbreviation World := (list (Event T Args)).
Local Abbreviation Buf := (list (option T)).

(** [n * sizeof(T)] in [size_t]. *)
Definition byte_count (n : nat) : N := ((N.of_nat n * Npos sizeof) mod (SIZE_MAX + 1))%N.

(** The objects a block of [byte_count n] bytes has room for. *)
Definition slots_allocated (n : nat) : nat := N.to_nat (byte_count n / Npos sizeof).

(** The byte count of a request for [n] objects does not wrap. *)
Definition request_fits (n : nat) : Prop := (N.of_nat n * Npos sizeof <= SIZE_MAX)%N.

(** [Allocate(n)]: [n != 0 ? operator new(n * sizeof(T)) : nullptr]. *)
Definition Allocate_size_t (n : nat) (w : World) : option Buf * World :=
  if n =? 0 then (Some [], w)
  else
    let '(ok, w') := attempt (AAlloc n) w in
    (if ok then Some (replicate (slots_allocated n) None) else None, w').

(** [explicit RawMemory(size_t capacity)]. *)
Definition RawMemory_new_size_t (capacity : nat) (w : World) : option (RawMemory T) * World :=
  let '(b, w') := Allocate_size_t capacity w in
  (match b with
   | Some buf => Some {| buffer_ := buf; capacity_ := capacity |}
   | None => None
   end, w').

(** [Vector(size_t size)]. *)
Definition Vector_sized_size_t (size : nat) (w : World) : result World unit (Vector T) :=
  match RawMemory_new_size_t size w with
  | (None, w1) => Throws tt w1
  | (Some data, w1) =>
      match uninitialized_value_construct_n (buffer_ data) 0 size w1 with
      | Normal b _ w2 =>
          Normal tt {| data_ := {| buffer_ := b; capacity_ := capacity_ data |}; size_ := size |} w2
      | Throws b w2 => Throws tt (Deallocate b w2)
      | Fault => Fault
      end
  end.

(** [Reserve(new_capacity)]. *)
Definition Reserve_size_t (new_capacity : nat) (v : Vector T) (w : World)
  : result World (Vector T) unit :=
  if new_capacity <=? capacity_ (data_ v) then Normal v tt w
  else
    match RawMemory_new_size_t new_capacity w with
    | (None, w1) => Throws v w1
    | (Some new_data, w1) =>
        if move_if_noexcept then
          match uninitialized_move_n (buffer_ (data_ v)) 0 (size_ v) (buffer_ new_data) 0 w1 with
          | Normal (old, new) _ w2 =>
              match destroy_n old 0 (size_ v) w2 with
              | Some (old', w3) =>
                  Normal {| data_ := {| buffer_ := new; capacity_ := capacity_ new_data |};
                            size_ := size_ v |} tt (Deallocate old' w3)
              | None => Fault
              end
          | Throws (old, new) w2 => Throws (with_buffer v old) (Deallocate new w2)
          | Fault => Fault
          end
        else
          match uninitialized_copy_n (buffer_ (data_ v)) 0 (size_ v) (buffer_ new_data) 0 w1 with
          | Normal new _ w2 =>
              match destroy_n (buffer_ (data_ v)) 0 (size_ v) w2 with
              | Some (old', w3) =>
                  Normal {| data_ := {| buffer_ := new; capacity_ := capacity_ new_data |};
                            size_ := size_ v |} tt (Deallocate old' w3)
              | None => Fault
              end
          | Throws new w2 => Throws v (Deallocate new w2)
          | Fault => Fault
          end
    end.

(** [Resize(new_size)]. *)
Definition Resize_size_t (new_size : nat) (v : Vector T) (w : World)
  : result World (Vector T) unit :=
  if new_size <? size_ v then
    match destroy_n (buffer_ (data_ v)) new_size (size_ v - new_size) w with
    | Some (b, w1) =>
        Normal {| data_ := {| buffer_ := b; capacity_ := capacity_ (data_ v) |};
                  size_ := new_size |} tt w1
    | None => Fault
    end
  else
    match Reserve_size_t new_size v w with
    | Normal v1 _ w1 =>
        match uninitialized_value_construct_n (buffer_ (data_ v1)) (size_ v1)
                (new_size - size_ v1) w1 with
        | Normal b _ w2 =>
            Normal {| data_ := {| buffer_ := b; capacity_ := capacity_ (data_ v1) |};
                      size_ := new_size |} tt w2
        | Throws b w2 => Throws (with_buffer v1 b) w2
        | Fault => Fault
        end
    | Throws v1 w1 => Throws v1 w1
    | Fault => Fault
    end.

(** The calls of a program, the three whose request the caller chooses over
    the allocation above. *)
Definition run_call_size_t (c : Call) (st : gmap nat (Vector T)) (w : World)
  : result World (gmap nat (Vector T)) unit :=
  match c with
  | CNewSized a size =>
      match st !! a with
      | None =>
          match Vector_sized_size_t size w with
          | Normal _ v w' => Normal (<[a := v]> st) tt w'
          | Throws _ w' => Throws st w'
          | Fault => Fault
          end
      | Some _ => Fault
      end
  | CReserve a n => on_object a (Reserve_size_t n) st w
  | CResize a n => on_object a (Resize_size_t n) st w
  | _ => run_call c st w
  end.

(** The request of the call, if the caller chooses one, does not wrap. *)
Definition call_fits (c : Call (Args := Args)) : Prop :=
  match c with
  | CNewSized _ n | CReserve _ n | CResize _ n => request_fits n
  | _ => True
  end.

(** The states a program can be in after some calls whose requests do not
    wrap, each of which returned or threw. *)
Inductive reachable_size_t (st0 : gmap nat (Vector T)) (w0 : World)
  : gmap nat (Vector T) -> World -> Prop :=
| reach_size_t_start : reachable_size_t st0 w0 st0 w0
| reach_size_t_return c st w st' w' :
    reachable_size_t st0 w0 st w -> call_fits c ->
    run_call_size_t c st w = Normal st' tt w' -> reachable_size_t st0 w0 st' w'
| reach_size_t_throw c st w st' w' :
    reachable_size_t st0 w0 st w -> call_fits c ->
    run_call_size_t c st w = Throws st' w' -> reachable_size_t st0 w0 st' w'.

End SizeT.

(** ** Element types used in the examples *)

(** [int]-like elements built from a value; the traits and the oracle are
    chosen per example. *)
Definition nat_element (nothrow_move copyable : bool)
    (oracle : list (Event nat nat) -> Attempt nat nat -> bool) : ElementType nat nat :=
  {| construct_from := id;
     value_init := 0;
     moved_from := id;
     is_nothrow_move_constructible := nothrow_move;
     is_copy_constructible := copyable;
     throws := oracle |}.

Definition oracle_never : list (Event nat nat) -> Attempt nat nat -> bool :=
  fun _ _ => false.

(** The copy constructor throws on its [k]-th call (counted from 1). *)
Definition oracle_kth_copy (k : nat) : list (Event nat nat) -> Attempt nat nat -> bool :=
  fun w a =>
    match a with
    | ACopyCtor _ =>
        S (length (filter (fun b => b = false) (transfers (T:=nat) (Args:=nat) w))) =? k
    | _ => false
    end.

(** Move-assigning from an object of value [x] throws. *)
Definition oracle_move_assign_from (x : nat) : list (Event nat nat) -> Attempt nat nat -> bool :=
  fun _ a =>
    match a with
    | AMoveAssign _ s => s =? x
    | _ => false
    end.

(** Constructing an element from arguments throws. *)
Definition oracle_construct : list (Event nat nat) -> Attempt nat nat -> bool :=
  fun _ a =>
    match a with
    | AConstruct _ => true
    | _ => false
    end.

(** [int] elements with a non-throwing move constructor. *)
Definition ints : ElementType nat nat := nat_element true true oracle_never.

(** Elements whose move constructor may throw, and whose copy constructor
    throws on its second, respectively its first, call. *)
Definition ints_copy_throws_2nd : ElementType nat nat :=
  nat_element false true (oracle_kth_copy 2).
Definition ints_copy_throws_1st : ElementType nat nat :=
  nat_element false true (oracle_kth_copy 1).

(** Elements for which move-assigning from the value 9 throws. *)
Definition ints_assign_throws : ElementType nat nat :=
  nat_element true true (oracle_move_assign_from 9).

(** Elements whose constructor from arguments throws. *)
Definition ints_construct_throws : ElementType nat nat :=
  nat_element true true oracle_construct.

(** [sizeof(int)]. *)
Definition sizeof_int : ObjectSize nat := 4%positive.

(** Two vector objects: [1, 2] at address 0 and [7] at address 1. *)
Definition two_vectors : gmap nat (Vector nat) :=
  <[0 := vector_of [1; 2] 2]> (<[1 := vector_of [7] 1]> ∅).

(** ** Proofs *)

Section Proofs.

Context {T Args : Type} `{E : ElementType T Args} `{Sz : ObjectSize T}.
Implicit Types (b src dst : list (option T)) (l : list T) (w : list (Event T Args)).

(** *** Lists and histories *)

Lemma insert_middle {A} (l1 l2 : list A) (x y : A) :
  <[length l1 := y]> (l1 ++ x :: l2) = l1 ++ y :: l2.
Proof.
  replace (length l1) with (length l1 + 0) at 1 by lia.
  by rewrite insert_app_r.
Qed.

Lemma insert_middle_at {A} (l1 l2 : list A) (x y : A) n :
  n = length l1 -> <[n := y]> (l1 ++ x :: l2) = l1 ++ y :: l2.
Proof. intros ->. apply insert_middle. Qed.

Lemma attempt_spec a w :
  exists ok, attempt a w = (ok, Try a ok :: w) /\ (ok = false -> ~ never_throws).
Proof.
  exists (negb (throws w a)). split; [done|].
  intros Hf Hn. rewrite Hn in Hf. done.
Qed.

Lemma construct_spec b i a x w :
  i < length b ->
  match construct b i a x w with
  | Normal b' _ w' => b' = <[i := Some x]> b /\ w' = Try a true :: w
  | Throws b' w' => b' = b /\ w' = Try a false :: w /\ ~ never_throws
  | Fault => False
  end.
Proof.
  intros Hi. unfold construct. rewrite decide_True by done.
  destruct (attempt_spec a w) as (ok & -> & Hok).
  destruct ok; auto.
Qed.

Lemma replicate_snoc_app {A} n (x : A) (l : list A) :
  replicate n x ++ x :: l = replicate (S n) x ++ l.
Proof. induction n as [|n IH]; simpl; [done|]. by rewrite IH. Qed.

(** *** The algorithms of <memory> and <algorithm>

    Each algorithm is specified on a block cut in three: the slots before the
    range it works on, the range, and the slots after it.  A specification
    covers the three ways out: the block it leaves on return, what is left
    when an element operation throws (which is then an operation of a type
    that can throw), and that it does not fault. *)

Lemma copy_construct_loop_spec l : forall (s1 s2 d1 d2 d3 : list (option T)) w,
  length d2 = length l ->
  match copy_construct_loop (s1 ++ (Some <$> l) ++ s2) (length s1) (length l)
          (d1 ++ d2 ++ d3) (length d1) w with
  | Normal (dst', cur') _ w' =>
      dst' = d1 ++ (Some <$> l) ++ d3 /\ cur' = length d1 + length l /\
      transfers w' = replicate (length l) false ++ transfers w /\
      alloc_requests w' = alloc_requests w
  | Throws (dst', cur') w' =>
      exists k, k < length l /\
        dst' = d1 ++ (Some <$> take k l) ++ drop k d2 ++ d3 /\ cur' = length d1 + k /\
        transfers w' = replicate (S k) false ++ transfers w /\
        alloc_requests w' = alloc_requests w /\ ~ never_throws
  | Fault => False
  end.
Proof.
  induction l as [|x l IH]; intros s1 s2 d1 d2 d3 w Hlen.
  - destruct d2; [|done]. simpl. rewrite Nat.add_0_r. done.
  - destruct d2 as [|y d2]; [done|]. simpl in Hlen. apply Nat.succ_inj in Hlen.
    cbn [copy_construct_loop fmap list_fmap app length].
    rewrite list_lookup_middle by done.
    pose proof (construct_spec (d1 ++ y :: d2 ++ d3) (length d1) (ACopyCtor x) x w) as Hc.
    destruct (construct _ _ _ _ _) as [b' [] w'|b' w'|].
    + destruct Hc as [-> ->]. { rewrite length_app. simpl. lia. }
      rewrite insert_middle.
      specialize (IH (s1 ++ [Some x]) s2 (d1 ++ [Some x]) d2 d3 (Try (ACopyCtor x) true :: w) Hlen).
      rewrite !length_app, <- !app_assoc in IH. simpl in IH. rewrite !Nat.add_1_r in IH.
      destruct (copy_construct_loop _ _ _ _ _ _) as [[dst' cur'] [] w''|[dst' cur'] w''|]; [| |done].
      * destruct IH as (-> & -> & Ht & Ha). repeat split; [lia| |done].
        rewrite Ht. simpl. by rewrite replicate_snoc_app.
      * destruct IH as (k & Hk & -> & -> & Ht & Ha & Hn).
        exists (S k). simpl. split_and!; try lia; try done.
        -- by rewrite <- app_assoc.
        -- rewrite Ht. simpl. by rewrite !replicate_snoc_app.
    + destruct Hc as (-> & -> & Hn). { rewrite length_app. simpl. lia. }
      exists 0. simpl. rewrite Nat.add_0_r. repeat split; [lia|done].
    + apply Hc. rewrite length_app. simpl. lia.
Qed.

Lemma destroy_n_total n : forall b first w,
  first + n <= length b ->
  exists b' w', destroy_n b first n w = Some (b', w') /\ length b' = length b /\
    transfers w' = transfers w /\ alloc_requests w' = alloc_requests w.
Proof.
  induction n as [|n IH]; intros b first w Hle; simpl.
  - by exists b, w.
  - unfold destroy_at.
    destruct (lookup_lt_is_Some_2 b first) as [o Ho]; [lia|]. rewrite Ho.
    destruct o as [x|].
    + destruct (IH (<[first := None]> b) (S first) (Destroy x :: w)) as (b' & w' & -> & Hl & Ht & Ha).
      { rewrite length_insert. lia. }
      exists b', w'. rewrite length_insert in Hl. done.
    + destruct (IH b (S first) (DestroyDead :: w)) as (b' & w' & -> & Hl & Ht & Ha); [lia|].
      by exists b', w'.
Qed.

Lemma destroy_n_live l : forall (d1 d3 : list (option T)) w,
  destroy_n (d1 ++ (Some <$> l) ++ d3) (length d1) (length l) w
  = Some (d1 ++ replicate (length l) None ++ d3, (Destroy <$> reverse l) ++ w).
Proof.
  induction l as [|x l IH]; intros d1 d3 w; [done|].
  cbn [destroy_n length fmap list_fmap app]. unfold destroy_at.
  rewrite list_lookup_middle by done. rewrite insert_middle.
  specialize (IH (d1 ++ [None]) d3 (Destroy x :: w)).
  rewrite length_app, <- !app_assoc in IH. simpl in IH. rewrite Nat.add_1_r in IH.
  rewrite IH. rewrite reverse_cons, fmap_app, <- app_assoc. done.
Qed.

Lemma destroy_n_live_at l (d1 d3 : list (option T)) first n w :
  first = length d1 -> n = length l ->
  destroy_n (d1 ++ (Some <$> l) ++ d3) first n w
  = Some (d1 ++ replicate n None ++ d3, (Destroy <$> reverse l) ++ w).
Proof. intros -> ->. apply destroy_n_live. Qed.

Lemma transfers_destroys l w : transfers ((Destroy <$> l) ++ w) = transfers w.
Proof. induction l; simpl; done. Qed.

Lemma alloc_requests_destroys l w : alloc_requests ((Destroy <$> l) ++ w) = alloc_requests w.
Proof. induction l; simpl; done. Qed.

Lemma uninitialized_copy_n_spec l (s1 s2 d1 d2 d3 : list (option T)) w :
  length d2 = length l ->
  match uninitialized_copy_n (s1 ++ (Some <$> l) ++ s2) (length s1) (length l)
          (d1 ++ d2 ++ d3) (length d1) w with
  | Normal dst' _ w' =>
      dst' = d1 ++ (Some <$> l) ++ d3 /\
      transfers w' = replicate (length l) false ++ transfers w /\
      alloc_requests w' = alloc_requests w
  | Throws dst' w' =>
      exists k, k < length l /\
        dst' = d1 ++ replicate k None ++ drop k d2 ++ d3 /\
        transfers w' = replicate (S k) false ++ transfers w /\
        alloc_requests w' = alloc_requests w /\ ~ never_throws
  | Fault => False
  end.
Proof.
  intros Hlen. unfold uninitialized_copy_n.
  pose proof (copy_construct_loop_spec l s1 s2 d1 d2 d3 w Hlen) as H.
  destruct (copy_construct_loop _ _ _ _ _ _) as [[dst' cur'] [] w'|[dst' cur'] w'|]; [| |done].
  - destruct H as (-> & _ & Ht & Ha). done.
  - destruct H as (k & Hk & -> & -> & Ht & Ha & Hn).
    replace (length d1 + k - length d1) with (length (take k l)) by (rewrite length_take; lia).
    rewrite destroy_n_live. exists k.
    rewrite transfers_destroys, alloc_requests_destroys, length_take, Nat.min_l by lia. done.
Qed.

Lemma move_construct_loop_spec l : forall (s1 s2 d1 d2 d3 : list (option T)) w,
  length d2 = length l ->
  match move_construct_loop (s1 ++ (Some <$> l) ++ s2) (length s1) (length l)
          (d1 ++ d2 ++ d3) (length d1) w with
  | Normal (src', dst', cur') _ w' =>
      src' = s1 ++ (Some <$> (moved_from <$> l)) ++ s2 /\
      dst' = d1 ++ (Some <$> l) ++ d3 /\ cur' = length d1 + length l /\
      transfers w' = replicate (length l) true ++ transfers w /\
      alloc_requests w' = alloc_requests w
  | Throws (src', dst', cur') w' =>
      exists k, k < length l /\
        src' = s1 ++ (Some <$> (moved_from <$> take k l)) ++ (Some <$> drop k l) ++ s2 /\
        dst' = d1 ++ (Some <$> take k l) ++ drop k d2 ++ d3 /\ cur' = length d1 + k /\
        transfers w' = replicate (S k) true ++ transfers w /\
        alloc_requests w' = alloc_requests w /\ ~ never_throws
  | Fault => False
  end.
Proof.
  induction l as [|x l IH]; intros s1 s2 d1 d2 d3 w Hlen.
  - destruct d2; [|done]. simpl. rewrite Nat.add_0_r. done.
  - destruct d2 as [|y d2]; [done|]. simpl in Hlen. apply Nat.succ_inj in Hlen.
    cbn [move_construct_loop fmap list_fmap app length].
    rewrite list_lookup_middle by done.
    pose proof (construct_spec (d1 ++ y :: d2 ++ d3) (length d1) (AMoveCtor x) x w) as Hc.
    destruct (construct _ _ _ _ _) as [b' [] w'|b' w'|].
    + destruct Hc as [-> ->]. { rewrite length_app. simpl. lia. }
      rewrite !insert_middle.
      specialize (IH (s1 ++ [Some (moved_from x)]) s2 (d1 ++ [Some x]) d2 d3
                    (Try (AMoveCtor x) true :: w) Hlen).
      rewrite !length_app, <- !app_assoc in IH. simpl in IH. rewrite !Nat.add_1_r in IH.
      destruct (move_construct_loop _ _ _ _ _ _) as [[[src' dst'] cur'] [] w''|[[src' dst'] cur'] w''|];
        [| |done].
      * destruct IH as (-> & -> & -> & Ht & Ha).
        split_and!; try done; try lia; try (by rewrite <- app_assoc).
        rewrite Ht. simpl. by rewrite replicate_snoc_app.
      * destruct IH as (k & Hk & -> & -> & -> & Ht & Ha & Hn).
        exists (S k). simpl. split_and!; try lia; try done; try (by rewrite <- app_assoc).
        rewrite Ht. simpl. by rewrite !replicate_snoc_app.
    + destruct Hc as (-> & -> & Hn). { rewrite length_app. simpl. lia. }
      exists 0. simpl. rewrite Nat.add_0_r. split_and!; try done. lia.
    + apply Hc. rewrite length_app. simpl. lia.
Qed.

Lemma uninitialized_move_n_spec l (s1 s2 d1 d2 d3 : list (option T)) w :
  length d2 = length l ->
  match uninitialized_move_n (s1 ++ (Some <$> l) ++ s2) (length s1) (length l)
          (d1 ++ d2 ++ d3) (length d1) w with
  | Normal (src', dst') _ w' =>
      src' = s1 ++ (Some <$> (moved_from <$> l)) ++ s2 /\
      dst' = d1 ++ (Some <$> l) ++ d3 /\
      transfers w' = replicate (length l) true ++ transfers w /\
      alloc_requests w' = alloc_requests w
  | Throws (src', dst') w' =>
      exists k, k < length l /\
        src' = s1 ++ (Some <$> (moved_from <$> take k l)) ++ (Some <$> drop k l) ++ s2 /\
        dst' = d1 ++ replicate k None ++ drop k d2 ++ d3 /\
        transfers w' = replicate (S k) true ++ transfers w /\
        alloc_requests w' = alloc_requests w /\ ~ never_throws
  | Fault => False
  end.
Proof.
  intros Hlen. unfold uninitialized_move_n.
  pose proof (move_construct_loop_spec l s1 s2 d1 d2 d3 w Hlen) as H.
  destruct (move_construct_loop _ _ _ _ _ _) as [[[src' dst'] cur'] [] w'|[[src' dst'] cur'] w'|];
    [| |done].
  - destruct H as (-> & -> & _ & Ht & Ha). done.
  - destruct H as (k & Hk & -> & -> & -> & Ht & Ha & Hn).
    replace (length d1 + k - length d1) with (length (take k l)) by (rewrite length_take; lia).
    rewrite destroy_n_live. exists k.
    rewrite transfers_destroys, alloc_requests_destroys, length_take, Nat.min_l by lia. done.
Qed.

Lemma value_construct_loop_spec (d2 : list (option T)) : forall (d1 d3 : list (option T)) w,
  match value_construct_loop (d1 ++ d2 ++ d3) (length d1) (length d2) w with
  | Normal (b', cur') _ w' =>
      b' = d1 ++ replicate (length d2) (Some value_init) ++ d3 /\
      transfers w' = transfers w /\ alloc_requests w' = alloc_requests w
  | Throws (b', cur') w' =>
      exists k, k < length d2 /\
        b' = d1 ++ (Some <$> replicate k value_init) ++ drop k d2 ++ d3 /\
        cur' = length d1 + k /\
        transfers w' = transfers w /\ alloc_requests w' = alloc_requests w /\ ~ never_throws
  | Fault => False
  end.
Proof.
  induction d2 as [|y d2 IH]; intros d1 d3 w; [done|].
  cbn [value_construct_loop length app].
  pose proof (construct_spec (d1 ++ y :: d2 ++ d3) (length d1) AValueInit value_init w) as Hc.
  destruct (construct _ _ _ _ _) as [b' [] w'|b' w'|].
  - destruct Hc as [-> ->]. { rewrite length_app. simpl. lia. }
    rewrite insert_middle.
    specialize (IH (d1 ++ [Some value_init]) d3 (Try AValueInit true :: w)).
    rewrite !length_app, <- !app_assoc in IH. simpl in IH. rewrite !Nat.add_1_r in IH.
    destruct (value_construct_loop _ _ _ _) as [[b' cur'] [] w''|[b' cur'] w''|]; [| |done].
    + destruct IH as (-> & Ht & Ha). done.
    + destruct IH as (k & Hk & -> & -> & Ht & Ha & Hn).
      exists (S k). simpl. split_and!; try lia; try done. by rewrite <- app_assoc.
  - destruct Hc as (-> & -> & Hn). { rewrite length_app. simpl. lia. }
    exists 0. simpl. rewrite Nat.add_0_r. split_and!; try done. lia.
  - apply Hc. rewrite length_app. simpl. lia.
Qed.

Lemma uninitialized_value_construct_n_spec (d1 d2 d3 : list (option T)) w :
  match uninitialized_value_construct_n (d1 ++ d2 ++ d3) (length d1) (length d2) w with
  | Normal b' _ w' =>
      b' = d1 ++ replicate (length d2) (Some value_init) ++ d3 /\
      transfers w' = transfers w /\ alloc_requests w' = alloc_requests w
  | Throws b' w' =>
      exists k, k < length d2 /\ b' = d1 ++ replicate k None ++ drop k d2 ++ d3 /\
        transfers w' = transfers w /\ alloc_requests w' = alloc_requests w /\ ~ never_throws
  | Fault => False
  end.
Proof.
  unfold uninitialized_value_construct_n.
  pose proof (value_construct_loop_spec d2 d1 d3 w) as H.
  destruct (value_construct_loop _ _ _ _) as [[b' cur'] [] w'|[b' cur'] w'|]; [done| |done].
  destruct H as (k & Hk & -> & -> & Ht & Ha & Hn).
  replace (length d1 + k - length d1) with (length (replicate k (@value_init T Args E)))
    by (rewrite length_replicate; lia).
  rewrite destroy_n_live. exists k.
  rewrite transfers_destroys, alloc_requests_destroys, length_replicate. done.
Qed.

Lemma lookup_middle_next {A} (l1 l2 : list A) (x y : A) :
  (l1 ++ x :: y :: l2) !! S (length l1) = Some y.
Proof.
  rewrite (cons_middle x), app_assoc. apply list_lookup_middle.
  rewrite length_app. simpl. lia.
Qed.

Lemma insert_middle_next {A} (l1 l2 : list A) (x y z : A) :
  <[S (length l1) := z]> (l1 ++ x :: y :: l2) = l1 ++ x :: z :: l2.
Proof.
  rewrite (cons_middle x l1), app_assoc.
  replace (S (length l1)) with (length (l1 ++ [x])) by (rewrite length_app; simpl; lia).
  rewrite insert_middle. by rewrite <- app_assoc.
Qed.

Lemma move_assign_slot_spec b from to s d w :
  b !! from = Some (Some s) -> b !! to = Some (Some d) ->
  match move_assign_slot b from to w with
  | Normal b' _ w' => b' = <[from := Some (moved_from s)]> (<[to := Some s]> b)
  | Throws b' w' => b' = b /\ ~ never_throws
  | Fault => False
  end.
Proof.
  intros Hf Ht. unfold move_assign_slot. rewrite Hf, Ht.
  destruct (attempt_spec (AMoveAssign d s) w) as (ok & -> & Hok).
  destruct ok; auto.
Qed.

Lemma std_move_loop_spec l : forall (d1 d3 : list (option T)) y w,
  match std_move_loop (d1 ++ Some y :: (Some <$> l) ++ d3) (S (length d1)) (length l)
          (length d1) w with
  | Normal b' _ _ => exists r, b' = d1 ++ (Some <$> l) ++ Some r :: d3
  | Throws b' _ => length b' = length (d1 ++ Some y :: (Some <$> l) ++ d3) /\ ~ never_throws
  | Fault => False
  end.
Proof.
  induction l as [|x l IH]; intros d1 d3 y w.
  - simpl. by exists y.
  - cbn [std_move_loop length fmap list_fmap app].
    pose proof (move_assign_slot_spec (d1 ++ Some y :: Some x :: (Some <$> l) ++ d3)
                  (S (length d1)) (length d1) x y w) as Hm.
    rewrite lookup_middle_next, list_lookup_middle in Hm by done.
    specialize (Hm eq_refl eq_refl).
    destruct (move_assign_slot _ _ _ _) as [b' [] w'|b' w'|]; [| |done].
    + subst b'. rewrite insert_middle, insert_middle_next.
      specialize (IH (d1 ++ [Some x]) d3 (moved_from x) w').
      rewrite !length_app, <- !app_assoc in IH. simpl in IH. rewrite !Nat.add_1_r in IH.
      destruct (std_move_loop _ _ _ _ _) as [b' [] w''|b' w''|]; [| |done].
      * destruct IH as [r ->]. exists r. by rewrite <- app_assoc.
      * destruct IH as [Hl Hn]. split; [|done]. rewrite Hl.
        repeat (rewrite length_app; simpl). lia.
    + destruct Hm as [-> Hn]. done.
Qed.

Lemma std_move_backward_loop_spec l : forall (d1 d3 : list (option T)) y w,
  match std_move_backward_loop (d1 ++ (Some <$> l) ++ Some y :: d3) (length d1) (length l)
          (S (length d1 + length l)) w with
  | Normal b' _ _ => exists r, b' = d1 ++ Some r :: (Some <$> l) ++ d3
  | Throws b' _ => length b' = length (d1 ++ (Some <$> l) ++ Some y :: d3) /\ ~ never_throws
  | Fault => False
  end.
Proof.
  induction l as [|x l IH] using rev_ind; intros d1 d3 y w.
  - simpl. by exists y.
  - rewrite length_app. simpl. rewrite Nat.add_1_r.
    cbn [std_move_backward_loop].
    rewrite fmap_app. simpl. rewrite <- (app_assoc (Some <$> l)). simpl.
    pose proof (move_assign_slot_spec ((d1 ++ (Some <$> l)) ++ Some x :: Some y :: d3)
                  (length (d1 ++ (Some <$> l))) (S (length (d1 ++ (Some <$> l)))) x y w) as Hm.
    rewrite lookup_middle_next, list_lookup_middle in Hm by done.
    specialize (Hm eq_refl eq_refl).
    rewrite insert_middle_next, insert_middle in Hm.
    rewrite length_app, length_fmap, <- !app_assoc in Hm.
    replace (length d1 + S (length l)) with (S (length d1 + length l)) by lia.
    destruct (move_assign_slot _ _ _ _) as [b' [] w'|b' w'|]; [| |done].
    + subst b'.
      specialize (IH d1 (Some x :: d3) (moved_from x) w').
      destruct (std_move_backward_loop _ _ _ _ _) as [b' [] w''|b' w''|]; [| |done].
      * destruct IH as [r ->]. exists r. by rewrite <- app_assoc.
      * destruct IH as [Hl Hn]. split; [|done]. rewrite Hl.
        repeat (rewrite length_app; simpl). lia.
    + destruct Hm as [-> Hn]. done.
Qed.

(** *** The growing functions *)

Lemma transfers_Deallocate b w : transfers (Deallocate b w) = transfers w.
Proof. by destruct b. Qed.

Lemma alloc_requests_Deallocate b w : alloc_requests (Deallocate b w) = alloc_requests w.
Proof. by destruct b. Qed.

Lemma RawMemory_new_spec n w :
  n <> 0 ->
  match RawMemory_new (T:=T) n w with
  | (Some r, w') =>
      r = {| buffer_ := replicate n None; capacity_ := n |} /\ w' = Try (AAlloc n) true :: w
  | (None, w') => w' = Try (AAlloc n) false :: w /\ ~ never_throws
  end.
Proof.
  intros Hn. unfold RawMemory_new, Allocate.
  destruct (Nat.eqb_spec n 0) as [|_]; [done|].
  destruct (attempt_spec (AAlloc n) w) as (ok & -> & Hok).
  destruct ok; auto.
Qed.

Lemma holds_buffer v l :
  holds v l ->
  buffer_ (data_ v) = [] ++ (Some <$> l) ++ replicate (capacity_ (data_ v) - length l) None /\
  size_ v = length l /\ length l <= capacity_ (data_ v).
Proof.
  intros [Hv Hl]. destruct v as [[b c] s]. simpl in *.
  unfold vector_of in Hv. injection Hv as -> ->. done.
Qed.

Lemma raw_block_split n k :
  k <= n -> replicate n (@None T) = [] ++ replicate k None ++ replicate (n - k) None.
Proof. intros. simpl. rewrite <- replicate_add. f_equal. lia. Qed.

Lemma Reserve_grow_spec v l n w :
  holds v l -> capacity_ (data_ v) < n ->
  match Reserve n v w with
  | Normal v' _ w' =>
      v' = vector_of l n /\
      transfers w' = replicate (length l) move_if_noexcept ++ transfers w /\
      alloc_requests w' = n :: alloc_requests w
  | Throws v' w' =>
      (move_if_noexcept = false -> v' = v) /\
      (exists k, k <= length l /\ transfers w' = replicate k move_if_noexcept ++ transfers w) /\
      alloc_requests w' = n :: alloc_requests w /\ ~ never_throws
  | Fault => False
  end.
Proof.
  intros Hv Hn. destruct (holds_buffer v l Hv) as (Hb & Hs & Hl).
  unfold Reserve. destruct (Nat.leb_spec n (capacity_ (data_ v))) as [|_]; [lia|].
  pose proof (RawMemory_new_spec n w) as Hr.
  destruct (RawMemory_new n w) as [[new_data|] w1].
  2:{ destruct Hr as [-> Hnt]; [lia|]. split_and!; try done. exists 0. split; [lia|done]. }
  destruct Hr as [-> ->]; [lia|]. cbn [buffer_ capacity_].
  rewrite Hb, Hs, (raw_block_split n (length l)) by lia.
  destruct move_if_noexcept.
  - pose proof (uninitialized_move_n_spec l [] (replicate (capacity_ (data_ v) - length l) None)
                  [] (replicate (length l) None) (replicate (n - length l) None)
                  (Try (AAlloc n) true :: w)) as Hm.
    rewrite length_replicate in Hm. specialize (Hm eq_refl). cbn [length] in Hm.
    destruct (uninitialized_move_n _ _ _ _ _ _) as [[old new] [] w2|[old new] w2|]; [| |done].
    + destruct Hm as (-> & -> & Ht & Ha).
      rewrite (destroy_n_live_at (moved_from <$> l) []) by (by rewrite ?length_fmap).
      rewrite transfers_Deallocate, alloc_requests_Deallocate,
        transfers_destroys, alloc_requests_destroys.
      split_and!; done.
    + destruct Hm as (k & Hk & -> & -> & Ht & Ha & Hnt).
      rewrite transfers_Deallocate, alloc_requests_Deallocate.
      split_and!; try done. exists (S k). split; [lia|done].
  - pose proof (uninitialized_copy_n_spec l [] (replicate (capacity_ (data_ v) - length l) None)
                  [] (replicate (length l) None) (replicate (n - length l) None)
                  (Try (AAlloc n) true :: w)) as Hm.
    rewrite length_replicate in Hm. specialize (Hm eq_refl). cbn [length] in Hm.
    destruct (uninitialized_copy_n _ _ _ _ _ _) as [new [] w2|new w2|]; [| |done].
    + destruct Hm as (-> & Ht & Ha).
      rewrite (destroy_n_live_at l []) by done.
      rewrite transfers_Deallocate, alloc_requests_Deallocate,
        transfers_destroys, alloc_requests_destroys.
      split_and!; done.
    + destruct Hm as (k & Hk & -> & Ht & Ha & Hnt).
      rewrite transfers_Deallocate, alloc_requests_Deallocate.
      split_and!; try done. exists (S k). split; [lia|done].
Qed.

Lemma uninitialized_copy_n_at l (s1 s2 d1 d2 d3 : list (option T)) src first n dst d_first w :
  src = s1 ++ (Some <$> l) ++ s2 -> first = length s1 -> n = length l ->
  dst = d1 ++ d2 ++ d3 -> d_first = length d1 -> length d2 = length l ->
  match uninitialized_copy_n src first n dst d_first w with
  | Normal dst' _ w' =>
      dst' = d1 ++ (Some <$> l) ++ d3 /\
      transfers w' = replicate (length l) false ++ transfers w /\
      alloc_requests w' = alloc_requests w
  | Throws dst' w' =>
      exists k, k < length l /\
        dst' = d1 ++ replicate k None ++ drop k d2 ++ d3 /\
        transfers w' = replicate (S k) false ++ transfers w /\
        alloc_requests w' = alloc_requests w /\ ~ never_throws
  | Fault => False
  end.
Proof. intros -> -> -> -> -> ?. by apply uninitialized_copy_n_spec. Qed.

Lemma uninitialized_move_n_at l (s1 s2 d1 d2 d3 : list (option T)) src first n dst d_first w :
  src = s1 ++ (Some <$> l) ++ s2 -> first = length s1 -> n = length l ->
  dst = d1 ++ d2 ++ d3 -> d_first = length d1 -> length d2 = length l ->
  match uninitialized_move_n src first n dst d_first w with
  | Normal (src', dst') _ w' =>
      src' = s1 ++ (Some <$> (moved_from <$> l)) ++ s2 /\
      dst' = d1 ++ (Some <$> l) ++ d3 /\
      transfers w' = replicate (length l) true ++ transfers w /\
      alloc_requests w' = alloc_requests w
  | Throws (src', dst') w' =>
      exists k, k < length l /\
        src' = s1 ++ (Some <$> (moved_from <$> take k l)) ++ (Some <$> drop k l) ++ s2 /\
        dst' = d1 ++ replicate k None ++ drop k d2 ++ d3 /\
        transfers w' = replicate (S k) true ++ transfers w /\
        alloc_requests w' = alloc_requests w /\ ~ never_throws
  | Fault => False
  end.
Proof. intros -> -> -> -> -> ?. by apply uninitialized_move_n_spec. Qed.

(** Lengths of the blocks met in the proofs. *)
Ltac len :=
  repeat (rewrite ?length_app, ?length_fmap, ?length_replicate, ?length_take, ?length_drop,
            ?length_insert, ?length_cons in *; cbn [length] in * );
  try lia.

Lemma insert_raw (n k : nat) (x : T) :
  k < n -> <[k := Some x]> (replicate n None) = replicate k None ++ Some x :: replicate (n - S k) None.
Proof. intros. by apply insert_replicate_lt. Qed.

Lemma growth_capacity_max (size capacity : nat) :
  size = capacity -> (if size =? 0 then 1 else capacity * 2) = Nat.max 1 (capacity * 2).
Proof. intros ->. destruct (Nat.eqb_spec capacity 0); lia. Qed.

Lemma vector_of_snoc l x c :
  S (length l) <= c ->
  {| data_ := {| buffer_ := [] ++ (Some <$> l) ++ Some x :: replicate (c - S (length l)) None;
                 capacity_ := c |};
     size_ := S (length l) |} = vector_of (l ++ [x]) c.
Proof.
  intros. unfold vector_of. rewrite fmap_app, length_app, <- app_assoc. simpl.
  by rewrite Nat.add_1_r.
Qed.

Lemma EmplaceBack_grow_spec v l args w :
  holds v l -> size_ v = capacity_ (data_ v) ->
  match EmplaceBack args v w with
  | Normal v' i w' =>
      v' = vector_of (l ++ [construct_from args]) (Nat.max 1 (capacity_ (data_ v) * 2)) /\
      i = length l /\
      transfers w' = replicate (length l) move_if_noexcept ++ transfers w /\
      alloc_requests w' = Nat.max 1 (capacity_ (data_ v) * 2) :: alloc_requests w
  | Throws v' w' =>
      (move_if_noexcept = false -> v' = v) /\
      (exists k, k <= length l /\ transfers w' = replicate k move_if_noexcept ++ transfers w) /\
      alloc_requests w' = Nat.max 1 (capacity_ (data_ v) * 2) :: alloc_requests w /\
      ~ never_throws
  | Fault => False
  end.
Proof.
  intros Hv Hfull. destruct (holds_buffer v l Hv) as (Hb & Hs & Hl).
  unfold EmplaceBack, Capacity.
  rewrite (growth_capacity_max (size_ v) (capacity_ (data_ v)) Hfull).
  destruct (Nat.eqb_spec (size_ v) (capacity_ (data_ v))) as [_|]; [|done].
  set (c := Nat.max 1 (capacity_ (data_ v) * 2)).
  assert (S (length l) <= c) as Hc by lia.
  pose proof (RawMemory_new_spec c w) as Hr.
  destruct (RawMemory_new c w) as [[new_data|] w1].
  2:{ destruct Hr as [-> Hnt]; [lia|]. split_and!; try done. exists 0. split; [lia|done]. }
  destruct Hr as [-> ->]; [lia|]. cbn [buffer_ capacity_].
  pose proof (construct_spec (replicate c None) (size_ v) (AConstruct args)
                (construct_from args) (Try (AAlloc c) true :: w)) as Hn.
  destruct (construct _ _ _ _ _) as [nb [] w2|nb w2|].
  3:{ apply Hn. len. }
  2:{ destruct Hn as (-> & -> & Hnt); [len|]. rewrite alloc_requests_Deallocate, transfers_Deallocate.
      split_and!; try done. exists 0. split; [lia|done]. }
  destruct Hn as [-> ->]; [len|]. rewrite insert_raw by lia.
  rewrite Hs, Hb.
  destruct move_if_noexcept.
  - pose proof (uninitialized_move_n_at l [] (replicate (capacity_ (data_ v) - length l) None)
                  [] (replicate (length l) None)
                  (Some (construct_from args) :: replicate (c - S (length l)) None)
                  _ 0 _ _ 0 (Try (AConstruct args) true :: Try (AAlloc c) true :: w)
                  eq_refl eq_refl eq_refl eq_refl eq_refl) as Hm.
    rewrite length_replicate in Hm. specialize (Hm eq_refl).
    destruct (uninitialized_move_n _ _ _ _ _ _) as [[old new] [] w3|[old new] w3|]; [| |done].
    + destruct Hm as (-> & -> & Ht & Ha). unfold destroy_and_swap. rewrite ?Hs.
      rewrite (destroy_n_live_at (moved_from <$> l) []) by (by rewrite ?length_fmap).
      rewrite decide_True by (simpl; lia).
      rewrite transfers_Deallocate, alloc_requests_Deallocate,
        transfers_destroys, alloc_requests_destroys.
      cbn [data_ size_]. rewrite ?Hs, vector_of_snoc by done. done.
    + destruct Hm as (k & Hk & -> & -> & Ht & Ha & Hnt).
      rewrite transfers_Deallocate, alloc_requests_Deallocate.
      split_and!; try done. exists (S k). split; [lia|done].
  - pose proof (uninitialized_copy_n_at l [] (replicate (capacity_ (data_ v) - length l) None)
                  [] (replicate (length l) None)
                  (Some (construct_from args) :: replicate (c - S (length l)) None)
                  _ 0 _ _ 0 (Try (AConstruct args) true :: Try (AAlloc c) true :: w)
                  eq_refl eq_refl eq_refl eq_refl eq_refl) as Hm.
    rewrite length_replicate in Hm. specialize (Hm eq_refl).
    destruct (uninitialized_copy_n _ _ _ _ _ _) as [new [] w3|new w3|]; [| |done].
    + destruct Hm as (-> & Ht & Ha). unfold destroy_and_swap. rewrite ?Hs, ?Hb.
      rewrite (destroy_n_live_at l []) by done.
      rewrite decide_True by (simpl; lia).
      rewrite transfers_Deallocate, alloc_requests_Deallocate,
        transfers_destroys, alloc_requests_destroys.
      cbn [data_ size_]. rewrite ?Hs, vector_of_snoc by done. done.
    + destruct Hm as (k & Hk & -> & Ht & Ha & Hnt).
      destruct (destroy_n_total (length l)
                  ([] ++ replicate k None ++ drop k (replicate (length l) None) ++
                   Some (construct_from args) :: replicate (c - S (length l)) None) 0 w3)
        as (nb2 & w4 & -> & _ & Ht' & Ha'); [len|].
      rewrite transfers_Deallocate, alloc_requests_Deallocate, Ht', Ha'.
      split_and!; try done. exists (S k). split; [lia|done].
Qed.

Lemma destroy_n_live_eq b l (d1 d3 : list (option T)) first n w :
  b = d1 ++ (Some <$> l) ++ d3 -> first = length d1 -> n = length l ->
  destroy_n b first n w = Some (d1 ++ replicate n None ++ d3, (Destroy <$> reverse l) ++ w).
Proof. intros -> -> ->. apply destroy_n_live. Qed.

Lemma vector_of_insert l x pos c :
  pos <= length l -> S (length l) <= c ->
  {| data_ := {| buffer_ := ((Some <$> take pos l) ++ [Some x]) ++ (Some <$> drop pos l) ++
                            replicate (c - S (length l)) None;
                 capacity_ := c |};
     size_ := S (length l) |} = vector_of (take pos l ++ x :: drop pos l) c.
Proof.
  intros. unfold vector_of.
  assert (length (take pos l ++ x :: drop pos l) = S (length l)) as -> by len.
  rewrite fmap_app, fmap_cons, <- !app_assoc. done.
Qed.

Lemma Emplace_grow_spec v l pos args w :
  holds v l -> size_ v = capacity_ (data_ v) -> pos <= length l ->
  match Emplace pos args v w with
  | Normal v' i w' =>
      v' = vector_of (take pos l ++ construct_from args :: drop pos l)
             (Nat.max 1 (capacity_ (data_ v) * 2)) /\
      i = pos /\
      transfers w' = replicate (length l) move_if_noexcept ++ transfers w /\
      alloc_requests w' = Nat.max 1 (capacity_ (data_ v) * 2) :: alloc_requests w
  | Throws v' w' =>
      (move_if_noexcept = false -> v' = v) /\
      (exists k, k <= length l /\ transfers w' = replicate k move_if_noexcept ++ transfers w) /\
      alloc_requests w' = Nat.max 1 (capacity_ (data_ v) * 2) :: alloc_requests w /\
      ~ never_throws
  | Fault => False
  end.
Proof.
  intros Hv Hfull Hpos. destruct (holds_buffer v l Hv) as (Hb & Hs & Hl).
  unfold Emplace, Capacity.
  rewrite (growth_capacity_max (size_ v) (capacity_ (data_ v)) Hfull).
  rewrite decide_True by lia.
  destruct (Nat.ltb_spec (size_ v) (capacity_ (data_ v))) as [|_]; [lia|].
  set (c := Nat.max 1 (capacity_ (data_ v) * 2)).
  set (x := construct_from args).
  set (raw := replicate (capacity_ (data_ v) - length l) None) in Hb.
  assert (S (length l) <= c) as Hc by lia.
  pose proof (RawMemory_new_spec c w) as Hr.
  destruct (RawMemory_new c w) as [[new_data|] w1].
  2:{ destruct Hr as [-> Hnt]; [lia|]. split_and!; try done. exists 0. split; [lia|done]. }
  destruct Hr as [-> ->]; [lia|]. cbn [buffer_ capacity_].
  pose proof (construct_spec (replicate c None) pos (AConstruct args) x
                (Try (AAlloc c) true :: w)) as Hn.
  destruct (construct _ _ _ _ _) as [nb [] w2|nb w2|].
  3:{ apply Hn. len. }
  2:{ destruct Hn as (-> & -> & Hnt); [len|].
      destruct (destroy_n_total 1 (replicate c None) pos (Try (AConstruct args) false :: Try (AAlloc c) true :: w))
        as (nb1 & w3 & -> & _ & Ht' & Ha'); [len|].
      rewrite alloc_requests_Deallocate, transfers_Deallocate, Ht', Ha'.
      split_and!; try done. exists 0. split; [lia|done]. }
  destruct Hn as [-> ->]; [len|]. rewrite insert_raw by lia.
  rewrite Hs.
  assert (buffer_ (data_ v) = [] ++ (Some <$> take pos l) ++ (Some <$> drop pos l) ++ raw) as Hsrc1.
  { rewrite Hb. simpl. by rewrite app_assoc, <- fmap_app, take_drop. }
  assert (replicate (c - S pos) None
          = replicate (length l - pos) (@None T) ++ replicate (c - S (length l)) None) as Hraw.
  { rewrite <- replicate_add. f_equal. lia. }
  destruct move_if_noexcept.
  - lazymatch goal with
    | |- context [uninitialized_move_n ?src ?f ?n ?dst ?d ?w0] =>
        opose proof* (uninitialized_move_n_at (take pos l) [] ((Some <$> drop pos l) ++ raw)
                        [] (replicate pos None) (Some x :: replicate (c - S pos) None)
                        src f n dst d w0) as Hm
    end; [done|done|len|done|done|len|].
    destruct (uninitialized_move_n _ _ _ _ _ _) as [[old1 nb1] [] w3|[old1 nb1] w3|]; [| |done].
    + destruct Hm as (-> & -> & Ht & Ha).
      lazymatch goal with
      | |- context [uninitialized_move_n ?src ?f ?n ?dst ?d ?w0] =>
          opose proof* (uninitialized_move_n_at (drop pos l)
                          (Some <$> (moved_from <$> take pos l)) raw
                          ((Some <$> take pos l) ++ [Some x])
                          (replicate (length l - pos) None) (replicate (c - S (length l)) None)
                          src f n dst d w0) as Hm
      end; [done|len|len| |len|len|].
      { simpl. rewrite Hraw, <- app_assoc. done. }
      destruct (uninitialized_move_n _ _ _ _ _ _) as [[old2 nb2] [] w4|[old2 nb2] w4|]; [| |done].
      * destruct Hm as (-> & -> & Ht2 & Ha2). unfold destroy_and_swap. rewrite ?Hs.
        rewrite (destroy_n_live_eq _ (moved_from <$> l) [] raw); [| |done|len].
        2:{ simpl. rewrite app_assoc, <- !fmap_app, take_drop. done. }
        rewrite transfers_Deallocate, alloc_requests_Deallocate,
          transfers_destroys, alloc_requests_destroys.
        cbn [data_ size_]. rewrite ?Hs, vector_of_insert by done.
        split_and!; try done; [|by rewrite Ha2, Ha].
        rewrite Ht2, Ht. len. simpl. rewrite app_assoc, <- replicate_add. do 2 f_equal. lia.
      * destruct Hm as (k & Hk & -> & -> & Ht2 & Ha2 & Hnt).
        rewrite transfers_Deallocate, alloc_requests_Deallocate.
        split_and!; try done.
        -- exists (S k + pos). split; [len|]. rewrite Ht2, Ht. len.
           simpl. rewrite Nat.min_l by lia. by rewrite app_assoc, <- replicate_add.
        -- by rewrite Ha2, Ha.
    + destruct Hm as (k & Hk & -> & -> & Ht & Ha & Hnt).
      rewrite transfers_Deallocate, alloc_requests_Deallocate.
      split_and!; try done. exists (S k). split; [len|done].
  - match goal with
    | |- context [uninitialized_copy_n ?src ?f ?n ?dst ?d ?w0] =>
        opose proof* (uninitialized_copy_n_at (take pos l) [] ((Some <$> drop pos l) ++ raw)
                        [] (replicate pos None) (Some x :: replicate (c - S pos) None)
                        src f n dst d w0) as Hm
    end; [done|done|len|done|done|len|].
    destruct (uninitialized_copy_n _ _ _ _ _ _) as [nb1 [] w3|nb1 w3|]; [| |done].
    + destruct Hm as (-> & Ht & Ha).
      match goal with
      | |- context [uninitialized_copy_n ?src ?f ?n ?dst ?d ?w0] =>
          opose proof* (uninitialized_copy_n_at (drop pos l) (Some <$> take pos l) raw
                          ((Some <$> take pos l) ++ [Some x])
                          (replicate (length l - pos) None) (replicate (c - S (length l)) None)
                          src f n dst d w0) as Hm
      end; [done|len|len| |len|len|].
      { simpl. rewrite Hraw, <- app_assoc. done. }
      destruct (uninitialized_copy_n _ _ _ _ _ _) as [nb2 [] w4|nb2 w4|]; [| |done].
      * destruct Hm as (-> & Ht2 & Ha2). unfold destroy_and_swap. rewrite ?Hs.
        rewrite (destroy_n_live_eq _ l [] raw); [|done..].
        rewrite transfers_Deallocate, alloc_requests_Deallocate,
          transfers_destroys, alloc_requests_destroys.
        cbn [data_ size_]. rewrite ?Hs, vector_of_insert by done.
        split_and!; try done; [|by rewrite Ha2, Ha].
        rewrite Ht2, Ht. len. simpl. rewrite app_assoc, <- replicate_add. do 2 f_equal. lia.
      * destruct Hm as (k & Hk & -> & Ht2 & Ha2 & Hnt).
        match goal with
        | |- context [destroy_n ?b 0 ?n ?w0] =>
            destruct (destroy_n_total n b 0 w0) as (nb3 & w5 & -> & _ & Ht' & Ha'); [len|]
        end.
        rewrite transfers_Deallocate, alloc_requests_Deallocate, Ht', Ha'.
        split_and!; try done.
        -- exists (S k + pos). split; [len|]. rewrite Ht2, Ht. len.
           simpl. rewrite Nat.min_l by lia. by rewrite app_assoc, <- replicate_add.
        -- by rewrite Ha2, Ha.
    + destruct Hm as (k & Hk & -> & Ht & Ha & Hnt).
      match goal with
      | |- context [destroy_n ?b 0 ?n ?w0] =>
          destruct (destroy_n_total n b 0 w0) as (nb3 & w5 & -> & _ & Ht' & Ha'); [len|]
      end.
      rewrite transfers_Deallocate, alloc_requests_Deallocate, Ht', Ha'.
      split_and!; try done. exists (S k). split; [len|done].
Qed.

(** *** Insertion with spare capacity, erasure, resizing *)

Lemma attempt_ok a w : never_throws -> attempt a w = (true, Try a true :: w).
Proof. intros Hn. unfold attempt. by rewrite Hn. Qed.

Lemma vector_of_snoc_spare l x c :
  length l < c ->
  {| data_ := {| buffer_ := <[length l := Some x]>
                              ([] ++ (Some <$> l) ++ replicate (c - length l) None);
                 capacity_ := c |};
     size_ := S (length l) |} = vector_of (l ++ [x]) c.
Proof.
  intros. unfold vector_of. destruct (c - length l) as [|k] eqn:Hk; [lia|].
  cbn [replicate app].
  rewrite <- (length_fmap Some l) at 1. rewrite insert_middle.
  rewrite fmap_app, length_app, <- app_assoc. simpl.
  replace (c - (length l + 1)) with k by lia. by rewrite Nat.add_1_r.
Qed.

Lemma Emplace_spare_spec v l pos args w :
  never_throws -> holds v l -> size_ v < capacity_ (data_ v) -> pos <= length l ->
  exists w',
    Emplace pos args v w
    = Normal (vector_of (take pos l ++ construct_from args :: drop pos l) (capacity_ (data_ v)))
             pos w'.
Proof.
  intros Hnt Hv Hspare Hpos. destruct (holds_buffer v l Hv) as (Hb & Hs & Hl).
  unfold Emplace, Capacity. rewrite decide_True by lia.
  destruct (Nat.ltb_spec (size_ v) (capacity_ (data_ v))) as [_|]; [|lia].
  set (x := construct_from args).
  destruct (Nat.eqb_spec pos (size_ v)) as [Hend|Hin].
  - unfold construct. rewrite decide_True by (rewrite Hb; len).
    rewrite attempt_ok by done. eexists. unfold with_buffer. cbn [data_ size_ buffer_ capacity_].
    rewrite Hb, Hs, vector_of_snoc_spare by lia.
    rewrite Hend, Hs, take_ge, drop_ge by lia. done.
  - destruct (Nat.eqb_spec (size_ v) 0) as [|_]; [lia|].
    rewrite attempt_ok by done.
    destruct l as [|z l0 _] using rev_ind; [simpl in *; lia|].
    rewrite length_app in *. cbn [length] in *.
    destruct (capacity_ (data_ v) - (length l0 + 1)) as [|k] eqn:Hk; [lia|].
    cbn [replicate] in Hb. rewrite fmap_app in Hb. cbn [fmap list_fmap] in Hb.
    assert (buffer_ (data_ v) = (Some <$> l0) ++ Some z :: None :: replicate k None) as Hb1.
    { rewrite Hb. simpl. by rewrite <- app_assoc. }
    unfold move_construct_within. rewrite Hs, Hb1.
    replace (length l0 + 1 - 1) with (length (Some <$> l0)) by len.
    rewrite list_lookup_middle by done.
    unfold construct. rewrite decide_True by len. rewrite attempt_ok by done.
    replace (length l0 + 1) with (S (length (Some <$> l0))) by len.
    rewrite insert_middle_next, insert_middle.
    pose proof (std_move_backward_loop_spec (drop pos l0) (Some <$> take pos l0)
                  (Some z :: replicate k None) (moved_from z)
                  (Try (AMoveCtor z) true :: Try (AConstruct args) true :: w)) as Hm.
    assert (pos <= length l0) by lia.
    unfold std_move_backward.
    replace (length (Some <$> take pos l0)) with pos in Hm by len.
    replace (length (drop pos l0)) with (length (Some <$> l0) - pos) in Hm by len.
    replace (S (pos + (length (Some <$> l0) - pos))) with (S (length (Some <$> l0))) in Hm by len.
    rewrite app_assoc, <- fmap_app, take_drop in Hm.
    destruct (std_move_backward_loop _ _ _ _ _) as [b2 [] w3|b2 w3|]; [|by destruct Hm|done].
    destruct Hm as [r ->].
    rewrite list_lookup_middle by len.
    rewrite attempt_ok by done. rewrite insert_middle_at by len.
    eexists. unfold with_buffer. cbn [data_ size_ buffer_ capacity_].
    f_equal. unfold vector_of. rewrite take_app_le, drop_app_le by done.
    rewrite Hs. f_equal; [|len].
    f_equal. rewrite !fmap_app, fmap_cons, !fmap_app, <- !app_assoc. simpl.
    replace (capacity_ (data_ v) - length (take pos l0 ++ x :: drop pos l0 ++ [z])) with k
      by len.
    by rewrite <- app_assoc.
Qed.

Lemma std_move_at l (d1 d3 : list (option T)) y b first last d_first w :
  b = d1 ++ Some y :: (Some <$> l) ++ d3 -> d_first = length d1 -> first = S d_first ->
  last - first = length l ->
  match std_move b first last d_first w with
  | Normal b' _ _ => exists r, b' = d1 ++ (Some <$> l) ++ Some r :: d3
  | Throws b' _ => length b' = length b /\ ~ never_throws
  | Fault => False
  end.
Proof. intros -> -> -> Hn. unfold std_move. rewrite Hn. apply std_move_loop_spec. Qed.

Lemma Erase_spec v l pos w :
  holds v l -> pos < length l ->
  match Erase pos v w with
  | Normal v' i _ =>
      v' = vector_of (take pos l ++ drop (S pos) l) (capacity_ (data_ v)) /\ i = pos
  | Throws _ _ => ~ never_throws
  | Fault => False
  end.
Proof.
  intros Hv Hpos. destruct (holds_buffer v l Hv) as (Hb & Hs & Hl).
  unfold Erase. rewrite decide_True by lia.
  destruct (lookup_lt_is_Some_2 l pos Hpos) as [y Hy].
  set (raw := replicate (capacity_ (data_ v) - length l) None) in Hb.
  opose proof* (std_move_at (drop (S pos) l) (Some <$> take pos l) raw y
                  (buffer_ (data_ v)) (pos + 1) (size_ v) pos w) as Hm; [|len|len|len|].
  { rewrite Hb. simpl. rewrite <- (take_drop_middle l pos y Hy) at 1.
    rewrite fmap_app, fmap_cons, <- app_assoc. done. }
  destruct (std_move _ _ _ _ _) as [b' [] w1|b' w1|]; [|by destruct Hm|done].
  destruct Hm as [r ->]. unfold PopBack, with_buffer. cbn [data_ size_ buffer_ capacity_].
  destruct (Nat.eqb_spec (size_ v) 0) as [|_]; [lia|].
  rewrite (destroy_n_live_eq _ [r] ((Some <$> take pos l) ++ (Some <$> drop (S pos) l)) raw);
    [|by rewrite <- app_assoc|len|done].
  split; [|done]. unfold vector_of. f_equal; [|len].
  f_equal. rewrite fmap_app, <- !app_assoc. do 2 f_equal. simpl.
  change (None :: raw) with (replicate (S (capacity_ (data_ v) - length l)) (@None T)).
  f_equal. len.
Qed.

Lemma uninitialized_value_construct_n_at (d1 d2 d3 : list (option T)) b first n w :
  b = d1 ++ d2 ++ d3 -> first = length d1 -> n = length d2 ->
  match uninitialized_value_construct_n b first n w with
  | Normal b' _ w' =>
      b' = d1 ++ replicate (length d2) (Some value_init) ++ d3 /\
      transfers w' = transfers w /\ alloc_requests w' = alloc_requests w
  | Throws b' w' =>
      exists k, k < length d2 /\ b' = d1 ++ replicate k None ++ drop k d2 ++ d3 /\
        transfers w' = transfers w /\ alloc_requests w' = alloc_requests w /\ ~ never_throws
  | Fault => False
  end.
Proof. intros -> -> ->. apply uninitialized_value_construct_n_spec. Qed.

Lemma Resize_shrink_spec v l n w :
  holds v l -> n < length l ->
  Resize n v w
  = Normal (vector_of (take n l) (capacity_ (data_ v))) tt ((Destroy <$> reverse (drop n l)) ++ w).
Proof.
  intros Hv Hn. destruct (holds_buffer v l Hv) as (Hb & Hs & Hl).
  unfold Resize. destruct (Nat.ltb_spec n (size_ v)) as [_|]; [|lia].
  rewrite (destroy_n_live_eq _ (drop n l) (Some <$> take n l)
             (replicate (capacity_ (data_ v) - length l) None)); [| |len|len].
  2:{ rewrite Hb. simpl. by rewrite app_assoc, <- fmap_app, take_drop. }
  f_equal. unfold vector_of. f_equal; [|len]. f_equal.
  rewrite <- replicate_add. do 2 f_equal. len.
Qed.

Lemma Reserve_spec v l n w :
  holds v l ->
  match Reserve n v w with
  | Normal v' _ _ => v' = vector_of l (Nat.max (capacity_ (data_ v)) n)
  | Throws _ _ => ~ never_throws
  | Fault => False
  end.
Proof.
  intros Hv. destruct (decide (n <= capacity_ (data_ v))) as [Hle|Hgt].
  - unfold Reserve. destruct (Nat.leb_spec n (capacity_ (data_ v))) as [_|]; [|lia].
    rewrite Nat.max_l by done. apply Hv.
  - pose proof (Reserve_grow_spec v l n w Hv) as H. rewrite Nat.max_r by lia.
    destruct (Reserve n v w); [| |apply H; lia].
    + apply H. lia.
    + apply H. lia.
Qed.

Lemma Resize_grow_spec v l n w :
  holds v l -> length l <= n ->
  match Resize n v w with
  | Normal v' _ _ =>
      v' = vector_of (l ++ replicate (n - length l) value_init) (Nat.max (capacity_ (data_ v)) n)
  | Throws _ _ => ~ never_throws
  | Fault => False
  end.
Proof.
  intros Hv Hn. destruct (holds_buffer v l Hv) as (Hb & Hs & Hl).
  unfold Resize. destruct (Nat.ltb_spec n (size_ v)) as [|_]; [lia|].
  pose proof (Reserve_spec v l n w Hv) as Hr.
  destruct (Reserve n v w) as [v1 [] w1|v1 w1|]; [|done|done].
  subst v1. cbn [vector_of data_ size_ buffer_ capacity_].
  set (c := Nat.max (capacity_ (data_ v)) n).
  opose proof* (uninitialized_value_construct_n_at (Some <$> l) (replicate (n - length l) None)
                  (replicate (c - n) None)
                  ((Some <$> l) ++ replicate (c - length l) None) (length l) (n - length l) w1)
    as Hm; [|len|len|].
  { rewrite <- replicate_add. do 2 f_equal. lia. }
  destruct (uninitialized_value_construct_n _ _ _ _) as [b [] w2|b w2|]; [|by destruct Hm as (?&?&?&?&?&?)|done].
  destruct Hm as (-> & _ & _). unfold vector_of. f_equal; [|len]. f_equal.
  rewrite fmap_app, fmap_replicate, <- app_assoc. do 3 f_equal; len.
Qed.

(** *** The handler around the new element of a growing Emplace *)

Lemma destroy_at_raw n (i : nat) w :
  i < n -> destroy_at (replicate n (@None T)) i w = Some (replicate n None, DestroyDead :: w).
Proof. intros Hi. unfold destroy_at. by rewrite lookup_replicate_2. Qed.

Lemma omap_id_raw n : omap id (replicate n (@None T)) = [].
Proof. induction n; simpl; done. Qed.

(** The handler of the growing [Emplace] on any full vector: when the
    allocation succeeds and the constructor of the new element throws, one
    destructor call is made on the raw slot [pos] of the new block before the
    block is released and the exception goes on. *)
Lemma growing_Emplace_construct_failure (v : Vector T) l pos args w :
  holds v l -> size_ v = Capacity v -> pos <= size_ v ->
  throws w (AAlloc (Nat.max 1 (Capacity v * 2))) = false ->
  throws (Try (AAlloc (Nat.max 1 (Capacity v * 2))) true :: w) (AConstruct args) = true ->
  Emplace pos args v w
  = Throws v (Free [] :: DestroyDead :: Try (AConstruct args) false
              :: Try (AAlloc (Nat.max 1 (Capacity v * 2))) true :: w).
Proof.
  intros Hv Hfull Hpos Halloc Hctor. destruct (holds_buffer v l Hv) as (_ & Hs & Hl).
  unfold Emplace. rewrite decide_True by done.
  rewrite (growth_capacity_max (size_ v) (Capacity v) Hfull).
  destruct (Nat.ltb_spec (size_ v) (Capacity v)) as [|_]; [lia|].
  set (c := Nat.max 1 (Capacity v * 2)) in *.
  assert (pos < c) by (unfold Capacity in *; lia).
  unfold RawMemory_new, Allocate. destruct (Nat.eqb_spec c 0) as [|_]; [lia|].
  unfold attempt at 1. rewrite Halloc. cbn [negb buffer_ capacity_].
  unfold construct. rewrite decide_True by (by rewrite length_replicate).
  unfold attempt. rewrite Hctor. cbn [negb destroy_n].
  rewrite destroy_at_raw by done.
  destruct c as [|c']; [lia|]. cbn [replicate Deallocate].
  change (None :: replicate c' None) with (replicate (S c') (@None T)).
  by rewrite omap_id_raw.
Qed.
(** *** The size never exceeds the capacity *)

Lemma RawMemory_new_capacity n (w w' : list (Event T Args)) r :
  RawMemory_new n w = (Some r, w') -> capacity_ r = n.
Proof.
  unfold RawMemory_new. destruct (Allocate n w) as [[b|] w1]; intros; by simplify_eq.
Qed.

Ltac arith_facts :=
  repeat match goal with
    | H : RawMemory_new _ _ = (Some _, _) |- _ => apply RawMemory_new_capacity in H
    | H : (_ =? _) = true |- _ => apply Nat.eqb_eq in H
    | H : (_ =? _) = false |- _ => apply Nat.eqb_neq in H
    | H : (_ <? _) = true |- _ => apply Nat.ltb_lt in H
    | H : (_ <? _) = false |- _ => apply Nat.ltb_ge in H
    | H : (_ <=? _) = true |- _ => apply Nat.leb_le in H
    | H : (_ <=? _) = false |- _ => apply Nat.leb_gt in H
    end.

Ltac by_cases := repeat case_match; simplify_eq; arith_facts; cbn in *; try lia.

Lemma Reserve_post n v w :
  size_le_capacity v ->
  match Reserve n v w with
  | Normal v' _ _ => size_ v' = size_ v /\ n <= capacity_ (data_ v') /\ size_le_capacity v'
  | Throws v' _ => size_le_capacity v'
  | Fault => True
  end.
Proof. unfold size_le_capacity, Reserve, with_buffer. intros. by_cases. Qed.

Lemma Resize_inv n v w :
  size_le_capacity v -> post size_le_capacity (Resize n v w).
Proof.
  intros Hv. unfold post, Resize. pose proof (Reserve_post n v w Hv) as Hr.
  unfold size_le_capacity, with_buffer in *. by_cases.
Qed.

Lemma EmplaceBack_inv args v w :
  size_le_capacity v -> post size_le_capacity (EmplaceBack args v w).
Proof.
  unfold post, size_le_capacity, EmplaceBack, destroy_and_swap, Capacity, with_buffer.
  intros. by_cases.
Qed.

Lemma Emplace_inv pos args v w :
  size_le_capacity v -> post size_le_capacity (Emplace pos args v w).
Proof.
  unfold post, size_le_capacity, Emplace, destroy_and_swap, Capacity, with_buffer.
  intros. by_cases.
Qed.

Lemma Erase_inv pos v w :
  size_le_capacity v -> post size_le_capacity (Erase pos v w).
Proof.
  unfold post, size_le_capacity, Erase, PopBack, with_buffer.
  intros. by_cases.
Qed.

Lemma PushBack_inv args v w :
  size_le_capacity v -> post size_le_capacity (PushBack args v w).
Proof.
  intros Hv. pose proof (EmplaceBack_inv args v w Hv) as H.
  unfold PushBack. by destruct (EmplaceBack args v w).
Qed.

Lemma PopBack_inv v (w w' : list (Event T Args)) v' :
  size_le_capacity v -> PopBack v w = Some (v', w') -> size_le_capacity v'.
Proof. unfold size_le_capacity, PopBack. intros. by_cases. Qed.

Lemma Vector_sized_inv n (w : list (Event T Args)) :
  match Vector_sized n w with
  | Normal _ v _ => size_le_capacity v
  | _ => True
  end.
Proof. unfold size_le_capacity, Vector_sized. by_cases. Qed.

Lemma Vector_copy_inv (o : Vector T) (w : list (Event T Args)) :
  match Vector_copy o w with
  | Normal _ v _ => size_ v = size_ o /\ capacity_ (data_ v) = size_ o
  | _ => True
  end.
Proof. unfold Vector_copy. by_cases. Qed.

Lemma CopyAssign_post (o v : Vector T) (w : list (Event T Args)) :
  match CopyAssign o v w with
  | Normal v' _ _ => size_ v' = size_ v /\ capacity_ (data_ v') = capacity_ (data_ v)
  | Throws v' _ => size_ v' = size_ v /\ capacity_ (data_ v') = capacity_ (data_ v)
  | Fault => True
  end.
Proof. unfold CopyAssign, with_buffer. by_cases. Qed.

Lemma on_object_inv {A} a (method : Vector T -> list (Event T Args) -> result _ (Vector T) A) st w :
  (forall v w, size_le_capacity v -> post size_le_capacity (method v w)) ->
  map_Forall (fun _ => size_le_capacity) st ->
  store_post (map_Forall (fun _ => size_le_capacity)) (on_object a method st w).
Proof.
  intros Hm Hst. unfold on_object, store_post.
  destruct (st !! a) as [v|] eqn:Hv; [|done].
  specialize (Hm v w (Hst a v Hv)). unfold post in Hm.
  destruct (method v w); [| |done]; by apply map_Forall_insert_2.
Qed.

Lemma Swap_inv this other (st st' : gmap nat (Vector T)) :
  map_Forall (fun _ => size_le_capacity) st -> Swap this other st = Some st' ->
  map_Forall (fun _ => size_le_capacity) st'.
Proof.
  intros Hst. unfold Swap.
  destruct (st !! this) as [v|] eqn:Hv; [|done].
  destruct (st !! other) as [o|] eqn:Ho; [|done].
  intros [= <-]. pose proof (Hst _ _ Hv). pose proof (Hst _ _ Ho).
  repeat apply map_Forall_insert_2; done.
Qed.

Lemma copy_assign_inv this other st w :
  map_Forall (fun _ => size_le_capacity) st ->
  store_post (map_Forall (fun _ => size_le_capacity)) (copy_assign this other st w).
Proof.
  intros Hst. unfold copy_assign, store_post.
  destruct (st !! this) as [v|] eqn:Hv; [|done].
  destruct (st !! other) as [o|] eqn:Ho; [|done].
  pose proof (Hst _ _ Hv) as Hiv. pose proof (Hst _ _ Ho) as Hio.
  destruct (decide (this <> other)) as [Hne|Heq].
  - destruct (Nat.ltb_spec (capacity_ (data_ v)) (size_ o)).
    + pose proof (Vector_copy_inv o w) as Hc.
      destruct (Vector_copy o w) as [[] copy_other w1|[] w1|]; [|done|done].
      cbn [Vector_Swap RawMemory_Swap]. destruct (Vector_dtor _ _); [|done].
      apply map_Forall_insert_2; [|done]. unfold size_le_capacity. simpl. lia.
    + pose proof (CopyAssign_post o v w) as Ha.
      destruct (CopyAssign o v w) as [v1 [] w1|v1 w1|]; [| |done].
      * apply map_Forall_insert_2; [|done]. unfold size_le_capacity. simpl. lia.
      * apply map_Forall_insert_2; [|done]. unfold size_le_capacity in *. lia.
  - apply dec_stable in Heq. simplify_eq.
    apply map_Forall_insert_2; [|done]. done.
Qed.

Lemma run_call_inv c st w :
  map_Forall (fun _ => size_le_capacity) st ->
  store_post (map_Forall (fun _ => size_le_capacity)) (run_call c st w).
Proof.
  intros Hst. destruct c; cbn [run_call].
  - destruct (st !! a); [done|]. simpl. apply map_Forall_insert_2; [|done].
    unfold size_le_capacity. simpl. lia.
  - destruct (st !! a); [done|]. pose proof (Vector_sized_inv size w) as Hs.
    destruct (Vector_sized size w); simpl; try done. by apply map_Forall_insert_2.
  - destruct (st !! a); [done|]. destruct (st !! other) as [o|]; [|done].
    pose proof (Vector_copy_inv o w) as Hs.
    destruct (Vector_copy o w); simpl; try done. apply map_Forall_insert_2; [|done].
    unfold size_le_capacity. lia.
  - unfold move_construct, no_throw. destruct (st !! a) eqn:Ha; [done|].
    destruct (Swap _ _ _) as [st'|] eqn:Hsw; [|done]. simpl.
    eapply Swap_inv; [|done]. apply map_Forall_insert_2; [|done].
    unfold size_le_capacity. simpl. lia.
  - destruct (st !! a); [|done]. destruct (Vector_dtor _ _); [|done]. simpl.
    by apply map_Forall_delete.
  - by apply copy_assign_inv.
  - unfold move_assign, no_throw. destruct (st !! a); [|done]. destruct (st !! other); [|done].
    case_decide; [|done]. destruct (Swap _ _ _) as [st'|] eqn:Hsw; [|done]. simpl.
    by eapply Swap_inv.
  - apply on_object_inv; [|done]. intros v' w' Hv'.
    pose proof (Reserve_post new_capacity v' w' Hv') as H. unfold post.
    destruct (Reserve _ _ _); try done. apply H.
  - apply on_object_inv; [|done]. intros. by apply Resize_inv.
  - apply on_object_inv; [|done]. intros. by apply PushBack_inv.
  - opose proof* (on_object_inv a (EmplaceBack args) st w) as H; [|done|].
    { intros. by apply EmplaceBack_inv. }
    by destruct (on_object _ _ _ _).
  - destruct (st !! a) as [v|] eqn:Hv; [|done].
    destruct (PopBack v w) as [[v' w']|] eqn:Hp; [|done]. simpl.
    apply map_Forall_insert_2; [|done]. eapply PopBack_inv; [|done]. by eapply Hst.
  - opose proof* (on_object_inv a (Emplace pos args) st w) as H; [|done|].
    { intros. by apply Emplace_inv. }
    by destruct (on_object _ _ _ _).
  - opose proof* (on_object_inv a (Insert pos args) st w) as H; [|done|].
    { intros. by apply Emplace_inv. }
    by destruct (on_object _ _ _ _).
  - opose proof* (on_object_inv a (Erase pos) st w) as H; [|done|].
    { intros. by apply Erase_inv. }
    by destruct (on_object _ _ _ _).
  - unfold no_throw. destruct (Swap _ _ _) as [st'|] eqn:Hsw; [|done]. simpl.
    by eapply Swap_inv.
Qed.


(** *** The claims *)

Lemma elements_vector_of l c : elements (vector_of l c) = Some <$> l.
Proof.
  unfold elements, vector_of. cbn [size_ data_ buffer_].
  rewrite <- (length_fmap Some l). by rewrite take_app_length.
Qed.

Lemma holds_vector_of l c : length l <= c -> holds (vector_of l c) l.
Proof. intros. split; [done|]. simpl. lia. Qed.

Lemma Vector_Swap_eq (a b : Vector T) : Vector_Swap a b = (b, a).
Proof. by destruct a as [[] ?], b as [[] ?]. Qed.

(** *** Requests whose byte count does not wrap *)

Lemma slots_allocated_fits n : request_fits n -> slots_allocated n = n.
Proof.
  unfold request_fits, slots_allocated, byte_count. intros Hn.
  rewrite N.mod_small by (unfold SIZE_MAX in *; lia).
  rewrite N.div_mul by done. apply Nat2N.id.
Qed.

Lemma Allocate_size_t_fits n w : request_fits n -> Allocate_size_t n w = Allocate n w.
Proof. intros Hn. unfold Allocate_size_t, Allocate. by rewrite slots_allocated_fits. Qed.

Lemma RawMemory_new_size_t_fits n w :
  request_fits n -> RawMemory_new_size_t (T := T) n w = RawMemory_new n w.
Proof. intros Hn. unfold RawMemory_new_size_t, RawMemory_new. by rewrite Allocate_size_t_fits. Qed.

Lemma Vector_sized_size_t_fits size w :
  request_fits size -> Vector_sized_size_t size w = Vector_sized size w.
Proof. intros Hn. unfold Vector_sized_size_t, Vector_sized. by rewrite RawMemory_new_size_t_fits. Qed.

Lemma Reserve_size_t_fits n (v : Vector T) w :
  (capacity_ (data_ v) < n -> request_fits n) -> Reserve_size_t n v w = Reserve n v w.
Proof.
  intros Hn. unfold Reserve_size_t, Reserve.
  destruct (Nat.leb_spec n (capacity_ (data_ v))) as [|Hlt]; [done|].
  by rewrite RawMemory_new_size_t_fits by auto.
Qed.

Lemma Resize_size_t_fits n (v : Vector T) w :
  (capacity_ (data_ v) < n -> request_fits n) -> Resize_size_t n v w = Resize n v w.
Proof. intros Hn. unfold Resize_size_t, Resize. by rewrite Reserve_size_t_fits. Qed.

Lemma run_call_size_t_fits c (st : gmap nat (Vector T)) w :
  call_fits c -> run_call_size_t c st w = run_call c st w.
Proof.
  destruct c; try done; cbn [call_fits run_call_size_t run_call]; intros Hn.
  - by rewrite Vector_sized_size_t_fits.
  - unfold on_object. destruct (st !! a); [|done]. by rewrite Reserve_size_t_fits.
  - unfold on_object. destruct (st !! a); [|done]. by rewrite Resize_size_t_fits.
Qed.

Lemma reachable_size_t_reachable (st0 st : gmap nat (Vector T)) w0 w :
  reachable_size_t st0 w0 st w -> reachable st0 w0 st w.
Proof.
  induction 1 as [|c st w st' w' _ IH Hc Hr|c st w st' w' _ IH Hc Hr].
  - apply reach_start.
  - rewrite run_call_size_t_fits in Hr by done. by eapply reach_return.
  - rewrite run_call_size_t_fits in Hr by done. by eapply reach_throw.
Qed.

(** *** The kind of every transfer, whatever the blocks *)

Lemma replicate_app_cons {A} n (x : A) (xs : list A) :
  replicate n x ++ x :: xs = x :: replicate n x ++ xs.
Proof. induction n as [|n IH]; [done|]. simpl. by rewrite IH. Qed.

Lemma construct_history b i a x w :
  match construct b i a x w with
  | Normal _ _ w' => w' = Try a true :: w
  | Throws _ w' => w' = Try a false :: w /\ ~ never_throws
  | Fault => True
  end.
Proof.
  unfold construct. case_decide; [|done].
  destruct (attempt_spec a w) as (ok & -> & Hok). destruct ok; auto.
Qed.

Lemma copy_construct_loop_transfers n : forall src first dst cur w,
  match copy_construct_loop src first n dst cur w with
  | Normal _ _ w' => transfers w' = replicate n false ++ transfers w
  | Throws _ w' =>
      (exists k, k < n /\ transfers w' = replicate (S k) false ++ transfers w) /\ ~ never_throws
  | Fault => True
  end.
Proof.
  induction n as [|n IH]; intros; simpl; [done|].
  destruct (src !! first) as [[x|]|]; try done.
  pose proof (construct_history dst cur (ACopyCtor x) x w) as Hc.
  destruct (construct _ _ _ _ _) as [dst' [] w'|dst' w'|]; [| |done].
  - subst w'. specialize (IH src (S first) dst' (S cur) (Try (ACopyCtor x) true :: w)).
    destruct (copy_construct_loop _ _ _ _ _ _) as [? [] w''|? w''|]; [| |done].
    + rewrite IH. simpl. apply replicate_app_cons.
    + destruct IH as [(k & Hk & ->) Hnt]. split; [|done]. exists (S k). split; [lia|].
      simpl. f_equal. apply replicate_app_cons.
  - destruct Hc as [-> Hnt]. split; [|done]. exists 0. split; [lia|done].
Qed.

Lemma move_construct_loop_transfers n : forall src first dst cur w,
  match move_construct_loop src first n dst cur w with
  | Normal _ _ w' => transfers w' = replicate n true ++ transfers w
  | Throws _ w' =>
      (exists k, k < n /\ transfers w' = replicate (S k) true ++ transfers w) /\ ~ never_throws
  | Fault => True
  end.
Proof.
  induction n as [|n IH]; intros; simpl; [done|].
  destruct (src !! first) as [[x|]|]; try done.
  pose proof (construct_history dst cur (AMoveCtor x) x w) as Hc.
  destruct (construct _ _ _ _ _) as [dst' [] w'|dst' w'|]; [| |done].
  - subst w'.
    specialize (IH (<[first := Some (moved_from x)]> src) (S first) dst' (S cur)
                  (Try (AMoveCtor x) true :: w)).
    destruct (move_construct_loop _ _ _ _ _ _) as [? [] w''|? w''|]; [| |done].
    + rewrite IH. simpl. apply replicate_app_cons.
    + destruct IH as [(k & Hk & ->) Hnt]. split; [|done]. exists (S k). split; [lia|].
      simpl. f_equal. apply replicate_app_cons.
  - destruct Hc as [-> Hnt]. split; [|done]. exists 0. split; [lia|done].
Qed.

Lemma destroy_n_transfers n : forall b first w b' w',
  destroy_n b first n w = Some (b', w') -> transfers w' = transfers w.
Proof.
  induction n as [|n IH]; intros b first w b' w'; simpl; [by intros [= <- <-]|].
  unfold destroy_at. destruct (b !! first) as [[x|]|]; [| |done]; intros H.
  - by rewrite (IH _ _ _ _ _ H).
  - by rewrite (IH _ _ _ _ _ H).
Qed.

Lemma Reserve_size_t_transfers n (v : Vector T) w :
  capacity_ (data_ v) < n ->
  match Reserve_size_t n v w with
  | Normal _ _ w' => transfers w' = replicate (size_ v) move_if_noexcept ++ transfers w
  | Throws _ w' =>
      (exists k, k <= size_ v /\ transfers w' = replicate k move_if_noexcept ++ transfers w) /\
      ~ never_throws
  | Fault => True
  end.
Proof.
  intros Hn. unfold Reserve_size_t, RawMemory_new_size_t, Allocate_size_t.
  destruct (Nat.leb_spec n (capacity_ (data_ v))) as [|_]; [lia|].
  destruct (Nat.eqb_spec n 0) as [|_]; [lia|].
  destruct (attempt_spec (AAlloc n) w) as (ok & -> & Hok).
  destruct ok.
  2:{ split; [|by apply Hok]. exists 0. split; [lia|done]. }
  cbn [buffer_ capacity_]. destruct move_if_noexcept.
  - unfold uninitialized_move_n.
    pose proof (move_construct_loop_transfers (size_ v) (buffer_ (data_ v)) 0
                  (replicate (slots_allocated n) None) 0 (Try (AAlloc n) true :: w)) as Hm.
    destruct (move_construct_loop _ _ _ _ _ _) as [[[old new] cur] [] w2|[[old new] cur] w2|];
      [| |done].
    + destruct (destroy_n old 0 (size_ v) w2) as [[old' w3]|] eqn:Hd; [|done].
      apply destroy_n_transfers in Hd. by rewrite transfers_Deallocate, Hd, Hm.
    + destruct (destroy_n new 0 (cur - 0) w2) as [[new' w3]|] eqn:Hd; [|done].
      apply destroy_n_transfers in Hd. destruct Hm as [(k & Hk & Hm) Hnt].
      split; [|done]. exists (S k). split; [lia|].
      by rewrite transfers_Deallocate, Hd, Hm.
  - unfold uninitialized_copy_n.
    pose proof (copy_construct_loop_transfers (size_ v) (buffer_ (data_ v)) 0
                  (replicate (slots_allocated n) None) 0 (Try (AAlloc n) true :: w)) as Hm.
    destruct (copy_construct_loop _ _ _ _ _ _) as [[new cur] [] w2|[new cur] w2|]; [| |done].
    + destruct (destroy_n (buffer_ (data_ v)) 0 (size_ v) w2) as [[old' w3]|] eqn:Hd; [|done].
      apply destroy_n_transfers in Hd. by rewrite transfers_Deallocate, Hd, Hm.
    + destruct (destroy_n new 0 (cur - 0) w2) as [[new' w3]|] eqn:Hd; [|done].
      apply destroy_n_transfers in Hd. destruct Hm as [(k & Hk & Hm) Hnt].
      split; [|done]. exists (S k). split; [lia|].
      by rewrite transfers_Deallocate, Hd, Hm.
Qed.


(** C2.  Move-if-noexcept.  In [Reserve], in a growing [EmplaceBack] and in a
    growing [Emplace], every construction that takes an element of the old
    block into the new one is a move construction exactly when
    [is_nothrow_move_constructible || !is_copy_constructible] holds, and a
    copy construction otherwise.  A call that returns has made one such
    construction per element; a call throws only if an operation of the
    element type or the allocation throws, and has then made at most that
    many.  None of the three faults on a well-formed vector, [Reserve] as
    long as the byte count of its request does not wrap: so, for an element
    type that does not throw, each of them returns after transferring every
    element in the way the traits select. *)
Theorem transfer_moves_iff_nothrow_move_or_no_copy (v : Vector T) l w :
  holds v l ->
  let moved := is_nothrow_move_constructible || negb is_copy_constructible in
  (forall new_capacity, capacity_ (data_ v) < new_capacity ->
     match Reserve_size_t new_capacity v w with
     | Normal _ _ w' => transfers w' = replicate (size_ v) moved ++ transfers w
     | Throws _ w' =>
         (exists k, k <= size_ v /\ transfers w' = replicate k moved ++ transfers w) /\
         ~ never_throws
     | Fault => ~ request_fits new_capacity
     end) /\
  (size_ v = Capacity v ->
   forall args,
     match EmplaceBack args v w with
     | Normal _ _ w' => transfers w' = replicate (size_ v) moved ++ transfers w
     | Throws _ w' =>
         (exists k, k <= size_ v /\ transfers w' = replicate k moved ++ transfers w) /\
         ~ never_throws
     | Fault => False
     end) /\
  (size_ v = Capacity v ->
   forall pos args, pos <= size_ v ->
     match Emplace pos args v w with
     | Normal _ _ w' => transfers w' = replicate (size_ v) moved ++ transfers w
     | Throws _ w' =>
         (exists k, k <= size_ v /\ transfers w' = replicate k moved ++ transfers w) /\
         ~ never_throws
     | Fault => False
     end).
Proof.
  intros Hv moved. pose proof (holds_buffer v l Hv) as (_ & Hs & _).
  change moved with move_if_noexcept. split_and!.
  - intros n Hn. pose proof (Reserve_size_t_transfers n v w Hn) as H.
    destruct (Reserve_size_t n v w) as [? ? ?|? ?|] eqn:Hr; [done|done|].
    intros Hfit. rewrite Reserve_size_t_fits in Hr by done.
    pose proof (Reserve_grow_spec v l n w Hv Hn) as Hg. by rewrite Hr in Hg.
  - intros Hfull args. pose proof (EmplaceBack_grow_spec v l args w Hv Hfull) as H.
    rewrite Hs. destruct (EmplaceBack args v w); [| |done]; [apply H|].
    destruct H as (_ & ? & _ & ?). done.
  - intros Hfull pos args Hpos.
    opose proof* (Emplace_grow_spec v l pos args w) as H; [done|done|lia|].
    rewrite Hs. destruct (Emplace pos args v w); [| |done]; [apply H|].
    destruct H as (_ & ? & _ & ?). done.
Qed.

(** C6.  Growth policy.  On a vector whose length equals its capacity,
    [EmplaceBack]/[PushBack] and [Emplace]/[Insert] request one new block, of
    [max(1, 2 * capacity)] elements, and when they return that is the
    capacity of the vector.  They never fault, and they throw only if an
    operation of the element type or the allocation throws: for an element
    type that does not throw, the vector ends with that capacity. *)
Theorem growth_allocates_max_1_twice_capacity (v : Vector T) l w :
  holds v l -> size_ v = Capacity v ->
  (forall args,
     match EmplaceBack args v w with
     | Normal v' _ w' =>
         Capacity v' = Nat.max 1 (Capacity v * 2) /\
         alloc_requests w' = Nat.max 1 (Capacity v * 2) :: alloc_requests w
     | Throws _ w' =>
         alloc_requests w' = Nat.max 1 (Capacity v * 2) :: alloc_requests w /\
         ~ never_throws
     | Fault => False
     end) /\
  (forall pos args, pos <= size_ v ->
     match Emplace pos args v w with
     | Normal v' _ w' =>
         Capacity v' = Nat.max 1 (Capacity v * 2) /\
         alloc_requests w' = Nat.max 1 (Capacity v * 2) :: alloc_requests w
     | Throws _ w' =>
         alloc_requests w' = Nat.max 1 (Capacity v * 2) :: alloc_requests w /\
         ~ never_throws
     | Fault => False
     end).
Proof.
  intros Hv Hfull. pose proof (holds_buffer v l Hv) as (_ & Hs & _). unfold Capacity. split.
  - intros args. pose proof (EmplaceBack_grow_spec v l args w Hv Hfull) as H.
    destruct (EmplaceBack args v w); [| |done].
    + destruct H as (-> & _ & _ & Ha). done.
    + by destruct H as (_ & _ & ? & ?).
  - intros pos args Hpos.
    opose proof* (Emplace_grow_spec v l pos args w) as H; [done|done|lia|].
    destruct (Emplace pos args v w); [| |done].
    + destruct H as (-> & _ & _ & Ha). done.
    + by destruct H as (_ & _ & ? & ?).
Qed.

(** C7.  Size/capacity invariant.  Starting from objects that satisfy
    [0 <= size_ <= capacity_], after any sequence of calls (constructors,
    destruction, both assignments, [Reserve], [Resize], [PushBack],
    [EmplaceBack], [PopBack], [Emplace], [Insert], [Erase], [Swap]), each of
    which returned or threw, every vector object satisfies
    [0 <= size_ <= capacity_]. *)
Theorem size_within_capacity_after_every_call (st0 st : gmap nat (Vector T)) w0 w :
  map_Forall (fun _ => size_le_capacity) st0 ->
  reachable st0 w0 st w ->
  forall a v, st !! a = Some v -> 0 <= size_ v <= capacity_ (data_ v).
Proof.
  intros H0 Hr. assert (map_Forall (fun _ => size_le_capacity) st) as Hst.
  { induction Hr as [|c st w st' w' _ IH Hc|c st w st' w' _ IH Hc]; [done| |].
    - pose proof (run_call_inv c st w IH) as H. by rewrite Hc in H.
    - pose proof (run_call_inv c st w IH) as H. by rewrite Hc in H. }
  intros a v Hv. specialize (Hst a v Hv). unfold size_le_capacity in Hst. lia.
Qed.

(** Where no operation and no allocation throws, on a vector holding [l],
    [Insert] at a valid index [pos] returns [pos] and the vector then holds
    [l] with the new element at [pos]; [Erase] at [pos] on that vector
    returns [pos] and the vector holds [l] again. *)
Lemma insert_then_erase_restores_when_nothing_throws (v : Vector T) l pos args w :
  never_throws -> holds v l -> pos <= length l ->
  exists v1 w1 v2 w2,
    Insert pos args v w = Normal v1 pos w1 /\
    elements v1 = Some <$> (take pos l ++ construct_from args :: drop pos l) /\
    Erase pos v1 w1 = Normal v2 pos w2 /\
    elements v2 = Some <$> l.
Proof.
  intros Hnt Hv Hpos. pose proof (holds_buffer v l Hv) as (_ & Hs & Hl).
  set (l1 := take pos l ++ construct_from args :: drop pos l).
  assert (length l1 = S (length l)) as Hl1.
  { unfold l1. rewrite length_app, length_cons, length_take, length_drop. lia. }
  assert (take pos l1 ++ drop (S pos) l1 = l) as Hback.
  { unfold l1. rewrite take_app_length' by (rewrite length_take; lia).
    rewrite (cons_middle _ (take pos l)), app_assoc, drop_app_length'
      by (rewrite length_app, length_take; simpl; lia).
    apply take_drop. }
  assert (exists c w1, Insert pos args v w = Normal (vector_of l1 c) pos w1 /\ S (length l) <= c)
    as (c & w1 & Hins & Hc).
  { unfold Insert. destruct (decide (size_ v < capacity_ (data_ v))) as [Hspare|Hfull].
    - destruct (Emplace_spare_spec v l pos args w Hnt Hv Hspare Hpos) as [w1 Hw1].
      exists (capacity_ (data_ v)), w1. split; [done|lia].
    - opose proof* (Emplace_grow_spec v l pos args w) as H; [done|lia|done|].
      destruct (Emplace pos args v w) as [v1 i w1|v1 w1|]; [| |done].
      + destruct H as (-> & -> & _). eexists _, _. split; [done|lia].
      + by destruct H as (_ & _ & _ & ?). }
  opose proof* (Erase_spec (vector_of l1 c) l1 pos w1) as He; [apply holds_vector_of; lia|lia|].
  destruct (Erase pos (vector_of l1 c) w1) as [v2 i w2|v2 w2|] eqn:Her; [|done|done].
  destruct He as (Hv2 & ->). rewrite Hback in Hv2. cbn [vector_of data_ capacity_] in Hv2.
  exists (vector_of l1 c), w1, v2, w2. subst v2.
  by rewrite !elements_vector_of.
Qed.

(** C10.  Self copy-assignment.  [a = a] returns with every object of the
    program unchanged (same length, capacity and elements) and with the
    history unchanged: no element is copied, constructed or destroyed and
    nothing is allocated. *)
Theorem self_copy_assign_changes_nothing (st : gmap nat (Vector T)) (a : nat) v w :
  st !! a = Some v -> copy_assign a a st w = Normal st tt w.
Proof.
  intros Hv. unfold copy_assign. rewrite Hv. rewrite decide_False by (intros ?; done).
  f_equal. destruct v as [d s]. by apply insert_id.
Qed.

(** C3, as amended.  For distinct vectors [a] and [b], [b = std::move(a)]
    exchanges the contents of the two objects: [b] ends with the block and the
    length of [a], and [a] with those of [b]; move-construction from [a]
    gives the new object the block and the length of [a] and leaves [a] as a
    default-constructed, empty vector.  Neither runs an operation of the
    element type or allocates (they do not touch the history), and neither
    can throw. *)
Theorem move_exchanges_contents (st : gmap nat (Vector T)) (a b : nat) va vb :
  a <> b -> st !! a = Some va -> st !! b = Some vb ->
  move_assign b a st = Some (<[b := va]> (<[a := vb]> st)) /\
  (forall c, st !! c = None ->
     move_construct c a st = Some (<[c := va]> (<[a := Vector_default]> st))).
Proof.
  intros Hne Ha Hb. split.
  - unfold move_assign, Swap. rewrite Ha, Hb, decide_True by done.
    by rewrite Vector_Swap_eq.
  - intros c Hc. assert (c <> a) as Hca by (intros ->; congruence).
    unfold move_construct, Swap. rewrite Hc, lookup_insert_eq, lookup_insert_ne, Ha by done.
    rewrite Vector_Swap_eq. f_equal.
    rewrite (insert_insert_ne _ a c), insert_insert_eq by done. done.
Qed.

End Proofs.

(** ** The claims on concrete vectors *)

Lemma transfer_moves_iff_nothrow_move_or_no_copy_witness :
  holds (vector_of [1; 2; 3] 3) [1; 2; 3] /\
  (exists v' w', Reserve_size_t (E := ints) (Sz := sizeof_int) 6 (vector_of [1; 2; 3] 3) []
                 = Normal v' tt w' /\ transfers w' = [true; true; true]) /\
  (exists v' i w', EmplaceBack (E := ints) 9 (vector_of [1; 2; 3] 3) [] = Normal v' i w' /\
                   transfers w' = [true; true; true]) /\
  (exists v' i w', Emplace (E := ints) 1 9 (vector_of [1; 2; 3] 3) [] = Normal v' i w' /\
                   transfers w' = [true; true; true]) /\
  (exists v' w', Reserve_size_t (E := nat_element false true oracle_never) (Sz := sizeof_int) 6
                   (vector_of [1; 2; 3] 3) []
                 = Normal v' tt w' /\ transfers w' = [false; false; false]) /\
  (exists v' i w', EmplaceBack (E := nat_element false true oracle_never) 9
                     (vector_of [1; 2; 3] 3) [] = Normal v' i w' /\
                   transfers w' = [false; false; false]) /\
  (exists v' i w', Emplace (E := nat_element false true oracle_never) 1 9
                     (vector_of [1; 2; 3] 3) [] = Normal v' i w' /\
                   transfers w' = [false; false; false]).
Proof.
  assert (holds (vector_of [1; 2; 3] 3) [1; 2; 3]) as Hv by (split; [reflexivity | simpl; lia]).
  split; [exact Hv|].
  destruct (transfer_moves_iff_nothrow_move_or_no_copy (E := ints) (Sz := sizeof_int)
              (vector_of [1; 2; 3] 3) [1; 2; 3] [] Hv) as (HR & HB & HE).
  destruct (transfer_moves_iff_nothrow_move_or_no_copy
              (E := nat_element false true oracle_never) (Sz := sizeof_int)
              (vector_of [1; 2; 3] 3) [1; 2; 3] [] Hv) as (HR' & HB' & HE').
  specialize (HR 6 ltac:(simpl; lia)). specialize (HB eq_refl 9).
  specialize (HE eq_refl 1 9 ltac:(simpl; lia)).
  specialize (HR' 6 ltac:(simpl; lia)). specialize (HB' eq_refl 9).
  specialize (HE' eq_refl 1 9 ltac:(simpl; lia)).
  split_and!.
  - clear -HR.
    destruct (Reserve_size_t 6 (vector_of [1; 2; 3] 3) []) as [v' [] w'|? ?|] eqn:Hr;
      [by exists v', w' | vm_compute in Hr; discriminate | vm_compute in Hr; discriminate].
  - clear -HB.
    destruct (EmplaceBack 9 (vector_of [1; 2; 3] 3) []) as [v' i w'|? ?|] eqn:Hr;
      [by exists v', i, w' | vm_compute in Hr; discriminate | contradiction].
  - clear -HE.
    destruct (Emplace 1 9 (vector_of [1; 2; 3] 3) []) as [v' i w'|? ?|] eqn:Hr;
      [by exists v', i, w' | vm_compute in Hr; discriminate | contradiction].
  - clear -HR'.
    destruct (Reserve_size_t 6 (vector_of [1; 2; 3] 3) []) as [v' [] w'|? ?|] eqn:Hr;
      [by exists v', w' | vm_compute in Hr; discriminate | vm_compute in Hr; discriminate].
  - clear -HB'.
    destruct (EmplaceBack 9 (vector_of [1; 2; 3] 3) []) as [v' i w'|? ?|] eqn:Hr;
      [by exists v', i, w' | vm_compute in Hr; discriminate | contradiction].
  - clear -HE'.
    destruct (Emplace 1 9 (vector_of [1; 2; 3] 3) []) as [v' i w'|? ?|] eqn:Hr;
      [by exists v', i, w' | vm_compute in Hr; discriminate | contradiction].
Defined.

Lemma growth_allocates_max_1_twice_capacity_witness :
  holds (vector_of [1; 2; 3] 3) [1; 2; 3] /\
  size_ (vector_of [1; 2; 3] 3) = Capacity (vector_of [1; 2; 3] 3) /\
  (exists v' i w', EmplaceBack (E := ints) 9 (vector_of [1; 2; 3] 3) [] = Normal v' i w' /\
                   Capacity v' = 6 /\ alloc_requests w' = [6]) /\
  (exists v' i w', Emplace (E := ints) 1 9 (vector_of [1; 2; 3] 3) [] = Normal v' i w' /\
                   Capacity v' = 6 /\ alloc_requests w' = [6]).
Proof.
  assert (holds (vector_of [1; 2; 3] 3) [1; 2; 3]) as Hv by (split; [reflexivity | simpl; lia]).
  split; [exact Hv|]. split; [reflexivity|].
  destruct (growth_allocates_max_1_twice_capacity (E := ints)
              (vector_of [1; 2; 3] 3) [1; 2; 3] [] Hv eq_refl) as [HB HE].
  specialize (HB 9). specialize (HE 1 9 ltac:(simpl; lia)).
  split.
  - destruct (EmplaceBack 9 (vector_of [1; 2; 3] 3) []) as [v' i w'|? ?|] eqn:Hr;
      [by exists v', i, w' | vm_compute in Hr; discriminate | contradiction].
  - destruct (Emplace 1 9 (vector_of [1; 2; 3] 3) []) as [v' i w'|? ?|] eqn:Hr;
      [by exists v', i, w' | vm_compute in Hr; discriminate | contradiction].
Defined.

Lemma size_within_capacity_after_every_call_witness :
  map_Forall (fun _ => size_le_capacity) (∅ : gmap nat (Vector nat)) /\
  reachable (E := ints_copy_throws_1st) ∅ [] (<[0 := vector_of [5] 1]> ∅)
    [Free [6]; DestroyDead; Try (ACopyCtor 5) false; Try (AConstruct 6) true; Try (AAlloc 2) true;
     Try (AConstruct 5) true; Try (AAlloc 1) true] /\
  0 <= size_ (vector_of [5] 1) <= capacity_ (data_ (vector_of [5] 1)).
Proof.
  assert (reachable (E := ints_copy_throws_1st) ∅ [] (<[0 := vector_of [5] 1]> ∅)
            [Free [6]; DestroyDead; Try (ACopyCtor 5) false; Try (AConstruct 6) true; Try (AAlloc 2) true;
             Try (AConstruct 5) true; Try (AAlloc 1) true]) as Hr.
  { apply (reach_throw _ _ (CPushBack 0 6) (<[0 := vector_of [5] 1]> ∅)
             [Try (AConstruct 5) true; Try (AAlloc 1) true]); [|vm_compute; reflexivity].
    apply (reach_return _ _ (CPushBack 0 5) (<[0 := Vector_default]> ∅) []);
      [|vm_compute; reflexivity].
    apply (reach_return _ _ (CNew 0) ∅ []); [|vm_compute; reflexivity].
    apply reach_start. }
  split; [apply map_Forall_empty|]. split; [exact Hr|].
  apply (size_within_capacity_after_every_call (E := ints_copy_throws_1st)
           ∅ (<[0 := vector_of [5] 1]> ∅) [] _ (map_Forall_empty _) Hr 0).
  vm_compute. reflexivity.
Defined.

Lemma self_copy_assign_changes_nothing_witness :
  two_vectors !! 0 = Some (vector_of [1; 2] 2) /\
  copy_assign (E := ints) 0 0 two_vectors [] = Normal two_vectors tt [].
Proof.
  assert (two_vectors !! 0 = Some (vector_of [1; 2] 2)) as H by (vm_compute; reflexivity).
  split; [exact H|].
  exact (self_copy_assign_changes_nothing (E := ints) two_vectors 0 (vector_of [1; 2] 2) [] H).
Defined.

Lemma move_exchanges_contents_witness :
  0 <> 1 /\
  move_assign 1 0 two_vectors = Some (<[1 := vector_of [1; 2] 2]> (<[0 := vector_of [7] 1]> two_vectors)) /\
  move_construct 2 0 two_vectors
  = Some (<[2 := vector_of [1; 2] 2]> (<[0 := Vector_default]> two_vectors)).
Proof.
  assert (0 <> 1) as Hne by lia.
  assert (two_vectors !! 0 = Some (vector_of [1; 2] 2)) as H0 by (vm_compute; reflexivity).
  assert (two_vectors !! 1 = Some (vector_of [7] 1)) as H1 by (vm_compute; reflexivity).
  destruct (move_exchanges_contents two_vectors 0 1 _ _ Hne H0 H1) as [Ha Hc].
  split; [exact Hne|]. split; [exact Ha|].
  apply Hc. vm_compute. reflexivity.
Defined.

(** C3, as stated, fails: after [b = std::move(a)] on [a = [1, 2]] and
    [b = [7]] the source [a] has length 1, not 0. *)
Lemma move_assign_leaves_source_nonempty :
  ~ (forall (st st' : gmap nat (Vector nat)) (a b : nat) va vb,
       a <> b -> st !! a = Some va -> st !! b = Some vb ->
       move_assign b a st = Some st' ->
       size_ <$> st' !! a = Some 0).
Proof.
  intros H.
  specialize (H two_vectors (<[1 := vector_of [1; 2] 2]> (<[0 := vector_of [7] 1]> two_vectors))
                0 1 (vector_of [1; 2] 2) (vector_of [7] 1)).
  assert (0 <> 1) as Hne by lia.
  specialize (H Hne). vm_compute in H.
  specialize (H eq_refl eq_refl eq_refl). discriminate H.
Qed.



(** C9.  The code at the failing input: [Resize(2^62 + 1)] on the vector
    [1, 2, 3] of 4-byte elements.  The byte count [(2^62 + 1) * 4] wraps to
    4, the new block has room for one object while [capacity_] is recorded
    as [2^62 + 1], and the transfer of the second element constructs outside
    the block. *)
Theorem Resize_overruns_block_when_byte_count_wraps :
  byte_count (Sz := sizeof_int) (N.to_nat 4611686018427387905) = 4%N /\
  RawMemory_new_size_t (E := ints) (Sz := sizeof_int) (N.to_nat 4611686018427387905) []
  = (Some {| buffer_ := [None]; capacity_ := N.to_nat 4611686018427387905 |},
     [Try (AAlloc (N.to_nat 4611686018427387905)) true]) /\
  Resize_size_t (E := ints) (Sz := sizeof_int) (N.to_nat 4611686018427387905)
    (vector_of [1; 2; 3] 3) []
  = Fault.
Proof.
  remember (N.to_nat 4611686018427387905) as n eqn:Hn.
  assert (byte_count (Sz := sizeof_int) n = 4%N) as Hb.
  { unfold byte_count. rewrite Hn, N2Nat.id. vm_compute. reflexivity. }
  assert (slots_allocated (Sz := sizeof_int) n = 1) as Hs.
  { unfold slots_allocated. rewrite Hb. vm_compute. reflexivity. }
  assert (3 < n) as Hlt by (rewrite Hn; lia).
  assert (RawMemory_new_size_t (E := ints) (Sz := sizeof_int) n []
          = (Some {| buffer_ := [None]; capacity_ := n |}, [Try (AAlloc n) true])) as Hr.
  { unfold RawMemory_new_size_t, Allocate_size_t.
    destruct (Nat.eqb_spec n 0) as [|_]; [lia|]. by rewrite Hs. }
  split; [exact Hb|]. split; [exact Hr|].
  unfold Resize_size_t, Reserve_size_t. cbn [vector_of size_ data_ capacity_ length].
  destruct (Nat.ltb_spec n 3) as [|_]; [lia|].
  destruct (Nat.leb_spec n 3) as [|_]; [lia|].
  rewrite Hr. reflexivity.
Qed.

(** C4.  The code at the failing input: [Emplace] of 9 at index 1 of
    [1, 2, 3] with spare capacity, where move-assigning the temporary into its
    slot throws.  The call returns normally: the exception is caught, slot 1
    is destroyed, and [size_] becomes 4 although only three objects live. *)
Theorem interior_Emplace_swallows_assignment_failure :
  Emplace (E := ints_assign_throws) 1 9 (vector_of [1; 2; 3] 4) []
  = Normal {| data_ := {| buffer_ := [Some 1; None; Some 2; Some 3]; capacity_ := 4 |};
              size_ := 4 |} 1
      [Destroy 9; Destroy 2; Try (AMoveAssign 2 9) false; Try (AMoveAssign 3 2) true;
       Try (AMoveCtor 3) true; Try (AConstruct 9) true].
Proof. vm_compute. reflexivity. Qed.

(** C5.  The code at the failing input: [Emplace] of 9 at index 1 of the full
    vector [1, 2, 3], where the constructor of the new element throws.  The
    handler runs a destructor on slot 1 of the new block, in which no object
    was ever constructed. *)
Theorem growing_Emplace_destroys_unconstructed_slot :
  Emplace (E := ints_construct_throws) 1 9 (vector_of [1; 2; 3] 3) []
  = Throws (vector_of [1; 2; 3] 3)
      [Free []; DestroyDead; Try (AConstruct 9) false; Try (AAlloc 6) true].
Proof. vm_compute. reflexivity. Qed.

Example insert_9_at_1 :
  Insert (E := ints) 1 9 (vector_of [1; 2; 3] 3) []
  = Normal (vector_of [1; 9; 2; 3] 6) 1
      [Free []; Destroy 3; Destroy 2; Destroy 1; Try (AMoveCtor 3) true; Try (AMoveCtor 2) true;
       Try (AMoveCtor 1) true; Try (AConstruct 9) true; Try (AAlloc 6) true].
Proof. vm_compute. reflexivity. Qed.

Example erase_1_after_insert :
  elements <$> (match Erase (E := ints) 1 (vector_of [1; 9; 2; 3] 6) [] with
                | Normal v _ _ => Some v
                | _ => None
                end) = Some [Some 1; Some 2; Some 3].
Proof. vm_compute. reflexivity. Qed.

Example resize_3_to_5 :
  elements <$> (match Resize (E := ints) 5 (vector_of [1; 2; 3] 3) [] with
                | Normal v _ _ => Some v
                | _ => None
                end) = Some [Some 1; Some 2; Some 3; Some 0; Some 0].
Proof. vm_compute. reflexivity. Qed.

Example growth_copies_when_move_may_throw :
  transfers (match Reserve (E := nat_element false true oracle_never) 6 (vector_of [1; 2; 3] 3) [] with
             | Normal _ _ w' => w'
             | _ => []
             end) = [false; false; false].
Proof. vm_compute. reflexivity. Qed.

Example growth_moves_when_no_copy_constructor :
  transfers (match Reserve (E := nat_element false false oracle_never) 6 (vector_of [1; 2; 3] 3) [] with
             | Normal _ _ w' => w'
             | _ => []
             end) = [true; true; true].
Proof. vm_compute. reflexivity. Qed.

(** ** The rest of the interface: what each call does *)

Section MoreProofs.
Context {T Args : Type} `{E : ElementType T Args} `{Sz : ObjectSize T}.
Implicit Types (b src dst : list (option T)) (l : list T) (w : list (Event T Args)).

Ltac lens :=
  repeat (rewrite ?length_app, ?length_fmap, ?length_replicate, ?length_take, ?length_drop,
            ?length_insert, ?length_cons in *; cbn [length] in * );
  try lia.

(** *** What the algorithms never do: allocate, or misuse a slot *)

Lemma misuses_cons e w : misuses (e :: w) = misuse e + misuses w.
Proof. done. Qed.

Lemma misuses_app w1 w2 : misuses (w1 ++ w2) = misuses w1 + misuses w2.
Proof. apply sum_list_with_app. Qed.

Lemma misuses_destroys l w : misuses ((Destroy <$> l) ++ w) = misuses w.
Proof. induction l; simpl; done. Qed.

Lemma misuses_attempt a w ok w' : attempt a w = (ok, w') -> misuses w' = misuses w.
Proof. unfold attempt. intros [= <- <-]. done. Qed.

Lemma alloc_requests_attempt a w ok w' :
  (forall n, a <> AAlloc n) -> attempt a w = (ok, w') -> alloc_requests w' = alloc_requests w.
Proof. unfold attempt. intros Ha [= <- <-]. destruct a; try done. by destruct (Ha n). Qed.

Lemma quiet_refl w : quiet w w.
Proof. done. Qed.

Lemma quiet_trans w1 w2 w3 : quiet w1 w2 -> quiet w2 w3 -> quiet w1 w3.
Proof. intros [] []. split; congruence. Qed.

Lemma quiet_attempt a w ok w' :
  (forall n, a <> AAlloc n) -> attempt a w = (ok, w') -> quiet w w'.
Proof. intros. split; [by eapply alloc_requests_attempt | by eapply misuses_attempt]. Qed.

Lemma construct_quiet b i a x w :
  (forall n, a <> AAlloc n) -> quietly w (construct b i a x w).
Proof.
  intros Ha. unfold construct. case_decide; [|done].
  destruct (attempt a w) as [ok w'] eqn:Hat. pose proof (quiet_attempt _ _ _ _ Ha Hat).
  by destruct ok.
Qed.

Lemma copy_construct_loop_quiet n : forall src first dst cur w,
  quietly w (copy_construct_loop src first n dst cur w).
Proof.
  induction n as [|n IH]; intros; simpl; [done|].
  destruct (src !! first) as [[x|]|]; try done.
  pose proof (construct_quiet dst cur (ACopyCtor x) x w ltac:(done)) as Hc.
  destruct (construct _ _ _ _ _) as [dst' [] w'|dst' w'|]; try done.
  specialize (IH src (S first) dst' (S cur) w').
  destruct (copy_construct_loop _ _ _ _ _ _); try done; simpl in *; by eapply quiet_trans.
Qed.

Lemma move_construct_loop_quiet n : forall src first dst cur w,
  quietly w (move_construct_loop src first n dst cur w).
Proof.
  induction n as [|n IH]; intros; simpl; [done|].
  destruct (src !! first) as [[x|]|]; try done.
  pose proof (construct_quiet dst cur (AMoveCtor x) x w ltac:(done)) as Hc.
  destruct (construct _ _ _ _ _) as [dst' [] w'|dst' w'|]; try done.
  specialize (IH (<[first := Some (moved_from x)]> src) (S first) dst' (S cur) w').
  destruct (move_construct_loop _ _ _ _ _ _); try done; simpl in *; by eapply quiet_trans.
Qed.

Lemma value_construct_loop_quiet n : forall b cur w,
  quietly w (value_construct_loop b cur n w).
Proof.
  induction n as [|n IH]; intros; simpl; [done|].
  pose proof (construct_quiet b cur AValueInit value_init w ltac:(done)) as Hc.
  destruct (construct _ _ _ _ _) as [b' [] w'|b' w'|]; try done.
  specialize (IH b' (S cur) w').
  destruct (value_construct_loop _ _ _ _); try done; simpl in *; by eapply quiet_trans.
Qed.

Lemma copy_assign_slot_quiet src i dst j w : quietly w (copy_assign_slot src i dst j w).
Proof.
  unfold copy_assign_slot. destruct (src !! i) as [[s|]|]; try done.
  destruct (dst !! j) as [[d|]|]; try done.
  match goal with |- context [attempt ?a w] => destruct (attempt a w) as [ok w'] eqn:Hat;
    pose proof (quiet_attempt a w ok w' ltac:(done) Hat) end.
  by destruct ok.
Qed.

Lemma std_copy_loop_quiet n : forall src first dst d_first w,
  quietly w (std_copy_loop src first n dst d_first w).
Proof.
  induction n as [|n IH]; intros; simpl; [done|].
  pose proof (copy_assign_slot_quiet src first dst d_first w) as Hc.
  destruct (copy_assign_slot _ _ _ _ _) as [dst' [] w'|dst' w'|]; try done.
  specialize (IH src (S first) dst' (S d_first) w').
  destruct (std_copy_loop _ _ _ _ _ _); try done; simpl in *; by eapply quiet_trans.
Qed.

Lemma move_assign_slot_quiet b from to w : quietly w (move_assign_slot b from to w).
Proof.
  unfold move_assign_slot. destruct (b !! from) as [[s|]|]; try done.
  destruct (b !! to) as [[d|]|]; try done.
  match goal with |- context [attempt ?a w] => destruct (attempt a w) as [ok w'] eqn:Hat;
    pose proof (quiet_attempt a w ok w' ltac:(done) Hat) end.
  by destruct ok.
Qed.

Lemma std_move_loop_quiet n : forall b first d_first w,
  quietly w (std_move_loop b first n d_first w).
Proof.
  induction n as [|n IH]; intros; simpl; [done|].
  pose proof (move_assign_slot_quiet b first d_first w) as Hc.
  destruct (move_assign_slot _ _ _ _) as [b' [] w'|b' w'|]; try done.
  specialize (IH b' (S first) (S d_first) w').
  destruct (std_move_loop _ _ _ _ _); try done; simpl in *; by eapply quiet_trans.
Qed.

Lemma std_move_backward_loop_quiet n : forall b first d_last w,
  quietly w (std_move_backward_loop b first n d_last w).
Proof.
  induction n as [|n IH]; intros; simpl; [done|].
  destruct d_last as [|d']; [done|].
  pose proof (move_assign_slot_quiet b (first + n) d' w) as Hc.
  destruct (move_assign_slot _ _ _ _) as [b' [] w'|b' w'|]; try done.
  specialize (IH b' first d' w').
  destruct (std_move_backward_loop _ _ _ _ _); try done; simpl in *; by eapply quiet_trans.
Qed.

Lemma quiet_destroys l w : quiet w ((Destroy <$> l) ++ w).
Proof. split; [apply alloc_requests_destroys | apply misuses_destroys]. Qed.

Lemma omap_id_live_raw l n : omap id ((Some <$> l) ++ replicate n (@None T)) = l.
Proof.
  induction l as [|x l IH]; [apply omap_id_raw|]. simpl. f_equal. exact IH.
Qed.

Lemma quiet_Deallocate_raw n w : quiet w (Deallocate (replicate n (@None T)) w).
Proof.
  destruct n as [|n]; [done|]. cbn [replicate Deallocate].
  change (None :: replicate n None) with (replicate (S n) (@None T)).
  rewrite omap_id_raw. done.
Qed.

Lemma destroy_n_alloc n : forall b first w b' w',
  destroy_n b first n w = Some (b', w') -> alloc_requests w' = alloc_requests w.
Proof.
  induction n as [|n IH]; intros b first w b' w'; simpl; [by intros [= <- <-]|].
  unfold destroy_at. destruct (b !! first) as [[x|]|]; [| |done]; intros H.
  - by rewrite (IH _ _ _ _ _ H).
  - by rewrite (IH _ _ _ _ _ H).
Qed.

(** With their rollback, the three [uninitialized_*] algorithms are quiet on
    both exits: what they built before an exception, they destroyed. *)
Lemma uninitialized_copy_n_quiet l (s1 s2 d1 d2 d3 : list (option T)) src first n dst d_first w :
  src = s1 ++ (Some <$> l) ++ s2 -> first = length s1 -> n = length l ->
  dst = d1 ++ d2 ++ d3 -> d_first = length d1 -> length d2 = length l ->
  quietly w (uninitialized_copy_n src first n dst d_first w).
Proof.
  intros -> -> -> -> -> Hlen. unfold uninitialized_copy_n.
  pose proof (copy_construct_loop_spec l s1 s2 d1 d2 d3 w Hlen) as H.
  pose proof (copy_construct_loop_quiet (length l) (s1 ++ (Some <$> l) ++ s2) (length s1)
                (d1 ++ d2 ++ d3) (length d1) w) as Hq.
  destruct (copy_construct_loop _ _ _ _ _ _) as [[dst' cur'] [] w'|[dst' cur'] w'|]; [done| |done].
  destruct H as (k & Hk & -> & -> & _).
  rewrite (destroy_n_live_eq _ (take k l) d1 (drop k d2 ++ d3)); [|done|done|lens].
  eapply quiet_trans; [exact Hq|apply quiet_destroys].
Qed.

Lemma uninitialized_move_n_quiet l (s1 s2 d1 d2 d3 : list (option T)) src first n dst d_first w :
  src = s1 ++ (Some <$> l) ++ s2 -> first = length s1 -> n = length l ->
  dst = d1 ++ d2 ++ d3 -> d_first = length d1 -> length d2 = length l ->
  quietly w (uninitialized_move_n src first n dst d_first w).
Proof.
  intros -> -> -> -> -> Hlen. unfold uninitialized_move_n.
  pose proof (move_construct_loop_spec l s1 s2 d1 d2 d3 w Hlen) as H.
  pose proof (move_construct_loop_quiet (length l) (s1 ++ (Some <$> l) ++ s2) (length s1)
                (d1 ++ d2 ++ d3) (length d1) w) as Hq.
  destruct (move_construct_loop _ _ _ _ _ _) as [[[src' dst'] cur'] [] w'|[[src' dst'] cur'] w'|];
    [done| |done].
  destruct H as (k & Hk & -> & -> & -> & _).
  rewrite (destroy_n_live_eq _ (take k l) d1 (drop k d2 ++ d3)); [|done|done|lens].
  eapply quiet_trans; [exact Hq|apply quiet_destroys].
Qed.

Lemma uninitialized_value_construct_n_quiet (d1 d2 d3 : list (option T)) b first n w :
  b = d1 ++ d2 ++ d3 -> first = length d1 -> n = length d2 ->
  quietly w (uninitialized_value_construct_n b first n w).
Proof.
  intros -> -> ->. unfold uninitialized_value_construct_n.
  pose proof (value_construct_loop_spec d2 d1 d3 w) as H.
  pose proof (value_construct_loop_quiet (length d2) (d1 ++ d2 ++ d3) (length d1) w) as Hq.
  destruct (value_construct_loop _ _ _ _) as [[b' cur'] [] w'|[b' cur'] w'|]; [done| |done].
  destruct H as (k & Hk & -> & -> & _).
  rewrite (destroy_n_live_eq _ (replicate k value_init) d1 (drop k d2 ++ d3)); [|done|done|lens].
  eapply quiet_trans; [exact Hq|apply quiet_destroys].
Qed.

(** *** Construction and destruction *)

Lemma Vector_sized_behaviour (size : nat) w :
  match Vector_sized size w with
  | Normal _ v w' =>
      v = vector_of (replicate size value_init) size /\
      alloc_requests w' = (if size =? 0 then [] else [size]) ++ alloc_requests w /\
      misuses w' = misuses w
  | Throws _ w' => misuses w' = misuses w /\ ~ never_throws
  | Fault => False
  end.
Proof.
  unfold Vector_sized. destruct (Nat.eqb_spec size 0) as [->|Hn].
  - simpl. done.
  - pose proof (RawMemory_new_spec size w Hn) as Hr.
    destruct (RawMemory_new size w) as [[data|] w1].
    2:{ destruct Hr as [-> ?]. done. }
    destruct Hr as [-> ->]. cbn [buffer_ capacity_].
    opose proof* (uninitialized_value_construct_n_at [] (replicate size None) []
                    (replicate size None) 0 size (Try (AAlloc size) true :: w)) as Hs;
      [by rewrite app_nil_r|done|lens|].
    opose proof* (uninitialized_value_construct_n_quiet [] (replicate size None) []
                    (replicate size None) 0 size (Try (AAlloc size) true :: w)) as Hq;
      [by rewrite app_nil_r|done|lens|].
    destruct (uninitialized_value_construct_n _ _ _ _) as [b [] w2|b w2|]; [| |done].
    + destruct Hs as (-> & _). destruct Hq as [Ha Hm]. rewrite length_replicate.
      split_and!; [|done|done].
      unfold vector_of. rewrite fmap_replicate, length_replicate, Nat.sub_diag. done.
    + destruct Hs as (k & Hk & -> & _ & _ & Hnt). destruct Hq as [_ Hm].
      split; [|done]. rewrite drop_replicate. simpl. rewrite app_nil_r, <- replicate_add.
      by destruct (quiet_Deallocate_raw (k + (size - k)) w2) as [_ ->].
Qed.

Lemma Vector_copy_behaviour (other : Vector T) l w :
  holds other l ->
  match Vector_copy other w with
  | Normal _ v w' =>
      v = vector_of l (length l) /\
      transfers w' = replicate (length l) false ++ transfers w /\
      alloc_requests w' = (if length l =? 0 then [] else [length l]) ++ alloc_requests w /\
      misuses w' = misuses w
  | Throws _ w' => misuses w' = misuses w /\ ~ never_throws
  | Fault => False
  end.
Proof.
  intros Hv. destruct (holds_buffer other l Hv) as (Hb & Hs & Hl).
  unfold Vector_copy. rewrite Hs.
  assert (exists data w1,
            RawMemory_new (T:=T) (length l) w = (data, w1) /\
            match data with
            | Some d =>
                d = {| buffer_ := replicate (length l) None; capacity_ := length l |} /\
                alloc_requests w1 = (if length l =? 0 then [] else [length l]) ++ alloc_requests w /\
                transfers w1 = transfers w /\ misuses w1 = misuses w
            | None => misuses w1 = misuses w /\ ~ never_throws
            end) as (data & w1 & -> & Hd).
  { destruct (Nat.eqb_spec (length l) 0) as [H0|Hn].
    - rewrite H0. by eexists _, _.
    - pose proof (RawMemory_new_spec (length l) w Hn) as Hr.
      destruct (RawMemory_new (length l) w) as [[d|] w1]; eexists _, _; (split; [done|]).
      + by destruct Hr as [-> ->].
      + by destruct Hr as [-> ?]. }
  destruct data as [d|]; [|done]. destruct Hd as (-> & Ha & Ht & Hm). cbn [buffer_ capacity_].
  opose proof* (uninitialized_copy_n_at l [] (replicate (capacity_ (data_ other) - length l) None)
                  [] (replicate (length l) None) []
                  (buffer_ (data_ other)) 0 (length l) (replicate (length l) None) 0 w1) as Hc;
    [done|done|done|by rewrite app_nil_r|done|lens|].
  opose proof* (uninitialized_copy_n_quiet l [] (replicate (capacity_ (data_ other) - length l) None)
                  [] (replicate (length l) None) []
                  (buffer_ (data_ other)) 0 (length l) (replicate (length l) None) 0 w1) as Hq;
    [done|done|done|by rewrite app_nil_r|done|lens|].
  destruct (uninitialized_copy_n _ _ _ _ _ _) as [b [] w2|b w2|]; [| |done].
  - destruct Hc as (-> & Ht2 & _). destruct Hq as [Ha2 Hm2].
    split_and!; [|congruence|congruence|congruence].
    unfold vector_of. by rewrite Nat.sub_diag.
  - destruct Hc as (k & Hk & -> & _ & _ & Hnt). destruct Hq as [_ Hm2].
    split; [|done]. rewrite drop_replicate. simpl. rewrite app_nil_r, <- replicate_add.
    destruct (quiet_Deallocate_raw (k + (length l - k)) w2) as [_ ->]. congruence.
Qed.

Lemma Vector_dtor_behaviour (v : Vector T) l w :
  holds v l ->
  Vector_dtor v w
  = Some ((if capacity_ (data_ v) =? 0 then [] else [Free []]) ++ (Destroy <$> reverse l) ++ w).
Proof.
  intros Hv. destruct (holds_buffer v l Hv) as (Hb & Hs & Hl).
  unfold Vector_dtor.
  rewrite (destroy_n_live_eq _ l [] (replicate (capacity_ (data_ v) - length l) None)) by done.
  f_equal. simpl. rewrite <- replicate_add.
  replace (size_ v + (capacity_ (data_ v) - length l)) with (capacity_ (data_ v)) by lia.
  destruct (capacity_ (data_ v)) as [|c]; [done|]. cbn [replicate Deallocate Nat.eqb].
  change (None :: replicate c None) with (replicate (S c) (@None T)).
  by rewrite omap_id_raw.
Qed.

Lemma PopBack_behaviour (v : Vector T) l w :
  holds v l ->
  PopBack v w
  = match reverse l with
    | [] => None
    | x :: _ => Some (vector_of (removelast l) (capacity_ (data_ v)), Destroy x :: w)
    end.
Proof.
  intros Hv. destruct (holds_buffer v l Hv) as (Hb & Hs & Hl). unfold PopBack.
  destruct l as [|x l _] using rev_ind.
  - simpl in Hs. rewrite Hs. done.
  - rewrite reverse_snoc, removelast_last. rewrite length_app in *. cbn [length] in *.
    destruct (Nat.eqb_spec (size_ v) 0) as [|_]; [lia|].
    rewrite (destroy_n_live_eq _ [x] (Some <$> l)
               (replicate (capacity_ (data_ v) - (length l + 1)) None)); [| |lens|done].
    2:{ rewrite Hb. simpl. by rewrite fmap_app, <- app_assoc. }
    do 2 f_equal. unfold vector_of. f_equal; [|lia]. f_equal.
    simpl. change (None :: ?r) with (replicate 1 (@None T) ++ r). rewrite <- replicate_add.
    do 2 f_equal. lia.
Qed.

(** *** Growing *)

Lemma misuses_alloc n ok w : misuses (Try (AAlloc n) ok :: w) = misuses w.
Proof. done. Qed.

Lemma destroy_and_swap_live (v : Vector T) l raw new c w :
  size_ v = length l ->
  exists w',
    destroy_and_swap v ((Some <$> l) ++ replicate raw None) new c w
    = Normal {| data_ := {| buffer_ := new; capacity_ := c |}; size_ := length l |} tt w' /\
    misuses w' = misuses w /\ alloc_requests w' = alloc_requests w /\
    transfers w' = transfers w.
Proof.
  intros Hs. unfold destroy_and_swap.
  rewrite (destroy_n_live_eq _ l [] (replicate raw None)) by done.
  rewrite Hs. eexists. split; [done|]. simpl. rewrite <- replicate_add.
  rewrite transfers_Deallocate, alloc_requests_Deallocate, transfers_destroys,
    alloc_requests_destroys.
  destruct (quiet_Deallocate_raw (length l + raw) ((Destroy <$> reverse l) ++ w)) as [_ ->].
  by rewrite misuses_destroys.
Qed.

Lemma holds_moved_prefix l k c :
  length l <= c ->
  holds {| data_ := {| buffer_ := [] ++ (Some <$> (moved_from <$> take k l)) ++
                                  (Some <$> drop k l) ++ replicate (c - length l) None;
                       capacity_ := c |};
           size_ := length l |}
        ((moved_from <$> take k l) ++ drop k l).
Proof.
  intros.
  assert (length ((moved_from <$> take k l) ++ drop k l) = length l) as Hlen.
  { rewrite length_app, length_fmap, length_take, length_drop. lia. }
  split; [|simpl; lia]. unfold vector_of. cbn [data_ capacity_].
  rewrite Hlen. by rewrite fmap_app, <- app_assoc.
Qed.

Lemma Reserve_behaviour (v : Vector T) l new_capacity w :
  holds v l ->
  match Reserve new_capacity v w with
  | Normal v' _ w' =>
      v' = vector_of l (Nat.max (capacity_ (data_ v)) new_capacity) /\ misuses w' = misuses w
  | Throws v' w' =>
      (exists l', holds v' l' /\ length l' = length l) /\
      capacity_ (data_ v') = capacity_ (data_ v) /\ misuses w' = misuses w /\ ~ never_throws
  | Fault => False
  end.
Proof.
  intros Hv. destruct (holds_buffer v l Hv) as (Hb & Hs & Hl).
  pose proof (Reserve_spec v l new_capacity w Hv) as Hspec.
  unfold Reserve in *.
  destruct (Nat.leb_spec new_capacity (capacity_ (data_ v))) as [Hle|Hgt]; [done|].
  pose proof (RawMemory_new_spec new_capacity w ltac:(lia)) as Hr.
  destruct (RawMemory_new new_capacity w) as [[new_data|] w1].
  2:{ destruct Hr as [-> Hnt]. split_and!; try done. by exists l. }
  destruct Hr as [-> ->]. cbn [buffer_ capacity_] in *.
  set (raw := replicate (capacity_ (data_ v) - length l) None) in *.
  assert (replicate new_capacity (@None T)
          = [] ++ replicate (length l) None ++ replicate (new_capacity - length l) None) as Hnew.
  { simpl. rewrite <- replicate_add. f_equal. lia. }
  destruct move_if_noexcept.
  - opose proof* (uninitialized_move_n_at l [] raw [] (replicate (length l) None)
                    (replicate (new_capacity - length l) None) (buffer_ (data_ v)) 0 (size_ v)
                    (replicate new_capacity None) 0 (Try (AAlloc new_capacity) true :: w)) as Hm;
      [done|done|done|done|done|lens|].
    opose proof* (uninitialized_move_n_quiet l [] raw [] (replicate (length l) None)
                    (replicate (new_capacity - length l) None) (buffer_ (data_ v)) 0 (size_ v)
                    (replicate new_capacity None) 0 (Try (AAlloc new_capacity) true :: w)) as Hq;
      [done|done|done|done|done|lens|].
    destruct (uninitialized_move_n _ _ _ _ _ _) as [[old new] [] w2|[old new] w2|]; [| |done].
    + destruct Hm as (-> & -> & _). destruct Hq as [_ Hq].
      rewrite (destroy_n_live_eq _ (moved_from <$> l) [] raw) in * by (by rewrite ?length_fmap).
      split; [done|]. simpl. unfold raw. rewrite <- replicate_add.
      match goal with |- misuses (Deallocate (replicate ?n None) ?w0) = _ =>
        destruct (quiet_Deallocate_raw n w0) as [_ ->] end.
      by rewrite misuses_destroys.
    + destruct Hm as (k & Hk & -> & -> & _ & _ & Hnt). destruct Hq as [_ Hq].
      unfold with_buffer. cbn [data_ size_ capacity_ buffer_]. split_and!; try done.
      * eexists. rewrite Hs. split; [apply holds_moved_prefix; lia|lens].
      * rewrite drop_replicate. simpl. rewrite <- !replicate_add.
        match goal with |- misuses (Deallocate (replicate ?n None) ?w0) = _ =>
          destruct (quiet_Deallocate_raw n w0) as [_ ->] end.
        done.
  - opose proof* (uninitialized_copy_n_at l [] raw [] (replicate (length l) None)
                    (replicate (new_capacity - length l) None) (buffer_ (data_ v)) 0 (size_ v)
                    (replicate new_capacity None) 0 (Try (AAlloc new_capacity) true :: w)) as Hm;
      [done|done|done|done|done|lens|].
    opose proof* (uninitialized_copy_n_quiet l [] raw [] (replicate (length l) None)
                    (replicate (new_capacity - length l) None) (buffer_ (data_ v)) 0 (size_ v)
                    (replicate new_capacity None) 0 (Try (AAlloc new_capacity) true :: w)) as Hq;
      [done|done|done|done|done|lens|].
    destruct (uninitialized_copy_n _ _ _ _ _ _) as [new [] w2|new w2|]; [| |done].
    + destruct Hm as (-> & _). destruct Hq as [_ Hq].
      rewrite (destroy_n_live_eq _ l [] raw) in * by done.
      split; [done|]. simpl. unfold raw. rewrite <- replicate_add.
      match goal with |- misuses (Deallocate (replicate ?n None) ?w0) = _ =>
        destruct (quiet_Deallocate_raw n w0) as [_ ->] end.
      by rewrite misuses_destroys.
    + destruct Hm as (k & Hk & -> & _ & _ & Hnt). destruct Hq as [_ Hq].
      split_and!; try done.
      * by exists l.
      * rewrite drop_replicate. simpl. rewrite <- !replicate_add.
        match goal with |- misuses (Deallocate (replicate ?n None) ?w0) = _ =>
          destruct (quiet_Deallocate_raw n w0) as [_ ->] end.
        done.
Qed.

(** *** Appending *)

Lemma subscript_holds (v : Vector T) l i : holds v l -> subscript v i = l !! i.
Proof.
  intros Hv. destruct (holds_buffer v l Hv) as (Hb & Hs & Hl). unfold subscript.
  rewrite Hb, Hs. simpl. case_decide as Hi.
  - rewrite lookup_app_l by lens. rewrite list_lookup_fmap.
    by destruct (l !! i).
  - symmetry. apply lookup_ge_None. lia.
Qed.

Lemma EmplaceBack_spare_spec (v : Vector T) l args w :
  holds v l -> size_ v < capacity_ (data_ v) ->
  match EmplaceBack args v w with
  | Normal v' i w' =>
      v' = vector_of (l ++ [construct_from args]) (capacity_ (data_ v)) /\ i = length l /\
      w' = Try (AConstruct args) true :: w
  | Throws v' w' => v' = v /\ w' = Try (AConstruct args) false :: w /\ ~ never_throws
  | Fault => False
  end.
Proof.
  intros Hv Hspare. destruct (holds_buffer v l Hv) as (Hb & Hs & Hl).
  unfold EmplaceBack, Capacity.
  destruct (Nat.eqb_spec (size_ v) (capacity_ (data_ v))) as [|_]; [lia|].
  destruct (Nat.ltb_spec (size_ v) (capacity_ (data_ v))) as [_|]; [|lia].
  pose proof (construct_spec (buffer_ (data_ v)) (size_ v) (AConstruct args)
                (construct_from args) w) as Hc.
  destruct (construct _ _ _ _ _) as [b [] w1|b w1|].
  - destruct Hc as [-> ->]; [rewrite Hb; lens|].
    unfold with_buffer. cbn [data_ size_ capacity_ buffer_].
    rewrite decide_True by lia. rewrite Hb, Hs, vector_of_snoc_spare by lia. done.
  - destruct Hc as (-> & -> & Hnt); [rewrite Hb; lens|]. done.
  - apply Hc. rewrite Hb. lens.
Qed.

Lemma EmplaceBack_grow_normal_quiet (v : Vector T) l args w :
  holds v l -> size_ v = capacity_ (data_ v) ->
  match EmplaceBack args v w with
  | Normal _ _ w' => misuses w' = misuses w
  | _ => True
  end.
Proof.
  intros Hv Hfull. destruct (holds_buffer v l Hv) as (Hb & Hs & Hl).
  unfold EmplaceBack, Capacity.
  rewrite (growth_capacity_max (size_ v) (capacity_ (data_ v)) Hfull).
  destruct (Nat.eqb_spec (size_ v) (capacity_ (data_ v))) as [_|]; [|done].
  set (c := Nat.max 1 (capacity_ (data_ v) * 2)).
  assert (S (length l) <= c) as Hc by lia.
  pose proof (RawMemory_new_spec c w) as Hr.
  destruct (RawMemory_new c w) as [[new_data|] w1]; [|done].
  destruct Hr as [-> ->]; [lia|]. cbn [buffer_ capacity_].
  pose proof (construct_spec (replicate c None) (size_ v) (AConstruct args)
                (construct_from args) (Try (AAlloc c) true :: w)) as Hn.
  destruct (construct _ _ _ _ _) as [nb [] w2|nb w2|]; [|done|done].
  destruct Hn as [-> ->]; [lens|]. rewrite insert_raw by lia.
  rewrite Hs.
  set (raw := replicate (capacity_ (data_ v) - length l) None) in *.
  destruct move_if_noexcept.
  - match goal with
    | |- context [uninitialized_move_n ?src ?f ?n ?dst ?d ?w0] =>
        opose proof* (uninitialized_move_n_at l [] raw [] (replicate (length l) None)
                        (Some (construct_from args) :: replicate (c - S (length l)) None)
                        src f n dst d w0) as Hm; [done|done|done|done|done|lens|];
        opose proof* (uninitialized_move_n_quiet l [] raw [] (replicate (length l) None)
                        (Some (construct_from args) :: replicate (c - S (length l)) None)
                        src f n dst d w0) as Hq; [done|done|done|done|done|lens|]
    end.
    destruct (uninitialized_move_n _ _ _ _ _ _) as [[old new] [] w3|[old new] w3|]; [|done|done].
    destruct Hm as (-> & -> & _). destruct Hq as [_ Hq].
    destruct (destroy_and_swap_live v (moved_from <$> l) (capacity_ (data_ v) - length l)
                ([] ++ (Some <$> l) ++ Some (construct_from args) :: replicate (c - S (length l)) None)
                c w3) as (w4 & Hd & Hm4 & _); [by rewrite length_fmap|].
    simpl in Hd |- *. fold raw in Hd. rewrite Hd. cbn [data_ size_ capacity_].
    rewrite decide_True by (rewrite length_fmap; lia). by rewrite Hm4, Hq.
  - match goal with
    | |- context [uninitialized_copy_n ?src ?f ?n ?dst ?d ?w0] =>
        opose proof* (uninitialized_copy_n_at l [] raw [] (replicate (length l) None)
                        (Some (construct_from args) :: replicate (c - S (length l)) None)
                        src f n dst d w0) as Hm; [done|done|done|done|done|lens|];
        opose proof* (uninitialized_copy_n_quiet l [] raw [] (replicate (length l) None)
                        (Some (construct_from args) :: replicate (c - S (length l)) None)
                        src f n dst d w0) as Hq; [done|done|done|done|done|lens|]
    end.
    destruct (uninitialized_copy_n _ _ _ _ _ _) as [new [] w3|new w3|];
      [|by repeat case_match|done].
    destruct Hm as (-> & _). destruct Hq as [_ Hq].
    destruct (destroy_and_swap_live v l (capacity_ (data_ v) - length l)
                ([] ++ (Some <$> l) ++ Some (construct_from args) :: replicate (c - S (length l)) None)
                c w3) as (w4 & Hd & Hm4 & _); [done|].
    rewrite Hb. simpl in Hd |- *. fold raw in Hd. rewrite Hd. cbn [data_ size_ capacity_].
    rewrite decide_True by lia. by rewrite Hm4, Hq.
Qed.

Lemma EmplaceBack_behaviour (v : Vector T) l args w :
  holds v l ->
  match EmplaceBack args v w with
  | Normal v' i w' =>
      v' = vector_of (l ++ [construct_from args])
             (if size_ v <? capacity_ (data_ v) then capacity_ (data_ v)
              else Nat.max 1 (capacity_ (data_ v) * 2)) /\
      i = length l /\ subscript v' i = Some (construct_from args) /\
      misuses w' = misuses w
  | Throws v' _ => (size_ v < capacity_ (data_ v) -> v' = v) /\ ~ never_throws
  | Fault => False
  end.
Proof.
  intros Hv. destruct (holds_buffer v l Hv) as (Hb & Hs & Hl).
  assert (forall c, length l < c ->
            subscript (vector_of (l ++ [construct_from args]) c) (length l)
            = Some (construct_from args)) as Hsub.
  { intros c Hc. rewrite (subscript_holds _ (l ++ [construct_from args])).
    - by rewrite lookup_app_r, Nat.sub_diag.
    - split; [done|]. simpl. rewrite length_app. simpl. lia. }
  destruct (Nat.ltb_spec (size_ v) (capacity_ (data_ v))) as [Hspare|Hfull].
  - pose proof (EmplaceBack_spare_spec v l args w Hv Hspare) as H.
    destruct (EmplaceBack args v w) as [v' i w'|v' w'|]; [| |done].
    + destruct H as (-> & -> & ->). split_and!; try done. apply Hsub. lia.
    + by destruct H as (-> & _ & ?).
  - assert (size_ v = capacity_ (data_ v)) as Hfull' by lia.
    pose proof (EmplaceBack_grow_spec v l args w Hv Hfull') as H.
    pose proof (EmplaceBack_grow_normal_quiet v l args w Hv Hfull') as Hq.
    destruct (EmplaceBack args v w) as [v' i w'|v' w'|]; [| |done].
    + destruct H as (-> & -> & _). split_and!; try done. apply Hsub. lia.
    + destruct H as (_ & _ & _ & ?). split; [lia|done].
Qed.

(** *** The block stays while the capacity suffices *)

Ltac quiet_step :=
  match goal with
  | |- context [construct ?b ?i ?a ?x ?w] =>
      let H := fresh "Hq" in
      pose proof (construct_quiet b i a x w ltac:(done)) as H;
      destruct (construct b i a x w) as [? [] ?|? ?|]
  | |- context [std_move_backward ?b ?f ?l ?d ?w] =>
      let H := fresh "Hq" in
      pose proof (std_move_backward_loop_quiet (l - f) b f d w) as H;
      change (std_move_backward_loop b f (l - f) d w) with (std_move_backward b f l d w) in H;
      destruct (std_move_backward b f l d w) as [? [] ?|? ?|]
  | |- context [std_move ?b ?f ?l ?d ?w] =>
      let H := fresh "Hq" in
      pose proof (std_move_loop_quiet (l - f) b f d w) as H;
      change (std_move_loop b f (l - f) d w) with (std_move b f l d w) in H;
      destruct (std_move b f l d w) as [? [] ?|? ?|]
  | |- context [uninitialized_value_construct_n ?b ?f ?n ?w] =>
      let H := fresh "Hq" in
      pose proof (value_construct_loop_quiet n b f w) as H;
      unfold uninitialized_value_construct_n;
      destruct (value_construct_loop b f n w) as [[? ?] [] ?|[? ?] ?|]
  | |- context [destroy_n ?b ?f ?n ?w] =>
      let H := fresh "Hd" in
      destruct (destroy_n b f n w) as [[? ?]|] eqn:H; [apply destroy_n_alloc in H|]
  | |- context [attempt ?a ?w] =>
      let H := fresh "Hat" in
      let ok := fresh "ok" in
      destruct (attempt a w) as [ok ?] eqn:H;
      apply alloc_requests_attempt in H; [|done]; destruct ok
  end.

Ltac quiet_close :=
  simpl in *; unfold quiet in *; try done;
  repeat match goal with H : _ /\ _ |- _ => destruct H end;
  try (split; [done|]); simpl; try congruence.

(** X15.  No reallocation while the capacity suffices: [EmplaceBack] and
    [Emplace] on a vector with spare capacity, [Reserve] and [Resize] up to
    the capacity, [Erase] and [PopBack] leave the capacity unchanged and
    request no allocation, whether they return or throw.  This holds of every
    vector object, well formed or not. *)
Theorem block_stays_while_capacity_suffices (v : Vector T) w :
  (size_ v < capacity_ (data_ v) -> forall args, keeps_block v w (EmplaceBack args v w)) /\
  (size_ v < capacity_ (data_ v) -> forall pos args, keeps_block v w (Emplace pos args v w)) /\
  (forall n, n <= capacity_ (data_ v) -> keeps_block v w (Reserve n v w)) /\
  (forall n, n <= capacity_ (data_ v) -> keeps_block v w (Resize n v w)) /\
  (forall pos, keeps_block v w (Erase pos v w)) /\
  (forall v' w', PopBack v w = Some (v', w') ->
     capacity_ (data_ v') = capacity_ (data_ v) /\ alloc_requests w' = alloc_requests w).
Proof.
  split_and!.
  - intros Hspare args. unfold keeps_block, EmplaceBack, Capacity.
    destruct (Nat.eqb_spec (size_ v) (capacity_ (data_ v))) as [|_]; [lia|].
    destruct (Nat.ltb_spec (size_ v) (capacity_ (data_ v))) as [_|]; [|lia].
    quiet_step; quiet_close. case_decide; quiet_close.
  - intros Hspare pos args. unfold keeps_block, Emplace, Capacity, move_construct_within.
    case_decide; [|done].
    destruct (Nat.ltb_spec (size_ v) (capacity_ (data_ v))) as [_|]; [|lia].
    destruct (pos =? size_ v).
    + quiet_step; quiet_close.
    + destruct (size_ v =? 0); [done|].
      quiet_step; [|quiet_close].
      destruct (buffer_ (data_ v) !! (size_ v - 1)) as [[x|]|]; [|done|done].
      quiet_step; [|quiet_close|quiet_close].
      quiet_step; [| |quiet_close].
      * match goal with |- context [?b !! pos] => destruct (b !! pos) as [[d|]|] end;
          [|done|done].
        quiet_step; [quiet_close|]. quiet_step; quiet_close.
      * quiet_step; quiet_close.
  - intros n Hn. unfold keeps_block, Reserve.
    by destruct (Nat.leb_spec n (capacity_ (data_ v))); [|lia].
  - intros n Hn. unfold keeps_block, Resize, Reserve.
    destruct (Nat.leb_spec n (capacity_ (data_ v))) as [_|]; [|lia].
    destruct (n <? size_ v).
    + quiet_step; quiet_close.
    + quiet_step; [quiet_close| |quiet_close]. quiet_step; quiet_close.
  - intros pos. unfold keeps_block, Erase, PopBack. case_decide; [|done].
    quiet_step; [|quiet_close|quiet_close]. cbn [with_buffer size_ data_ buffer_ capacity_].
    destruct (size_ v =? 0); [done|]. quiet_step; quiet_close.
  - intros v' w'. unfold PopBack. destruct (size_ v =? 0); [done|].
    quiet_step; [|done]. intros [= <- <-]. quiet_close.
Qed.

(** *** Shifting elements: every slot of the range stays alive *)

Lemma std_move_loop_live l : forall (d1 d3 : list (option T)) y w,
  match std_move_loop (d1 ++ Some y :: (Some <$> l) ++ d3) (S (length d1)) (length l)
          (length d1) w with
  | Normal b' _ _ => exists r, b' = d1 ++ (Some <$> l) ++ Some r :: d3
  | Throws b' _ =>
      (exists l', length l' = S (length l) /\ b' = d1 ++ (Some <$> l') ++ d3) /\ ~ never_throws
  | Fault => False
  end.
Proof.
  induction l as [|x l IH]; intros d1 d3 y w.
  - simpl. by exists y.
  - cbn [std_move_loop length fmap list_fmap app].
    pose proof (move_assign_slot_spec (d1 ++ Some y :: Some x :: (Some <$> l) ++ d3)
                  (S (length d1)) (length d1) x y w) as Hm.
    rewrite lookup_middle_next, list_lookup_middle in Hm by done.
    specialize (Hm eq_refl eq_refl).
    destruct (move_assign_slot _ _ _ _) as [b' [] w'|b' w'|]; [| |done].
    + subst b'. rewrite insert_middle, insert_middle_next.
      specialize (IH (d1 ++ [Some x]) d3 (moved_from x) w').
      rewrite !length_app, <- !app_assoc in IH. simpl in IH. rewrite !Nat.add_1_r in IH.
      destruct (std_move_loop _ _ _ _ _) as [b' [] w''|b' w''|]; [| |done].
      * destruct IH as [r ->]. exists r. by rewrite <- app_assoc.
      * destruct IH as [(l' & Hl' & ->) Hn]. split; [|done].
        exists (x :: l'). split; [simpl; lia|]. by rewrite <- app_assoc.
    + destruct Hm as [-> Hn]. split; [|done]. by exists (y :: x :: l).
Qed.

Lemma std_move_backward_loop_live l : forall (d1 d3 : list (option T)) y w,
  match std_move_backward_loop (d1 ++ (Some <$> l) ++ Some y :: d3) (length d1) (length l)
          (S (length d1 + length l)) w with
  | Normal b' _ _ => exists r, b' = d1 ++ Some r :: (Some <$> l) ++ d3
  | Throws b' _ =>
      (exists l', length l' = S (length l) /\ b' = d1 ++ (Some <$> l') ++ d3) /\ ~ never_throws
  | Fault => False
  end.
Proof.
  induction l as [|x l IH] using rev_ind; intros d1 d3 y w.
  - simpl. by exists y.
  - rewrite length_app. simpl. rewrite Nat.add_1_r.
    cbn [std_move_backward_loop].
    rewrite fmap_app. simpl. rewrite <- (app_assoc (Some <$> l)). simpl.
    pose proof (move_assign_slot_spec ((d1 ++ (Some <$> l)) ++ Some x :: Some y :: d3)
                  (length (d1 ++ (Some <$> l))) (S (length (d1 ++ (Some <$> l)))) x y w) as Hm.
    rewrite lookup_middle_next, list_lookup_middle in Hm by done.
    specialize (Hm eq_refl eq_refl).
    rewrite insert_middle_next, insert_middle in Hm.
    rewrite length_app, length_fmap, <- !app_assoc in Hm.
    replace (length d1 + S (length l)) with (S (length d1 + length l)) by lia.
    destruct (move_assign_slot _ _ _ _) as [b' [] w'|b' w'|]; [| |done].
    + subst b'.
      specialize (IH d1 (Some x :: d3) (moved_from x) w').
      destruct (std_move_backward_loop _ _ _ _ _) as [b' [] w''|b' w''|]; [| |done].
      * destruct IH as [r ->]. exists r. by rewrite <- app_assoc.
      * destruct IH as [(l' & Hl' & ->) Hn]. split; [|done].
        exists (l' ++ [x]). split; [rewrite length_app; simpl; lia|].
        by rewrite fmap_app, <- app_assoc.
    + destruct Hm as [-> Hn]. split; [|done].
      exists (l ++ [x; y]). split; [rewrite length_app; simpl; lia|].
      by rewrite fmap_app, <- app_assoc.
Qed.

Lemma std_move_live_at l (d1 d3 : list (option T)) y b first last d_first w :
  b = d1 ++ Some y :: (Some <$> l) ++ d3 -> d_first = length d1 -> first = S d_first ->
  last - first = length l ->
  match std_move b first last d_first w with
  | Normal b' _ w' => (exists r, b' = d1 ++ (Some <$> l) ++ Some r :: d3) /\ quiet w w'
  | Throws b' w' =>
      (exists l', length l' = S (length l) /\ b' = d1 ++ (Some <$> l') ++ d3) /\
      quiet w w' /\ ~ never_throws
  | Fault => False
  end.
Proof.
  intros -> -> -> Hn. unfold std_move. rewrite Hn.
  pose proof (std_move_loop_live l d1 d3 y w) as Hm.
  pose proof (std_move_loop_quiet (length l) (d1 ++ Some y :: (Some <$> l) ++ d3)
                (S (length d1)) (length d1) w) as Hq.
  destruct (std_move_loop _ _ _ _ _) as [b' [] w1|b' w1|]; [done| |done].
  by destruct Hm.
Qed.

Lemma std_move_backward_live_at l (d1 d3 : list (option T)) y b first last d_last w :
  b = d1 ++ (Some <$> l) ++ Some y :: d3 -> first = length d1 -> last - first = length l ->
  d_last = S (length d1 + length l) ->
  match std_move_backward b first last d_last w with
  | Normal b' _ w' => (exists r, b' = d1 ++ Some r :: (Some <$> l) ++ d3) /\ quiet w w'
  | Throws b' w' =>
      (exists l', length l' = S (length l) /\ b' = d1 ++ (Some <$> l') ++ d3) /\
      quiet w w' /\ ~ never_throws
  | Fault => False
  end.
Proof.
  intros -> -> Hn ->. unfold std_move_backward. rewrite Hn.
  pose proof (std_move_backward_loop_live l d1 d3 y w) as Hm.
  pose proof (std_move_backward_loop_quiet (length l) (d1 ++ (Some <$> l) ++ Some y :: d3)
                (length d1) (S (length d1 + length l)) w) as Hq.
  destruct (std_move_backward_loop _ _ _ _ _) as [b' [] w1|b' w1|]; [done| |done].
  by destruct Hm.
Qed.

Lemma holds_same_length (v : Vector T) l l' :
  holds v l -> length l' = length l ->
  holds (with_buffer v ((Some <$> l') ++ replicate (capacity_ (data_ v) - length l) None)) l'.
Proof.
  intros Hv Hlen. destruct (holds_buffer v l Hv) as (Hb & Hs & Hl).
  split; [|simpl; lia]. unfold with_buffer, vector_of. cbn [data_ capacity_].
  by rewrite Hlen, Hs.
Qed.

Lemma Erase_behaviour (v : Vector T) l pos w :
  holds v l ->
  match Erase pos v w with
  | Normal v' i w' =>
      pos < length l /\
      v' = vector_of (take pos l ++ drop (S pos) l) (capacity_ (data_ v)) /\ i = pos /\
      misuses w' = misuses w
  | Throws v' w' =>
      pos < length l /\
      (exists l', holds v' l' /\ length l' = length l /\ take pos l' = take pos l) /\
      capacity_ (data_ v') = capacity_ (data_ v) /\ misuses w' = misuses w /\ ~ never_throws
  | Fault => length l <= pos
  end.
Proof.
  intros Hv. destruct (holds_buffer v l Hv) as (Hb & Hs & Hl).
  destruct (decide (pos < length l)) as [Hpos|Hpos].
  2:{ unfold Erase. rewrite decide_False by lia. lia. }
  unfold Erase. rewrite decide_True by lia.
  destruct (lookup_lt_is_Some_2 l pos Hpos) as [y Hy].
  set (raw := replicate (capacity_ (data_ v) - length l) None) in Hb.
  assert (buffer_ (data_ v)
          = (Some <$> take pos l) ++ Some y :: (Some <$> drop (S pos) l) ++ raw) as Hb'.
  { rewrite Hb. simpl. rewrite <- (take_drop_middle l pos y Hy) at 1.
    by rewrite fmap_app, fmap_cons, <- app_assoc. }
  opose proof* (std_move_live_at (drop (S pos) l) (Some <$> take pos l) raw y
                  (buffer_ (data_ v)) (pos + 1) (size_ v) pos w) as Hm; [done|lens|lens|lens|].
  destruct (std_move _ _ _ _ _) as [b' [] w1|b' w1|]; [| |done].
  - destruct Hm as [[r ->] [_ Hq]].
    unfold PopBack, with_buffer. cbn [data_ size_ buffer_ capacity_].
    destruct (Nat.eqb_spec (size_ v) 0) as [|_]; [lia|].
    rewrite (destroy_n_live_eq _ [r] ((Some <$> take pos l) ++ (Some <$> drop (S pos) l)) raw);
      [|by rewrite <- app_assoc|lens|done].
    split_and!; [done| |lens|done].
    unfold vector_of. f_equal; [|lens].
    f_equal. rewrite fmap_app, <- !app_assoc. do 2 f_equal. simpl.
    change (None :: raw) with (replicate (S (capacity_ (data_ v) - length l)) (@None T)).
    f_equal. lens.
  - destruct Hm as ((l' & Hl' & ->) & [_ Hq] & Hnt).
    split_and!; try done.
    exists (take pos l ++ l').
    assert (length (take pos l ++ l') = length l) as Hlen by lens.
    split_and!; [|done|].
    + pose proof (holds_same_length v l (take pos l ++ l') Hv Hlen) as H.
      by rewrite fmap_app, <- app_assoc in H.
    + rewrite take_app_length' by lens. done.
Qed.

(** *** Insertion with spare capacity, for any element type *)

Lemma Emplace_spare_behaviour (v : Vector T) l pos args w :
  holds v l -> size_ v < capacity_ (data_ v) -> pos <= length l ->
  match Emplace pos args v w with
  | Normal v' i w' =>
      i = pos /\ misuses w' = misuses w /\
      (v' = vector_of (take pos l ++ construct_from args :: drop pos l) (capacity_ (data_ v)) \/
       exists d w'',
         w' = Destroy (construct_from args) :: Destroy d
              :: Try (AMoveAssign d (construct_from args)) false :: w'')
  | Throws v' w' =>
      (exists l', holds v' l' /\ length l' = length l /\ take pos l' = take pos l) /\
      capacity_ (data_ v') = capacity_ (data_ v) /\ misuses w' = misuses w /\ ~ never_throws
  | Fault => False
  end.
Proof.
  intros Hv Hspare Hpos. destruct (holds_buffer v l Hv) as (Hb & Hs & Hl).
  unfold Emplace, Capacity. rewrite decide_True by lia.
  destruct (Nat.ltb_spec (size_ v) (capacity_ (data_ v))) as [_|]; [|lia].
  set (x := construct_from args).
  destruct (Nat.eqb_spec pos (size_ v)) as [Hend|Hin].
  - pose proof (construct_spec (buffer_ (data_ v)) (size_ v) (AConstruct args) x w) as Hc.
    destruct (construct _ _ _ _ _) as [b [] w1|b w1|].
    + destruct Hc as [-> ->]; [rewrite Hb; lens|]. split_and!; [done|done|left].
      unfold with_buffer. cbn [data_ size_ capacity_ buffer_].
      rewrite Hb, Hs, vector_of_snoc_spare by lia.
      by rewrite Hend, Hs, take_ge, drop_ge by lia.
    + destruct Hc as (-> & -> & Hnt); [rewrite Hb; lens|]. split_and!; try done. by exists l.
    + apply Hc. rewrite Hb. lens.
  - destruct (Nat.eqb_spec (size_ v) 0) as [|_]; [lia|].
    destruct (attempt_spec (AConstruct args) w) as (ok & -> & Hok).
    destruct ok; [|split_and!; [by exists l|done|done|by apply Hok]].
    destruct l as [|z l0 _] using rev_ind; [simpl in *; lia|].
    rewrite length_app in *. cbn [length] in *.
    destruct (capacity_ (data_ v) - (length l0 + 1)) as [|k] eqn:Hk; [lia|].
    cbn [replicate] in Hb. rewrite fmap_app in Hb. cbn [fmap list_fmap] in Hb.
    assert (buffer_ (data_ v) = (Some <$> l0) ++ Some z :: None :: replicate k None) as Hb1.
    { rewrite Hb. simpl. by rewrite <- app_assoc. }
    assert (pos <= length l0) as Hpos0 by lia.
    unfold move_construct_within. rewrite Hs, Hb1.
    replace (length l0 + 1 - 1) with (length (Some <$> l0)) by lens.
    rewrite list_lookup_middle by done.
    pose proof (construct_spec ((Some <$> l0) ++ Some z :: None :: replicate k None)
                  (length l0 + 1) (AMoveCtor z) z (Try (AConstruct args) true :: w)) as Hc.
    destruct (construct _ _ _ _ _) as [b1 [] w2|b1 w2|].
    3:{ apply Hc. lens. }
    2:{ destruct Hc as (-> & -> & Hnt); [lens|]. split_and!; try done.
        exists (l0 ++ [z]). split_and!; [|lens|done].
        rewrite <- Hb1. destruct v as [[b c] s]. unfold with_buffer. simpl. apply Hv. }
    destruct Hc as [-> ->]; [lens|].
    replace (length l0 + 1) with (S (length (Some <$> l0))) by lens.
    rewrite insert_middle_next, insert_middle.
    opose proof* (std_move_backward_live_at (drop pos l0) (Some <$> take pos l0)
                    (Some z :: replicate k None) (moved_from z)
                    ((Some <$> l0) ++ Some (moved_from z) :: Some z :: replicate k None)
                    pos (length (Some <$> l0)) (S (length (Some <$> l0)))
                    (Try (AMoveCtor z) true :: Try (AConstruct args) true :: w)) as Hm;
      [|lens|lens|lens|].
    { rewrite app_assoc, <- fmap_app, take_drop. done. }
    destruct (std_move_backward _ _ _ _ _) as [b2 [] w3|b2 w3|]; [| |done].
    + destruct Hm as [[r ->] [_ Hq]].
      rewrite list_lookup_middle by lens.
      destruct (attempt_spec (AMoveAssign r x) w3) as (ok & -> & Hok').
      destruct ok.
      * split_and!; [done|by rewrite misuses_cons, misuses_cons, Hq|left].
        rewrite insert_middle_at by lens.
        unfold with_buffer, vector_of. cbn [data_ size_ buffer_ capacity_].
        rewrite take_app_le, drop_app_le by done.
        rewrite Hs. f_equal; [|lens].
        f_equal. rewrite !fmap_app, fmap_cons, !fmap_app, <- !app_assoc. simpl.
        replace (capacity_ (data_ v) - length (take pos l0 ++ x :: drop pos l0 ++ [z]))
          with k by lens.
        by rewrite <- app_assoc.
      * rewrite (destroy_n_live_eq _ [r] (Some <$> take pos l0)
                   ((Some <$> drop pos l0) ++ Some z :: replicate k None)); [|done|lens|done].
        split_and!; [done|unfold misuses in *; simpl in *; lia|right]. by eexists _, _.
    + destruct Hm as ((l' & Hl' & ->) & [_ Hq] & Hnt).
      rewrite (destroy_n_live_eq _ [z] ((Some <$> take pos l0) ++ (Some <$> l'))
                 (replicate k None)); [|by rewrite <- app_assoc|lens|done].
      split_and!; try done.
      exists (take pos l0 ++ l').
      assert (length (take pos l0 ++ l') = length l0 + 1) as Hlen by lens.
      split_and!; [|lens|].
      * opose proof* (holds_same_length v (l0 ++ [z]) (take pos l0 ++ l') Hv) as H; [lens|].
        rewrite (length_app l0), fmap_app in H. simpl in H. rewrite Hk in H.
        exact H.
      * rewrite (take_app_le l0 [z]) by done. by rewrite take_app_length' by lens.
Qed.


Lemma Emplace_grow_normal_quiet (v : Vector T) l pos args w :
  holds v l -> size_ v = capacity_ (data_ v) -> pos <= length l ->
  match Emplace pos args v w with
  | Normal _ _ w' => misuses w' = misuses w
  | _ => True
  end.
Proof.
  intros Hv Hfull Hpos. destruct (holds_buffer v l Hv) as (Hb & Hs & Hl).
  unfold Emplace, Capacity.
  rewrite (growth_capacity_max (size_ v) (capacity_ (data_ v)) Hfull).
  rewrite decide_True by lia.
  destruct (Nat.ltb_spec (size_ v) (capacity_ (data_ v))) as [|_]; [lia|].
  set (c := Nat.max 1 (capacity_ (data_ v) * 2)).
  set (x := construct_from args).
  set (raw := replicate (capacity_ (data_ v) - length l) None) in Hb.
  assert (S (length l) <= c) as Hc by lia.
  pose proof (RawMemory_new_spec c w) as Hr.
  destruct (RawMemory_new c w) as [[new_data|] w1]; [|done].
  destruct Hr as [-> ->]; [lia|]. cbn [buffer_ capacity_].
  pose proof (construct_spec (replicate c None) pos (AConstruct args) x
                (Try (AAlloc c) true :: w)) as Hn.
  destruct (construct _ _ _ _ _) as [nb [] w2|nb w2|]; [|by repeat case_match|done].
  destruct Hn as [-> ->]; [lens|]. rewrite insert_raw by lia.
  rewrite Hs.
  assert (buffer_ (data_ v) = [] ++ (Some <$> take pos l) ++ (Some <$> drop pos l) ++ raw) as Hsrc1.
  { rewrite Hb. simpl. by rewrite app_assoc, <- fmap_app, take_drop. }
  assert (replicate (c - S pos) None
          = replicate (length l - pos) (@None T) ++ replicate (c - S (length l)) None) as Hraw.
  { rewrite <- replicate_add. f_equal. lia. }
  destruct move_if_noexcept.
  - match goal with
    | |- context [uninitialized_move_n ?src ?f ?n ?dst ?d ?w0] =>
        opose proof* (uninitialized_move_n_at (take pos l) [] ((Some <$> drop pos l) ++ raw)
                        [] (replicate pos None) (Some x :: replicate (c - S pos) None)
                        src f n dst d w0) as Hm; [done|done|lens|done|done|lens|];
        opose proof* (uninitialized_move_n_quiet (take pos l) [] ((Some <$> drop pos l) ++ raw)
                        [] (replicate pos None) (Some x :: replicate (c - S pos) None)
                        src f n dst d w0) as Hq1; [done|done|lens|done|done|lens|]
    end.
    destruct (uninitialized_move_n _ _ _ _ _ _) as [[old1 nb1] [] w3|[old1 nb1] w3|]; [|done|done].
    destruct Hm as (-> & -> & _). destruct Hq1 as [_ Hq1].
    match goal with
    | |- context [uninitialized_move_n ?src ?f ?n ?dst ?d ?w0] =>
        opose proof* (uninitialized_move_n_at (drop pos l)
                        (Some <$> (moved_from <$> take pos l)) raw
                        ((Some <$> take pos l) ++ [Some x])
                        (replicate (length l - pos) None) (replicate (c - S (length l)) None)
                        src f n dst d w0) as Hm; [done|lens|lens| |lens|lens|];
        [simpl; by rewrite Hraw, <- app_assoc|];
        opose proof* (uninitialized_move_n_quiet (drop pos l)
                        (Some <$> (moved_from <$> take pos l)) raw
                        ((Some <$> take pos l) ++ [Some x])
                        (replicate (length l - pos) None) (replicate (c - S (length l)) None)
                        src f n dst d w0) as Hq2; [done|lens|lens| |lens|lens|];
        [simpl; by rewrite Hraw, <- app_assoc|]
    end.
    destruct (uninitialized_move_n _ _ _ _ _ _) as [[old2 nb2] [] w4|[old2 nb2] w4|]; [|done|done].
    destruct Hm as (-> & -> & _). destruct Hq2 as [_ Hq2].
    match goal with
    | |- context [destroy_and_swap v ?old ?new c w4] =>
        destruct (destroy_and_swap_live v (moved_from <$> l) (capacity_ (data_ v) - length l)
                    new c w4) as (w5 & Hd & Hm5 & _); [by rewrite length_fmap|];
        replace old with ((Some <$> (moved_from <$> l)) ++ raw)
    end.
    2:{ rewrite <- (take_drop pos l) at 1. by rewrite !fmap_app, <- app_assoc. }
    unfold raw. rewrite Hd. by rewrite Hm5, Hq2, Hq1.
  - match goal with
    | |- context [uninitialized_copy_n ?src ?f ?n ?dst ?d ?w0] =>
        opose proof* (uninitialized_copy_n_at (take pos l) [] ((Some <$> drop pos l) ++ raw)
                        [] (replicate pos None) (Some x :: replicate (c - S pos) None)
                        src f n dst d w0) as Hm; [done|done|lens|done|done|lens|];
        opose proof* (uninitialized_copy_n_quiet (take pos l) [] ((Some <$> drop pos l) ++ raw)
                        [] (replicate pos None) (Some x :: replicate (c - S pos) None)
                        src f n dst d w0) as Hq1; [done|done|lens|done|done|lens|]
    end.
    destruct (uninitialized_copy_n _ _ _ _ _ _) as [nb1 [] w3|nb1 w3|];
      [|by repeat case_match|done].
    destruct Hm as (-> & _). destruct Hq1 as [_ Hq1].
    match goal with
    | |- context [uninitialized_copy_n ?src ?f ?n ?dst ?d ?w0] =>
        opose proof* (uninitialized_copy_n_quiet (drop pos l) (Some <$> take pos l) raw
                        ((Some <$> take pos l) ++ [Some x])
                        (replicate (length l - pos) None) (replicate (c - S (length l)) None)
                        src f n dst d w0) as Hq2; [done|lens|lens| |lens|lens|];
        [simpl; by rewrite Hraw, <- app_assoc|]
    end.
    destruct (uninitialized_copy_n _ _ _ _ _ _) as [nb2 [] w4|nb2 w4|];
      [|by repeat case_match|done].
    destruct Hq2 as [_ Hq2].
    destruct (destroy_and_swap_live v l (capacity_ (data_ v) - length l) nb2 c w4)
      as (w5 & Hd & Hm5 & _); [done|].
    rewrite Hb. simpl. unfold raw. rewrite Hd. by rewrite Hm5, Hq2, Hq1.
Qed.


(** *** Resizing *)

Lemma Resize_behaviour (v : Vector T) l n w :
  holds v l ->
  match Resize n v w with
  | Normal v' _ w' =>
      v' = vector_of (take n l ++ replicate (n - length l) value_init)
             (Nat.max (capacity_ (data_ v)) n) /\
      misuses w' = misuses w
  | Throws v' w' =>
      length l <= n /\
      (exists l', holds v' l' /\ length l' = length l /\ (move_if_noexcept = false -> l' = l)) /\
      misuses w' = misuses w /\ ~ never_throws
  | Fault => False
  end.
Proof.
  intros Hv. destruct (holds_buffer v l Hv) as (Hb & Hs & Hl).
  destruct (decide (n < length l)) as [Hn|Hn].
  - rewrite (Resize_shrink_spec v l n w Hv Hn). rewrite misuses_destroys.
    split; [|done]. replace (n - length l) with 0 by lia. simpl. rewrite app_nil_r.
    by rewrite Nat.max_l by lia.
  - unfold Resize. destruct (Nat.ltb_spec n (size_ v)) as [|_]; [lia|].
    pose proof (Reserve_behaviour v l n w Hv) as Hr.
    assert (move_if_noexcept = false ->
            match Reserve n v w with Throws v' _ => v' = v | _ => True end) as Hstrong.
    { intros Hcopy. destruct (decide (n <= capacity_ (data_ v))) as [Hle|Hgt].
      - unfold Reserve. by destruct (Nat.leb_spec n (capacity_ (data_ v))); [|lia].
      - opose proof* (Reserve_grow_spec v l n w) as H; [done|lia|].
        destruct (Reserve n v w); [done| |done]. by apply H. }
    destruct (Reserve n v w) as [v1 [] w1|v1 w1|]; [| |done].
    2:{ destruct Hr as ((l' & Hl' & Hlen) & _ & Hm & Hnt). split_and!; [lia| |done|done].
        destruct move_if_noexcept.
        - exists l'. by split_and!.
        - rewrite (Hstrong eq_refl). exists l. by split_and!. }
    destruct Hr as [-> Hm1]. cbn [vector_of data_ size_ buffer_ capacity_].
    set (c := Nat.max (capacity_ (data_ v)) n).
    assert ((Some <$> l) ++ replicate (c - length l) None
            = (Some <$> l) ++ replicate (n - length l) (@None T) ++ replicate (c - n) None) as Hsplit.
    { rewrite <- replicate_add. do 2 f_equal. lia. }
    opose proof* (uninitialized_value_construct_n_at (Some <$> l) (replicate (n - length l) None)
                    (replicate (c - n) None)
                    ((Some <$> l) ++ replicate (c - length l) None) (length l) (n - length l) w1)
      as Hs2; [done|lens|lens|].
    opose proof* (uninitialized_value_construct_n_quiet (Some <$> l)
                    (replicate (n - length l) None) (replicate (c - n) None)
                    ((Some <$> l) ++ replicate (c - length l) None) (length l) (n - length l) w1)
      as Hq; [done|lens|lens|].
    destruct (uninitialized_value_construct_n _ _ _ _) as [b [] w2|b w2|]; [| |done].
    + destruct Hs2 as (-> & _). destruct Hq as [_ Hq]. split; [|congruence].
      rewrite take_ge by lia. unfold vector_of. f_equal; [|lens]. f_equal.
      rewrite fmap_app, fmap_replicate, <- app_assoc. do 3 f_equal; lens.
    + destruct Hs2 as (k & Hk & -> & _ & _ & Hnt). destruct Hq as [_ Hq].
      split_and!; [lia| |congruence|done]. exists l. split_and!; try done.
      split; [|simpl; lia]. unfold with_buffer, vector_of. cbn [data_ size_ buffer_ capacity_].
      do 2 f_equal. rewrite drop_replicate, <- !replicate_add. do 2 f_equal.
      rewrite length_replicate in *. lia.
Qed.


(** *** Copy assignment *)

Lemma copy_assign_slot_spec src i dst j s d w :
  src !! i = Some (Some s) -> dst !! j = Some (Some d) ->
  match copy_assign_slot src i dst j w with
  | Normal dst' _ _ => dst' = <[j := Some s]> dst
  | Throws dst' _ => dst' = dst /\ ~ never_throws
  | Fault => False
  end.
Proof.
  intros Hs Hd. unfold copy_assign_slot. rewrite Hs, Hd.
  destruct (attempt_spec (ACopyAssign d s) w) as (ok & -> & Hok).
  destruct ok; auto.
Qed.

Lemma std_copy_loop_spec l : forall ld (s1 s2 d1 d3 : list (option T)) w,
  length ld = length l ->
  match std_copy_loop (s1 ++ (Some <$> l) ++ s2) (length s1) (length l)
          (d1 ++ (Some <$> ld) ++ d3) (length d1) w with
  | Normal dst' _ _ => dst' = d1 ++ (Some <$> l) ++ d3
  | Throws dst' _ =>
      (exists k, k < length l /\ dst' = d1 ++ (Some <$> take k l ++ drop k ld) ++ d3) /\
      ~ never_throws
  | Fault => False
  end.
Proof.
  induction l as [|x l IH]; intros ld s1 s2 d1 d3 w Hlen.
  - destruct ld; [|done]. done.
  - destruct ld as [|y ld]; [done|]. simpl in Hlen. apply Nat.succ_inj in Hlen.
    cbn [std_copy_loop fmap list_fmap app length].
    pose proof (copy_assign_slot_spec (s1 ++ Some x :: (Some <$> l) ++ s2) (length s1)
                  (d1 ++ Some y :: (Some <$> ld) ++ d3) (length d1) x y w) as Hc.
    rewrite !list_lookup_middle in Hc by done. specialize (Hc eq_refl eq_refl).
    destruct (copy_assign_slot _ _ _ _ _) as [b' [] w'|b' w'|]; [| |done].
    + subst b'. rewrite insert_middle.
      specialize (IH ld (s1 ++ [Some x]) s2 (d1 ++ [Some x]) d3 w' Hlen).
      rewrite !length_app, <- !app_assoc in IH. simpl in IH. rewrite !Nat.add_1_r in IH.
      destruct (std_copy_loop _ _ _ _ _ _) as [b' [] w''|b' w''|]; [| |done].
      * by subst b'.
      * destruct IH as [(k & Hk & ->) Hnt]. split; [|done].
        exists (S k). split; [lia|]. by rewrite <- app_assoc.
    + destruct Hc as [-> Hnt]. split; [|done]. exists 0. split; [lia|done].
Qed.

Lemma std_copy_at l ld (s1 s2 d1 d3 : list (option T)) src first last dst d_first w :
  src = s1 ++ (Some <$> l) ++ s2 -> first = length s1 -> last - first = length l ->
  dst = d1 ++ (Some <$> ld) ++ d3 -> d_first = length d1 -> length ld = length l ->
  match std_copy src first last dst d_first w with
  | Normal dst' _ w' => dst' = d1 ++ (Some <$> l) ++ d3 /\ quiet w w'
  | Throws dst' w' =>
      (exists k, k < length l /\ dst' = d1 ++ (Some <$> take k l ++ drop k ld) ++ d3) /\
      quiet w w' /\ ~ never_throws
  | Fault => False
  end.
Proof.
  intros -> -> Hn -> -> Hlen. unfold std_copy. rewrite Hn.
  pose proof (std_copy_loop_spec l ld s1 s2 d1 d3 w Hlen) as Hm.
  pose proof (std_copy_loop_quiet (length l) (s1 ++ (Some <$> l) ++ s2) (length s1)
                (d1 ++ (Some <$> ld) ++ d3) (length d1) w) as Hq.
  destruct (std_copy_loop _ _ _ _ _ _) as [b' [] w1|b' w1|]; [done| |done].
  by destruct Hm.
Qed.

Lemma CopyAssign_spec (other v : Vector T) lo lv w :
  holds other lo -> holds v lv -> length lo <= capacity_ (data_ v) ->
  match CopyAssign other v w with
  | Normal v' _ w' =>
      v' = with_buffer v ((Some <$> lo) ++ replicate (capacity_ (data_ v) - length lo) None) /\
      quiet w w'
  | Throws v' w' =>
      (exists l', holds v' l' /\ length l' = length lv) /\
      capacity_ (data_ v') = capacity_ (data_ v) /\ quiet w w' /\ ~ never_throws
  | Fault => False
  end.
Proof.
  intros Ho Hv Hfit.
  destruct (holds_buffer other lo Ho) as (Hbo & Hso & Hlo).
  destruct (holds_buffer v lv Hv) as (Hbv & Hsv & Hlv).
  unfold CopyAssign. rewrite Hso, Hsv.
  set (m := Nat.min (length lv) (length lo)).
  set (rawv := replicate (capacity_ (data_ v) - length lv) None) in *.
  set (rawo := replicate (capacity_ (data_ other) - length lo) None) in *.
  opose proof* (std_copy_at (take m lo) (take m lv) [] ((Some <$> drop m lo) ++ rawo)
                  [] ((Some <$> drop m lv) ++ rawv)
                  (buffer_ (data_ other)) 0 m (buffer_ (data_ v)) 0 w) as Hc;
    [|done|unfold m; lens| |done|unfold m; lens|].
  { rewrite Hbo. simpl. by rewrite app_assoc, <- fmap_app, take_drop. }
  { rewrite Hbv. simpl. by rewrite app_assoc, <- fmap_app, take_drop. }
  destruct (std_copy _ _ _ _ _ _) as [b [] w1|b w1|]; [| |done].
  - destruct Hc as [-> Hq1]. destruct (Nat.eqb_spec m (length lo)) as [Hm|Hm].
    + assert (length lo <= length lv) by lia.
      rewrite (destroy_n_live_eq _ (drop m lv) ([] ++ (Some <$> take m lo)) rawv);
        [|by rewrite <- !app_assoc|lens|lens].
      split.
      * do 2 f_equal; simpl.
        { by rewrite Hm, take_ge by lia. }
        unfold rawv. rewrite <- replicate_add. f_equal. lia.
      * eapply quiet_trans; [exact Hq1|apply quiet_destroys].
    + assert (length lv < length lo /\ m = length lv) as [Hlt Hmv] by lia.
      assert (rawv = replicate (length lo - length lv) (@None T)
                     ++ replicate (capacity_ (data_ v) - length lo) None) as Hraw.
      { unfold rawv. rewrite <- replicate_add. f_equal. lia. }
      match goal with
      | |- context [uninitialized_copy_n ?src ?f ?n ?dst ?d ?w0] =>
          opose proof* (uninitialized_copy_n_at (drop m lo) (Some <$> take m lo) rawo
                          (Some <$> take m lo) (replicate (length lo - length lv) None)
                          (replicate (capacity_ (data_ v) - length lo) None)
                          src f n dst d w0) as Hu; [|lens|lens| |lens|lens|];
          [rewrite Hbo; simpl; by rewrite app_assoc, <- fmap_app, take_drop
          |simpl; rewrite (drop_ge lv) by lia; simpl; by rewrite Hraw|];
          opose proof* (uninitialized_copy_n_quiet (drop m lo) (Some <$> take m lo) rawo
                          (Some <$> take m lo) (replicate (length lo - length lv) None)
                          (replicate (capacity_ (data_ v) - length lo) None)
                          src f n dst d w0) as Hq2; [|lens|lens| |lens|lens|];
          [rewrite Hbo; simpl; by rewrite app_assoc, <- fmap_app, take_drop
          |simpl; rewrite (drop_ge lv) by lia; simpl; by rewrite Hraw|]
      end.
      destruct (uninitialized_copy_n _ _ _ _ _ _) as [b [] w2|b w2|]; [| |done].
      * destruct Hu as (-> & _). split; [|by eapply quiet_trans].
        f_equal. by rewrite app_assoc, <- fmap_app, take_drop.
      * destruct Hu as (k & Hk & -> & _ & _ & Hnt).
        split_and!; [|done|by eapply quiet_trans|done].
        exists (take m lo). split; [|lens].
        opose proof* (holds_same_length v lv (take m lo) Hv) as H; [lens|].
        rewrite length_drop in Hk.
        replace (replicate k None ++ drop k (replicate (length lo - length lv) None) ++
                 replicate (capacity_ (data_ v) - length lo) None)
          with (replicate (capacity_ (data_ v) - length lv) (@None T)); [done|].
        rewrite drop_replicate, <- !replicate_add. f_equal. lia.
  - destruct Hc as ((k & Hk & ->) & Hq1 & Hnt). split_and!; try done.
    exists (take k (take m lo) ++ drop k (take m lv) ++ drop m lv). split; [|unfold m; lens].
    opose proof* (holds_same_length v lv (take k (take m lo) ++ drop k (take m lv) ++ drop m lv) Hv)
      as H; [unfold m; lens|].
    simpl. by rewrite !fmap_app, <- !app_assoc in *.
Qed.


Lemma misuses_Vector_dtor (v : Vector T) l w w' :
  holds v l -> Vector_dtor v w = Some w' -> quiet w w'.
Proof.
  intros Hv. rewrite (Vector_dtor_behaviour v l w Hv). intros [= <-].
  split.
  - destruct (_ =? _); simpl; by rewrite alloc_requests_destroys.
  - destruct (_ =? _); simpl; by rewrite misuses_destroys.
Qed.

Lemma copy_assign_behaviour (this other : nat) (st : gmap nat (Vector T))
    (v o : Vector T) lv lo w :
  this <> other -> st !! this = Some v -> st !! other = Some o ->
  holds v lv -> holds o lo ->
  match copy_assign this other st w with
  | Normal st' _ w' =>
      st' = <[this := vector_of lo (if capacity_ (data_ v) <? length lo then length lo
                                    else capacity_ (data_ v))]> st /\
      alloc_requests w'
      = (if capacity_ (data_ v) <? length lo then [length lo] else []) ++ alloc_requests w /\
      misuses w' = misuses w
  | Throws st' w' =>
      (if capacity_ (data_ v) <? length lo then st' = st
       else exists v' l', st' = <[this := v']> st /\ holds v' l' /\ length l' = length lv /\
                          capacity_ (data_ v') = capacity_ (data_ v)) /\
      misuses w' = misuses w /\ ~ never_throws
  | Fault => False
  end.
Proof.
  intros Hne Hthis Hother Hv Ho.
  destruct (holds_buffer o lo Ho) as (Hbo & Hso & Hlo).
  destruct (holds_buffer v lv Hv) as (Hbv & Hsv & Hlv).
  unfold copy_assign. rewrite Hthis, Hother. rewrite decide_True by done. rewrite Hso.
  destruct (Nat.ltb_spec (capacity_ (data_ v)) (length lo)) as [Hlt|Hge].
  - pose proof (Vector_copy_behaviour o lo w Ho) as Hc.
    destruct (Vector_copy o w) as [[] c w1|[] w1|]; [| |done].
    + destruct Hc as (-> & _ & Ha & Hm). rewrite Vector_Swap_eq.
      rewrite (Vector_dtor_behaviour v lv w1 Hv).
      destruct (Nat.eqb_spec (length lo) 0) as [|_]; [lia|].
      split_and!; [done| |].
      * destruct (_ =? _); simpl; by rewrite alloc_requests_destroys, Ha.
      * destruct (_ =? _); simpl; by rewrite misuses_destroys, Hm.
    + by destruct Hc.
  - pose proof (CopyAssign_spec o v lo lv w Ho Hv Hge) as Hc.
    destruct (CopyAssign o v w) as [v1 [] w1|v1 w1|]; [| |done].
    + destruct Hc as (-> & Ha & Hm). done.
    + destruct Hc as (Hl' & Hcap & [Ha Hm] & Hnt). split_and!; [|done|done].
      destruct Hl' as (l' & Hh & Hlen). by exists v1, l'.
Qed.


(** *** Whole programs *)

Lemma well_formed_vector_of l c : length l <= c -> well_formed (vector_of l c).
Proof. intros. exists l. by apply holds_vector_of. Qed.

Lemma well_formed_default : well_formed (Vector_default (T := T)).
Proof. by exists []. Qed.

Lemma Emplace_behaviour_never_throws (v : Vector T) l pos args w :
  never_throws -> holds v l ->
  match Emplace pos args v w with
  | Normal v' _ w' => well_formed v' /\ misuses w' = misuses w
  | Throws _ _ => False
  | Fault => True
  end.
Proof.
  intros Hnt Hv. destruct (holds_buffer v l Hv) as (Hb & Hs & Hl).
  destruct (decide (pos <= length l)) as [Hpos|Hpos].
  2:{ unfold Emplace. by rewrite decide_False by lia. }
  assert (length (take pos l ++ construct_from args :: drop pos l) = S (length l)) as Hlen by lens.
  destruct (decide (size_ v < capacity_ (data_ v))) as [Hspare|Hfull].
  - destruct (Emplace_spare_spec v l pos args w Hnt Hv Hspare Hpos) as [w' He].
    pose proof (Emplace_spare_behaviour v l pos args w Hv Hspare Hpos) as Hm.
    rewrite He in *. split; [|by destruct Hm as (_ & ? & _)].
    apply well_formed_vector_of. lia.
  - assert (size_ v = capacity_ (data_ v)) as Hfull' by lia.
    pose proof (Emplace_grow_spec v l pos args w Hv Hfull' Hpos) as Hg.
    pose proof (Emplace_grow_normal_quiet v l pos args w Hv Hfull' Hpos) as Hm.
    destruct (Emplace pos args v w) as [v' i w'|v' w'|]; [| |done].
    + destruct Hg as (-> & _). split; [|done]. apply well_formed_vector_of. lia.
    + by destruct Hg as (_ & _ & _ & ?).
Qed.

Lemma run_call_never_throws c (st : gmap nat (Vector T)) w :
  never_throws -> map_Forall (fun _ => well_formed) st ->
  match run_call c st w with
  | Normal st' _ w' => map_Forall (fun _ => well_formed) st' /\ misuses w' = misuses w
  | Throws _ _ => False
  | Fault => True
  end.
Proof.
  intros Hnt Hst.
  assert (forall a v, st !! a = Some v -> exists l, holds v l) as Hwf.
  { intros a v Ha. exact (Hst a v Ha). }
  destruct c; cbn [run_call].
  - destruct (st !! a); [done|]. split; [|done].
    apply map_Forall_insert_2; [apply well_formed_default|done].
  - destruct (st !! a); [done|]. pose proof (Vector_sized_behaviour size w) as Hs.
    destruct (Vector_sized size w) as [[] v w'|[] w'|]; [| |done].
    + destruct Hs as (-> & _ & Hm). split; [|done]. apply map_Forall_insert_2; [|done].
      apply well_formed_vector_of. lens.
    + by destruct Hs.
  - destruct (st !! a); [done|]. destruct (st !! other) as [o|] eqn:Ho; [|done].
    destruct (Hwf _ _ Ho) as [lo Hlo].
    pose proof (Vector_copy_behaviour o lo w Hlo) as Hs.
    destruct (Vector_copy o w) as [[] v w'|[] w'|]; [| |done].
    + destruct Hs as (-> & _ & _ & Hm). split; [|done]. apply map_Forall_insert_2; [|done].
      by apply well_formed_vector_of.
    + by destruct Hs.
  - unfold move_construct, no_throw, Swap. destruct (st !! a) eqn:Ha; [done|].
    rewrite lookup_insert_eq.
    destruct (decide (a = other)) as [<-|Hne].
    + rewrite lookup_insert_eq, Vector_Swap_eq. split; [|done].
      repeat apply map_Forall_insert_2; try done; apply well_formed_default.
    + rewrite lookup_insert_ne by done. destruct (st !! other) as [o|] eqn:Ho; [|done].
      rewrite Vector_Swap_eq. split; [|done].
      repeat apply map_Forall_insert_2; try done;
        first [exact (Hst _ _ Ho)|apply well_formed_default].
  - destruct (st !! a) as [v|] eqn:Ha; [|done]. destruct (Hwf _ _ Ha) as [l Hl].
    rewrite (Vector_dtor_behaviour v l w Hl). split; [by apply map_Forall_delete|].
    destruct (_ =? _); simpl; by rewrite misuses_destroys.
  - destruct (decide (a = other)) as [<-|Hne].
    + unfold copy_assign. destruct (st !! a) as [v|] eqn:Ha; [|done].
      rewrite decide_False by (intros ?; done). split; [|done].
      apply map_Forall_insert_2; [|done]. destruct v. exact (Hst _ _ Ha).
    + destruct (st !! a) as [v|] eqn:Ha.
      2:{ unfold copy_assign. by rewrite Ha. }
      destruct (st !! other) as [o|] eqn:Ho.
      2:{ unfold copy_assign. by rewrite Ha, Ho. }
      destruct (Hwf _ _ Ha) as [lv Hlv]. destruct (Hwf _ _ Ho) as [lo Hlo].
      pose proof (copy_assign_behaviour a other st v o lv lo w Hne Ha Ho Hlv Hlo) as Hs.
      destruct (copy_assign a other st w) as [st' [] w'|st' w'|]; [| |done].
      * destruct Hs as (-> & _ & Hm). split; [|done]. apply map_Forall_insert_2; [|done].
        apply well_formed_vector_of. destruct (holds_buffer o lo Hlo) as (_ & _ & ?).
        destruct (Nat.ltb_spec (capacity_ (data_ v)) (length lo)); lia.
      * by destruct Hs as (_ & _ & ?).
  - unfold move_assign, no_throw, Swap. destruct (st !! a) as [v|] eqn:Ha; [|done].
    destruct (st !! other) as [o|] eqn:Ho; [|done].
    destruct (decide (a <> other)); [|done].
    rewrite Vector_Swap_eq. split; [|done].
    repeat apply map_Forall_insert_2; try done;
      first [exact (Hst _ _ Ho)|exact (Hst _ _ Ha)].
  - unfold on_object. destruct (st !! a) as [v|] eqn:Ha; [|done]. destruct (Hwf _ _ Ha) as [l Hl].
    pose proof (Reserve_behaviour v l new_capacity w Hl) as Hs.
    destruct (Reserve new_capacity v w) as [v' [] w'|v' w'|]; [| |done].
    + destruct Hs as (-> & Hm). split; [|done]. apply map_Forall_insert_2; [|done].
      apply well_formed_vector_of. destruct (holds_buffer v l Hl) as (_ & _ & ?). lia.
    + by destruct Hs as (_ & _ & _ & ?).
  - unfold on_object. destruct (st !! a) as [v|] eqn:Ha; [|done]. destruct (Hwf _ _ Ha) as [l Hl].
    pose proof (Resize_behaviour v l new_size w Hl) as Hs.
    destruct (Resize new_size v w) as [v' [] w'|v' w'|]; [| |done].
    + destruct Hs as (-> & Hm). split; [|done]. apply map_Forall_insert_2; [|done].
      apply well_formed_vector_of. destruct (holds_buffer v l Hl) as (_ & _ & ?). lens.
    + by destruct Hs as (_ & _ & _ & ?).
  - unfold on_object, PushBack. destruct (st !! a) as [v|] eqn:Ha; [|done].
    destruct (Hwf _ _ Ha) as [l Hl].
    pose proof (EmplaceBack_behaviour v l args w Hl) as Hs.
    destruct (EmplaceBack args v w) as [v' i w'|v' w'|]; [| |done].
    + destruct Hs as (-> & _ & _ & Hm). split; [|done]. apply map_Forall_insert_2; [|done].
      apply well_formed_vector_of. destruct (holds_buffer v l Hl) as (_ & Hsz & ?).
      destruct (Nat.ltb_spec (size_ v) (capacity_ (data_ v))); lens.
    + by destruct Hs.
  - unfold on_object, drop_value. destruct (st !! a) as [v|] eqn:Ha; [|done].
    destruct (Hwf _ _ Ha) as [l Hl].
    pose proof (EmplaceBack_behaviour v l args w Hl) as Hs.
    destruct (EmplaceBack args v w) as [v' i w'|v' w'|]; [| |done].
    + destruct Hs as (-> & _ & _ & Hm). split; [|done]. apply map_Forall_insert_2; [|done].
      apply well_formed_vector_of. destruct (holds_buffer v l Hl) as (_ & Hsz & ?).
      destruct (Nat.ltb_spec (size_ v) (capacity_ (data_ v))); lens.
    + by destruct Hs.
  - destruct (st !! a) as [v|] eqn:Ha; [|done]. destruct (Hwf _ _ Ha) as [l Hl].
    rewrite (PopBack_behaviour v l w Hl).
    destruct l as [|x l _] using rev_ind; [done|]. rewrite reverse_snoc, removelast_last.
    split; [|done]. apply map_Forall_insert_2; [|done].
    apply well_formed_vector_of. destruct (holds_buffer _ _ Hl) as (_ & _ & ?).
    rewrite length_app in *. lia.
  - unfold on_object, drop_value. destruct (st !! a) as [v|] eqn:Ha; [|done].
    destruct (Hwf _ _ Ha) as [l Hl].
    pose proof (Emplace_behaviour_never_throws v l pos args w Hnt Hl) as Hs.
    destruct (Emplace pos args v w) as [v' i w'|v' w'|]; [|done|done].
    destruct Hs as [Hw Hm]. split; [|done]. by apply map_Forall_insert_2.
  - unfold on_object, drop_value, Insert. destruct (st !! a) as [v|] eqn:Ha; [|done].
    destruct (Hwf _ _ Ha) as [l Hl].
    pose proof (Emplace_behaviour_never_throws v l pos args w Hnt Hl) as Hs.
    destruct (Emplace pos args v w) as [v' i w'|v' w'|]; [|done|done].
    destruct Hs as [Hw Hm]. split; [|done]. by apply map_Forall_insert_2.
  - unfold on_object, drop_value. destruct (st !! a) as [v|] eqn:Ha; [|done].
    destruct (Hwf _ _ Ha) as [l Hl].
    pose proof (Erase_behaviour v l pos w Hl) as Hs.
    destruct (Erase pos v w) as [v' i w'|v' w'|]; [| |done].
    + destruct Hs as (Hpos & -> & _ & Hm). split; [|done]. apply map_Forall_insert_2; [|done].
      apply well_formed_vector_of. destruct (holds_buffer v l Hl) as (_ & _ & ?). lens.
    + by destruct Hs as (_ & _ & _ & _ & ?).
  - unfold no_throw, Swap. destruct (st !! a) as [v|] eqn:Ha; [|done].
    destruct (st !! other) as [o|] eqn:Ho; [|done].
    rewrite Vector_Swap_eq. split; [|done].
    repeat apply map_Forall_insert_2; try done;
      first [exact (Hst _ _ Ho)|exact (Hst _ _ Ha)].
Qed.

(** X17.  For an element type whose operations and allocations do not
    throw: from well-formed vectors, after any sequence of calls of the
    interface in which the byte count of every request chosen by the caller
    ([Vector(size)], [Reserve], [Resize]) does not wrap, every vector of the
    program is well formed, no destructor has run on a slot holding no
    object, no block was released with an object alive in it, and no
    further such call exits with an exception. *)
Theorem programs_that_never_throw_misuse_nothing (st0 st : gmap nat (Vector T)) w0 w :
  never_throws -> map_Forall (fun _ => well_formed) st0 ->
  reachable_size_t st0 w0 st w ->
  map_Forall (fun _ => well_formed) st /\ misuses w = misuses w0 /\
  forall c st' w', call_fits c -> run_call_size_t c st w <> Throws st' w'.
Proof.
  intros Hnt Hst0 Hr.
  assert (map_Forall (fun _ => well_formed) st /\ misuses w = misuses w0) as [Hwf Hm].
  { induction Hr as [|c st w st' w' Hr [IH1 IH2] Hf Hc|c st w st' w' Hr [IH1 IH2] Hf Hc].
    - done.
    - rewrite run_call_size_t_fits in Hc by done.
      pose proof (run_call_never_throws c st w Hnt IH1) as Hs. rewrite Hc in Hs.
      destruct Hs. split; [done|congruence].
    - rewrite run_call_size_t_fits in Hc by done.
      pose proof (run_call_never_throws c st w Hnt IH1) as Hs. by rewrite Hc in Hs. }
  split_and!; [done|done|].
  intros c st' w' Hf Hc. rewrite run_call_size_t_fits in Hc by done.
  pose proof (run_call_never_throws c st w Hnt Hwf) as Hs. by rewrite Hc in Hs.
Qed.


(** *** Swap *)

(** X5.  [a.Swap(b)] exchanges the two objects and touches no other; it is
    symmetric in [a] and [b], and a second [Swap] restores the program
    state.  Swapping an object with itself changes nothing. *)
Theorem Swap_exchanges_and_undoes_itself (st : gmap nat (Vector T)) (a b : nat) va vb :
  st !! a = Some va -> st !! b = Some vb ->
  exists st',
    Swap a b st = Some st' /\
    st' !! a = Some vb /\ st' !! b = Some va /\
    (forall c, c <> a -> c <> b -> st' !! c = st !! c) /\
    Swap b a st = Some st' /\
    Swap a b st' = Some st.
Proof.
  intros Ha Hb. unfold Swap. rewrite Ha, Hb, !Vector_Swap_eq.
  exists (<[a := vb]> (<[b := va]> st)).
  destruct (decide (a = b)) as [<-|Hne].
  - assert (vb = va) as -> by congruence.
    rewrite insert_insert_eq, lookup_insert_eq, Vector_Swap_eq, insert_insert_eq.
    split_and!; try done.
    + intros c Hc _. by rewrite lookup_insert_ne.
    + by rewrite insert_insert_eq, insert_id.
  - rewrite lookup_insert_eq, lookup_insert_ne, lookup_insert_eq by done.
    rewrite Vector_Swap_eq.
    split_and!; try done.
    + intros c Hca Hcb. by rewrite !lookup_insert_ne.
    + by rewrite insert_insert_ne.
    + f_equal. rewrite (insert_insert_ne _ a b), insert_insert_eq by done.
      rewrite (insert_insert_ne _ b a), insert_insert_eq by done.
      by rewrite !insert_id by (by rewrite ?lookup_insert_ne).
Qed.

(** *** Repeated PushBack *)

Lemma push_all_snoc xs a : forall (v : Vector T) w,
  push_all (xs ++ [a]) v w
  = match push_all xs v w with
    | Normal v' _ w' => PushBack a v' w'
    | Throws v' w' => Throws v' w'
    | Fault => Fault
    end.
Proof.
  induction xs as [|x xs IH]; intros v w; simpl.
  - by destruct (PushBack a v w) as [? [] ?| |].
  - destruct (PushBack x v w) as [v' [] w'|v' w'|]; [apply IH|done|done].
Qed.

Lemma PushBack_never_throws (v : Vector T) l args w :
  never_throws -> holds v l ->
  exists w',
    PushBack args v w
    = Normal (vector_of (l ++ [construct_from args])
                (if size_ v <? capacity_ (data_ v) then capacity_ (data_ v)
                 else Nat.max 1 (capacity_ (data_ v) * 2))) tt w' /\
    alloc_requests w'
    = (if size_ v <? capacity_ (data_ v) then [] else [Nat.max 1 (capacity_ (data_ v) * 2)])
      ++ alloc_requests w /\
    transfers w'
    = (if size_ v <? capacity_ (data_ v) then [] else replicate (length l) move_if_noexcept)
      ++ transfers w.
Proof.
  intros Hnt Hv. destruct (holds_buffer v l Hv) as (Hb & Hs & Hl). unfold PushBack.
  destruct (Nat.ltb_spec (size_ v) (capacity_ (data_ v))) as [Hspare|Hfull].
  - pose proof (EmplaceBack_spare_spec v l args w Hv Hspare) as H.
    destruct (EmplaceBack args v w) as [v' i w'|v' w'|]; [|by destruct H as (_ & _ & ?)|done].
    destruct H as (-> & _ & ->). by eexists.
  - assert (size_ v = capacity_ (data_ v)) as Hfull' by lia.
    pose proof (EmplaceBack_grow_spec v l args w Hv Hfull') as H.
    destruct (EmplaceBack args v w) as [v' i w'|v' w'|]; [|by destruct H as (_ & _ & _ & ?)|done].
    destruct H as (-> & _ & Ht & Ha). by eexists.
Qed.

Lemma push_all_from_empty xs w :
  never_throws ->
  exists v' w',
    push_all xs Vector_default w = Normal v' tt w' /\
    match xs with
    | [] => v' = Vector_default /\ w' = w
    | _ :: _ =>
        exists k,
          v' = vector_of (construct_from <$> xs) (2 ^ k) /\
          length xs <= 2 ^ k < 2 * length xs /\
          alloc_requests w' = reverse (Nat.pow 2 <$> seq 0 (S k)) ++ alloc_requests w /\
          transfers w' = replicate (2 ^ k - 1) move_if_noexcept ++ transfers w
    end.
Proof.
  intros Hnt. induction xs as [|a xs IH] using rev_ind.
  - by eexists _, _.
  - destruct IH as (v & w1 & Hp & Hxs). rewrite push_all_snoc, Hp.
    destruct xs as [|x0 xs].
    + destruct Hxs as [-> ->].
      destruct (PushBack_never_throws Vector_default [] a w Hnt) as (w' & -> & Ha & Ht);
        [by split|].
      eexists _, _. split; [done|]. exists 0. simpl in *. split_and!; done || lia.
    + destruct Hxs as (k & -> & Hk & Ha & Ht).
      set (l := construct_from <$> x0 :: xs) in *.
      assert (length l = length (x0 :: xs)) as Hlen by (unfold l; lens).
      destruct (PushBack_never_throws (vector_of l (2 ^ k)) l a w1 Hnt) as (w' & -> & Ha' & Ht');
        [apply holds_vector_of; lia|].
      cbn [vector_of size_ data_ capacity_] in *.
      eexists _, _. split; [done|].
      change ((x0 :: xs) ++ [a]) with (x0 :: (xs ++ [a])).
      change (x0 :: (xs ++ [a])) with ((x0 :: xs) ++ [a]).
      rewrite fmap_app. fold l. cbn [fmap list_fmap].
      assert (length ((x0 :: xs) ++ [a]) = S (length l)) as Hlen' by (rewrite length_app; simpl in *; lia).
      rewrite Hlen'.
      destruct (Nat.ltb_spec (length l) (2 ^ k)) as [Hspare|Hfull].
      * exists k. split_and!; [done|lia|lia|by rewrite Ha', Ha|by rewrite Ht', Ht].
      * exists (S k). rewrite Nat.pow_succ_r'.
        assert (length l = 2 ^ k) as Hfull' by lia.
        split_and!.
        -- f_equal. lia.
        -- lia.
        -- lia.
        -- rewrite Ha', Ha. rewrite (seq_S (S k)), fmap_app, reverse_app, <- app_assoc.
           f_equal. cbn [fmap list_fmap reverse rev_append Nat.add].
           change (reverse [2 ^ S k]) with [2 ^ S k].
           rewrite Nat.pow_succ_r'. f_equal. lia.
        -- rewrite Ht', Ht, app_assoc, <- replicate_add. do 2 f_equal. lia.
Qed.

(** X16.  Growth by doubling.  For an element type that does not throw,
    pushing a non-empty list [xs] of arguments into an empty vector returns;
    the vector holds the elements built from [xs], its capacity is a power of
    two [2 ^ k] with [length xs <= 2 ^ k < 2 * length xs], the allocation
    requests were for 1, 2, 4, ..., [2 ^ k] slots and in all [2 ^ k - 1]
    elements were relocated. *)
Theorem repeated_PushBack_doubles_capacity (xs : list Args) w :
  never_throws -> xs <> [] ->
  exists k w',
    push_all xs Vector_default w = Normal (vector_of (construct_from <$> xs) (2 ^ k)) tt w' /\
    length xs <= 2 ^ k < 2 * length xs /\
    alloc_requests w' = reverse (Nat.pow 2 <$> seq 0 (S k)) ++ alloc_requests w /\
    transfers w' = replicate (2 ^ k - 1) move_if_noexcept ++ transfers w.
Proof.
  intros Hnt Hne. destruct (push_all_from_empty xs w Hnt) as (v' & w' & Hp & Hxs).
  destruct xs as [|x xs]; [done|]. destruct Hxs as (k & -> & ? & ? & ?).
  by exists k, w'.
Qed.


(** *** The failure path of the growing EmplaceBack *)

Lemma destroy_n_raw n : forall (d1 d3 : list (option T)) w,
  destroy_n (d1 ++ replicate n None ++ d3) (length d1) n w
  = Some (d1 ++ replicate n None ++ d3, replicate n DestroyDead ++ w).
Proof.
  induction n as [|n IH]; intros d1 d3 w; [done|].
  cbn [destroy_n replicate app]. unfold destroy_at. rewrite list_lookup_middle by done.
  specialize (IH (d1 ++ [None]) d3 (DestroyDead :: w)).
  rewrite length_app, <- app_assoc in IH. simpl in IH. rewrite Nat.add_1_r in IH.
  rewrite IH. do 2 f_equal.
  change (DestroyDead :: replicate n DestroyDead ++ w)
    with (replicate (S n) (@DestroyDead T Args) ++ w).
  by rewrite replicate_S_end, <- app_assoc.
Qed.

Lemma misuses_dead_destroys n w : misuses (replicate n DestroyDead ++ w) = n + misuses w.
Proof.
  induction n as [|n IH]; [done|]. cbn [replicate app]. rewrite misuses_cons, IH. simpl. lia.
Qed.

Lemma misuses_Deallocate_one n m (x : T) w :
  misuses (Deallocate (replicate n None ++ Some x :: replicate m None) w) = 1 + misuses w.
Proof.
  assert (omap id (replicate n None ++ Some x :: replicate m None) = [x]) as Ho.
  { rewrite omap_app, omap_id_raw. exact (omap_id_live_raw [x] m). }
  destruct n; cbn [replicate app Deallocate] in *; by rewrite Ho.
Qed.

Lemma raw_prefix_rolled_back k n (d3 : list (option T)) :
  k <= n ->
  [] ++ replicate k None ++ drop k (replicate n None) ++ d3 = replicate n None ++ d3.
Proof.
  intros. simpl. rewrite drop_replicate, app_assoc, <- replicate_add. do 2 f_equal. lia.
Qed.

(** X11.  The failure path of the growing [EmplaceBack] on a full
    well-formed vector.  If it throws before any element was transferred
    (allocation or construction of the new element failed), no slot was
    misused.  If a transfer throws, the new element, already built in the new
    block, is never destroyed (the block is released with it alive), and for
    a type relocated by copying the handler also runs [Size()] destructor
    calls on slots of the new block that hold no object. *)
Theorem growing_EmplaceBack_abandons_new_element_when_transfer_throws (v : Vector T) l args w :
  holds v l -> size_ v = capacity_ (data_ v) ->
  match EmplaceBack args v w with
  | Throws _ w' =>
      (transfers w' = transfers w /\ misuses w' = misuses w) \/
      (transfers w' <> transfers w /\
       misuses w' = misuses w + 1 + (if move_if_noexcept then 0 else length l))
  | _ => True
  end.
Proof.
  intros Hv Hfull. destruct (holds_buffer v l Hv) as (Hb & Hs & Hl).
  unfold EmplaceBack, Capacity.
  rewrite (growth_capacity_max (size_ v) (capacity_ (data_ v)) Hfull).
  destruct (Nat.eqb_spec (size_ v) (capacity_ (data_ v))) as [_|]; [|done].
  set (c := Nat.max 1 (capacity_ (data_ v) * 2)).
  assert (S (length l) <= c) as Hc by lia.
  pose proof (RawMemory_new_spec c w) as Hr.
  destruct (RawMemory_new c w) as [[new_data|] w1].
  2:{ destruct Hr as [-> _]; [lia|]. by left. }
  destruct Hr as [-> ->]; [lia|]. cbn [buffer_ capacity_].
  pose proof (construct_spec (replicate c None) (size_ v) (AConstruct args)
                (construct_from args) (Try (AAlloc c) true :: w)) as Hn.
  destruct (construct _ _ _ _ _) as [nb [] w2|nb w2|]; [| |done].
  2:{ destruct Hn as (-> & -> & _); [lens|]. left.
      destruct (quiet_Deallocate_raw c (Try (AConstruct args) false :: Try (AAlloc c) true :: w))
        as [_ ->]. by rewrite transfers_Deallocate. }
  destruct Hn as [-> ->]; [lens|]. rewrite insert_raw by lia.
  rewrite Hs.
  set (raw := replicate (capacity_ (data_ v) - length l) None) in *.
  assert (forall k (w0 : list (Event T Args)) (b : bool),
            replicate (S k) b ++ transfers w0 <> transfers w0) as Hneq.
  { intros k w0 b H. apply (f_equal length) in H. rewrite length_app, length_replicate in H. lia. }
  destruct move_if_noexcept.
  - match goal with
    | |- context [uninitialized_move_n ?src ?f ?n ?dst ?d ?w0] =>
        opose proof* (uninitialized_move_n_at l [] raw [] (replicate (length l) None)
                        (Some (construct_from args) :: replicate (c - S (length l)) None)
                        src f n dst d w0) as Hm; [done|done|done|done|done|lens|];
        opose proof* (uninitialized_move_n_quiet l [] raw [] (replicate (length l) None)
                        (Some (construct_from args) :: replicate (c - S (length l)) None)
                        src f n dst d w0) as Hq; [done|done|done|done|done|lens|]
    end.
    destruct (uninitialized_move_n _ _ _ _ _ _) as [[old new] [] w3|[old new] w3|]; [|..].
    { unfold destroy_and_swap. by repeat case_match. }
    2:{ done. }
    destruct Hm as (k & Hk & -> & -> & Ht & _). destruct Hq as [_ Hq]. right.
    rewrite raw_prefix_rolled_back by lia. rewrite misuses_Deallocate_one, transfers_Deallocate.
    split; [rewrite Ht; exact (Hneq k w true)|].
    rewrite Hq. unfold misuses; simpl; lia.
  - match goal with
    | |- context [uninitialized_copy_n ?src ?f ?n ?dst ?d ?w0] =>
        opose proof* (uninitialized_copy_n_at l [] raw [] (replicate (length l) None)
                        (Some (construct_from args) :: replicate (c - S (length l)) None)
                        src f n dst d w0) as Hm; [done|done|done|done|done|lens|];
        opose proof* (uninitialized_copy_n_quiet l [] raw [] (replicate (length l) None)
                        (Some (construct_from args) :: replicate (c - S (length l)) None)
                        src f n dst d w0) as Hq; [done|done|done|done|done|lens|]
    end.
    destruct (uninitialized_copy_n _ _ _ _ _ _) as [new [] w3|new w3|]; [|..].
    { unfold destroy_and_swap. by repeat case_match. }
    2:{ done. }
    destruct Hm as (k & Hk & -> & Ht & _). destruct Hq as [_ Hq].
    rewrite raw_prefix_rolled_back by lia.
    rewrite (destroy_n_raw (length l) [] _ w3 : destroy_n (replicate _ None ++ _) 0 _ _ = _).
    right. rewrite (app_nil_l (replicate _ _ ++ _)).
    rewrite misuses_Deallocate_one, transfers_Deallocate.
    split.
    + clear -Ht Hneq. intros H. apply (f_equal length) in H.
      revert H. generalize (length l). intros n.
      assert (forall m w0, transfers (replicate m (@DestroyDead T Args) ++ w0) = transfers w0) as Hd
        by (induction m; simpl; done).
      rewrite Hd, Ht. rewrite length_app, length_replicate. simpl. lia.
    + rewrite misuses_dead_destroys, Hq. unfold misuses; simpl; lia.
Qed.


(** *** Reading, and the growing Emplace *)

(** X6.  On a well-formed vector [Size()] is the number of elements, it is
    at most [Capacity()], and [operator[]] at [index] yields the element at
    that position; it fails its assertion exactly when [index >= Size()]. *)
Theorem subscript_reads_the_elements (v : Vector T) l :
  holds v l ->
  Size v = length l /\ Size v <= Capacity v /\
  forall index, subscript v index = l !! index.
Proof.
  intros Hv. destruct (holds_buffer v l Hv) as (Hb & Hs & Hl).
  split_and!; [done|unfold Size, Capacity; lia|].
  intros index. by apply subscript_holds.
Qed.

(** X13.  [Emplace(pos, args...)] on a full well-formed vector, for any
    element type and [pos <= Size()]: it never faults, and whenever it
    returns the new element stands at [pos] with the old elements around it
    in a block of [max 1 (2 * capacity)] slots, the iterator returned
    designates it, and no slot was misused. *)
Theorem growing_Emplace_inserts_whenever_it_returns (v : Vector T) l pos args w :
  holds v l -> size_ v = capacity_ (data_ v) -> pos <= length l ->
  match Emplace pos args v w with
  | Normal v' i w' =>
      v' = vector_of (take pos l ++ construct_from args :: drop pos l)
             (Nat.max 1 (capacity_ (data_ v) * 2)) /\
      i = pos /\ subscript v' i = Some (construct_from args) /\
      misuses w' = misuses w
  | Throws _ _ => ~ never_throws
  | Fault => False
  end.
Proof.
  intros Hv Hfull Hpos. destruct (holds_buffer v l Hv) as (Hb & Hs & Hl).
  pose proof (Emplace_grow_spec v l pos args w Hv Hfull Hpos) as Hg.
  pose proof (Emplace_grow_normal_quiet v l pos args w Hv Hfull Hpos) as Hm.
  destruct (Emplace pos args v w) as [v' i w'|v' w'|]; [| |done].
  - destruct Hg as (-> & -> & _). split_and!; try done.
    rewrite (subscript_holds _ (take pos l ++ construct_from args :: drop pos l)).
    + rewrite lookup_app_r by lens. rewrite length_take, Nat.min_l by lia.
      by rewrite Nat.sub_diag.
    + apply holds_vector_of. lens.
  - by destruct Hg as (_ & _ & _ & ?).
Qed.

(** *** The calls of the interface, one by one *)

(** X1.  [Vector(size)], for a [size] whose byte count does not wrap, never
    faults.  When it returns, the vector holds [size] value-initialised
    elements in a block of exactly [size] slots, obtained by one allocation
    request (none for [size = 0]).  When it throws, an element operation or
    the allocation threw.  On both exits no slot was misused: what was built
    before the exception was destroyed, and the block was released empty. *)
Theorem sized_constructor_value_initialises (size : nat) w :
  request_fits size ->
  match Vector_sized_size_t size w with
  | Normal _ v w' =>
      v = vector_of (replicate size value_init) size /\
      alloc_requests w' = (if size =? 0 then [] else [size]) ++ alloc_requests w /\
      misuses w' = misuses w
  | Throws _ w' => misuses w' = misuses w /\ ~ never_throws
  | Fault => False
  end.
Proof. intros Hfit. rewrite Vector_sized_size_t_fits by done. apply Vector_sized_behaviour. Qed.

(** X2.  [Vector(const Vector& other)] on a well-formed [other] never
    faults.  When it returns, the new vector holds the elements of [other],
    each built by one copy construction, in a block of exactly
    [other.Size()] slots ([other.Capacity()] is not kept).  On both exits no
    slot was misused. *)
Theorem copy_constructor_copies_to_fit (other : Vector T) l w :
  holds other l ->
  match Vector_copy other w with
  | Normal _ v w' =>
      v = vector_of l (length l) /\
      transfers w' = replicate (length l) false ++ transfers w /\
      alloc_requests w' = (if length l =? 0 then [] else [length l]) ++ alloc_requests w /\
      misuses w' = misuses w
  | Throws _ w' => misuses w' = misuses w /\ ~ never_throws
  | Fault => False
  end.
Proof. apply Vector_copy_behaviour. Qed.

(** X3.  The destructor of a well-formed vector destroys each of its
    elements exactly once, first to last, and then releases the block with no
    object left in it; no release is made for a vector of capacity 0. *)
Theorem destructor_destroys_each_element_once (v : Vector T) l w :
  holds v l ->
  Vector_dtor v w
  = Some ((if capacity_ (data_ v) =? 0 then [] else [Free []]) ++ (Destroy <$> reverse l) ++ w).
Proof. apply Vector_dtor_behaviour. Qed.

(** X4.  [a = b] for distinct well-formed vectors never faults.  When it
    returns, [a] holds the elements of [b]; if they fit in the block of [a]
    the capacity is kept and nothing is allocated, otherwise the new block
    has exactly [b.Size()] slots and that is the one allocation request.
    When it throws on the reallocating path no object of the program has
    changed; on the other path [a] is still well formed with the size and
    the capacity it had.  On both exits no slot was misused. *)
Theorem copy_assignment_copies_elements (this other : nat) (st : gmap nat (Vector T))
    (v o : Vector T) lv lo w :
  this <> other -> st !! this = Some v -> st !! other = Some o ->
  holds v lv -> holds o lo ->
  match copy_assign this other st w with
  | Normal st' _ w' =>
      st' = <[this := vector_of lo (if capacity_ (data_ v) <? length lo then length lo
                                    else capacity_ (data_ v))]> st /\
      alloc_requests w'
      = (if capacity_ (data_ v) <? length lo then [length lo] else []) ++ alloc_requests w /\
      misuses w' = misuses w
  | Throws st' w' =>
      (if capacity_ (data_ v) <? length lo then st' = st
       else exists v' l', st' = <[this := v']> st /\ holds v' l' /\ length l' = length lv /\
                          capacity_ (data_ v') = capacity_ (data_ v)) /\
      misuses w' = misuses w /\ ~ never_throws
  | Fault => False
  end.
Proof. apply copy_assign_behaviour. Qed.

(** X7.  [Reserve(new_capacity)] on a well-formed vector, for a request that
    is within the capacity or whose byte count does not wrap, never faults.
    When it returns, the vector holds the same elements and its capacity is
    the larger of the old capacity and [new_capacity].  When it throws, the
    vector is still well formed with as many elements and the capacity it
    had, and for a type relocated by copying it is exactly the vector before
    the call.  On both exits no slot was misused. *)
Theorem Reserve_keeps_elements (v : Vector T) l new_capacity w :
  holds v l -> (capacity_ (data_ v) < new_capacity -> request_fits new_capacity) ->
  match Reserve_size_t new_capacity v w with
  | Normal v' _ w' =>
      v' = vector_of l (Nat.max (capacity_ (data_ v)) new_capacity) /\ misuses w' = misuses w
  | Throws v' w' =>
      (exists l', holds v' l' /\ length l' = length l) /\
      (move_if_noexcept = false -> v' = v) /\
      capacity_ (data_ v') = capacity_ (data_ v) /\ misuses w' = misuses w /\ ~ never_throws
  | Fault => False
  end.
Proof.
  intros Hv Hfit. rewrite Reserve_size_t_fits by done.
  pose proof (Reserve_behaviour v l new_capacity w Hv) as H.
  destruct (decide (new_capacity <= capacity_ (data_ v))) as [Hle|Hgt].
  - unfold Reserve in *. by destruct (Nat.leb_spec new_capacity (capacity_ (data_ v))); [|lia].
  - opose proof* (Reserve_grow_spec v l new_capacity w Hv) as Hg; [lia|].
    destruct (Reserve new_capacity v w) as [v' [] w'|v' w'|]; [done| |done].
    destruct H as (? & ? & ? & ?). destruct Hg as (? & _). done.
Qed.

(** X8.  [Resize(new_size)] on a well-formed vector, for a [new_size] that
    is within the capacity or whose byte count does not wrap, never faults.
    When it returns, the vector holds the first [new_size] old elements
    followed by [new_size - Size()] value-initialised ones, in a block of
    [max capacity new_size] slots.  It throws only when growing, and then the
    vector is still well formed with as many elements as before (the same
    elements, for a type relocated by copying).  On both exits no slot was
    misused. *)
Theorem Resize_rolls_back_and_misuses_nothing (v : Vector T) l n w :
  holds v l -> (capacity_ (data_ v) < n -> request_fits n) ->
  match Resize_size_t n v w with
  | Normal v' _ w' =>
      v' = vector_of (take n l ++ replicate (n - length l) value_init)
             (Nat.max (capacity_ (data_ v)) n) /\
      misuses w' = misuses w
  | Throws v' w' =>
      length l <= n /\
      (exists l', holds v' l' /\ length l' = length l /\ (move_if_noexcept = false -> l' = l)) /\
      misuses w' = misuses w /\ ~ never_throws
  | Fault => False
  end.
Proof. intros Hv Hfit. rewrite Resize_size_t_fits by done. by apply Resize_behaviour. Qed.

(** X9.  [PopBack] on a well-formed vector fails its assertion exactly when
    the vector is empty; otherwise it destroys the last element, and only
    that one, and keeps the other elements and the capacity. *)
Theorem PopBack_removes_last (v : Vector T) l w :
  holds v l ->
  PopBack v w
  = match reverse l with
    | [] => None
    | x :: _ => Some (vector_of (removelast l) (capacity_ (data_ v)), Destroy x :: w)
    end.
Proof. apply PopBack_behaviour. Qed.

(** X10.  [EmplaceBack(args...)] on a well-formed vector never faults.  When
    it returns, the vector holds the old elements followed by the new one,
    the reference returned designates the new last element, the capacity is
    unchanged if there was room and [max 1 (2 * capacity)] otherwise, and no
    slot was misused.  When it throws with room to spare, the vector is the
    one before the call. *)
Theorem EmplaceBack_appends_and_returns_its_index (v : Vector T) l args w :
  holds v l ->
  match EmplaceBack args v w with
  | Normal v' i w' =>
      v' = vector_of (l ++ [construct_from args])
             (if size_ v <? capacity_ (data_ v) then capacity_ (data_ v)
              else Nat.max 1 (capacity_ (data_ v) * 2)) /\
      i = length l /\ subscript v' i = Some (construct_from args) /\
      misuses w' = misuses w
  | Throws v' _ => (size_ v < capacity_ (data_ v) -> v' = v) /\ ~ never_throws
  | Fault => False
  end.
Proof. apply EmplaceBack_behaviour. Qed.

(** X12.  [Emplace(pos, args...)] with spare capacity, for any element type.
    It never faults for [pos <= Size()].  When it returns, the iterator is
    [pos] and either the new element stands at [pos] with the old elements
    around it, or the move assignment from the temporary threw and was
    swallowed (the history ends with that failed assignment, the destruction
    of the slot and of the temporary).  When it throws, the vector is still
    well formed with as many elements as before, those before [pos]
    untouched, and the same capacity.  On every exit no slot was misused. *)
Theorem Emplace_with_spare_capacity (v : Vector T) l pos args w :
  holds v l -> size_ v < capacity_ (data_ v) -> pos <= length l ->
  match Emplace pos args v w with
  | Normal v' i w' =>
      i = pos /\ misuses w' = misuses w /\
      (v' = vector_of (take pos l ++ construct_from args :: drop pos l) (capacity_ (data_ v)) \/
       exists d w'',
         w' = Destroy (construct_from args) :: Destroy d
              :: Try (AMoveAssign d (construct_from args)) false :: w'')
  | Throws v' w' =>
      (exists l', holds v' l' /\ length l' = length l /\ take pos l' = take pos l) /\
      capacity_ (data_ v') = capacity_ (data_ v) /\ misuses w' = misuses w /\ ~ never_throws
  | Fault => False
  end.
Proof. apply Emplace_spare_behaviour. Qed.

(** X14.  [Erase(pos)] on a well-formed vector fails its assertion exactly
    when [pos] is not the position of an element.  When it returns, the
    element at [pos] is gone, the others keep their order, the capacity is
    unchanged and the iterator returned is [pos].  When a move assignment
    throws, the vector is still well formed with as many elements as before,
    those before [pos] untouched.  On both exits no slot was misused. *)
Theorem Erase_shifts_left (v : Vector T) l pos w :
  holds v l ->
  match Erase pos v w with
  | Normal v' i w' =>
      pos < length l /\
      v' = vector_of (take pos l ++ drop (S pos) l) (capacity_ (data_ v)) /\ i = pos /\
      misuses w' = misuses w
  | Throws v' w' =>
      pos < length l /\
      (exists l', holds v' l' /\ length l' = length l /\ take pos l' = take pos l) /\
      capacity_ (data_ v') = capacity_ (data_ v) /\ misuses w' = misuses w /\ ~ never_throws
  | Fault => length l <= pos
  end.
Proof. apply Erase_behaviour. Qed.

End MoreProofs.

(** ** Constructions and destructions balance *)

Section Ledger.
Context {T Args : Type} `{E : ElementType T Args}.
Implicit Types (b src dst : list (option T)) (l : list T) (w : list (Event T Args)).
Hypothesis Hnt : never_throws.

Lemma tally_refl w : tally w w 0 0.
Proof. done. Qed.

Lemma tally_trans w1 w2 w3 c1 d1 c2 d2 :
  tally w1 w2 c1 d1 -> tally w2 w3 c2 d2 -> tally w1 w3 (c1 + c2) (d1 + d2).
Proof. unfold tally. intros [] []. lia. Qed.

Lemma construct_tally b i a x w :
  constructed (Try a true) = 1 -> tallies w 1 0 (construct b i a x w).
Proof.
  intros Ha. unfold construct. case_decide; [|done]. rewrite attempt_ok by done.
  split; [|done]. unfold constructions. cbn [sum_list_with]. by rewrite Ha.
Qed.

Lemma copy_construct_loop_tally n : forall src first dst cur w,
  tallies w n 0 (copy_construct_loop src first n dst cur w).
Proof.
  induction n as [|n IH]; intros; simpl; [done|].
  destruct (src !! first) as [[x|]|]; try done.
  pose proof (construct_tally dst cur (ACopyCtor x) x w eq_refl) as Hc.
  destruct (construct _ _ _ _ _) as [dst' [] w'|dst' w'|]; try done.
  specialize (IH src (S first) dst' (S cur) w').
  destruct (copy_construct_loop _ _ _ _ _ _); try done; simpl in *.
  unfold tally in *. lia.
Qed.

Lemma move_construct_loop_tally n : forall src first dst cur w,
  tallies w n 0 (move_construct_loop src first n dst cur w).
Proof.
  induction n as [|n IH]; intros; simpl; [done|].
  destruct (src !! first) as [[x|]|]; try done.
  pose proof (construct_tally dst cur (AMoveCtor x) x w eq_refl) as Hc.
  destruct (construct _ _ _ _ _) as [dst' [] w'|dst' w'|]; try done.
  specialize (IH (<[first := Some (moved_from x)]> src) (S first) dst' (S cur) w').
  destruct (move_construct_loop _ _ _ _ _ _); try done; simpl in *.
  unfold tally in *. lia.
Qed.

Lemma value_construct_loop_tally n : forall b cur w,
  tallies w n 0 (value_construct_loop b cur n w).
Proof.
  induction n as [|n IH]; intros; simpl; [done|].
  pose proof (construct_tally b cur AValueInit value_init w eq_refl) as Hc.
  destruct (construct _ _ _ _ _) as [b' [] w'|b' w'|]; try done.
  specialize (IH b' (S cur) w').
  destruct (value_construct_loop _ _ _ _); try done; simpl in *.
  unfold tally in *. lia.
Qed.

Lemma uninitialized_copy_n_tally src first n dst d_first w :
  tallies w n 0 (uninitialized_copy_n src first n dst d_first w).
Proof.
  unfold uninitialized_copy_n. pose proof (copy_construct_loop_tally n src first dst d_first w) as H.
  by destruct (copy_construct_loop _ _ _ _ _ _) as [[] [] ?|[] ?|].
Qed.

Lemma uninitialized_move_n_tally src first n dst d_first w :
  tallies w n 0 (uninitialized_move_n src first n dst d_first w).
Proof.
  unfold uninitialized_move_n. pose proof (move_construct_loop_tally n src first dst d_first w) as H.
  by destruct (move_construct_loop _ _ _ _ _ _) as [[[] ?] [] ?|[[] ?] ?|].
Qed.

Lemma uninitialized_value_construct_n_tally b first n w :
  tallies w n 0 (uninitialized_value_construct_n b first n w).
Proof.
  unfold uninitialized_value_construct_n. pose proof (value_construct_loop_tally n b first w) as H.
  by destruct (value_construct_loop _ _ _ _) as [[] [] ?|[] ?|].
Qed.

Lemma copy_assign_slot_tally src i dst j w : tallies w 0 0 (copy_assign_slot src i dst j w).
Proof.
  unfold copy_assign_slot. destruct (src !! i) as [[s|]|]; try done.
  destruct (dst !! j) as [[d|]|]; try done. by rewrite attempt_ok by done.
Qed.

Lemma std_copy_tally src first last dst d_first w :
  tallies w 0 0 (std_copy src first last dst d_first w).
Proof.
  unfold std_copy. generalize (last - first). intros n. revert first dst d_first w.
  induction n as [|n IH]; intros; simpl; [done|].
  pose proof (copy_assign_slot_tally src first dst d_first w) as Hc.
  destruct (copy_assign_slot _ _ _ _ _) as [dst' [] w'|dst' w'|]; try done.
  specialize (IH (S first) dst' (S d_first) w').
  destruct (std_copy_loop _ _ _ _ _ _); try done; simpl in *. unfold tally in *. lia.
Qed.

Lemma move_assign_slot_tally b from to w : tallies w 0 0 (move_assign_slot b from to w).
Proof.
  unfold move_assign_slot. destruct (b !! from) as [[s|]|]; try done.
  destruct (b !! to) as [[d|]|]; try done. by rewrite attempt_ok by done.
Qed.

Lemma std_move_tally b first last d_first w : tallies w 0 0 (std_move b first last d_first w).
Proof.
  unfold std_move. generalize (last - first). intros n. revert b first d_first w.
  induction n as [|n IH]; intros; simpl; [done|].
  pose proof (move_assign_slot_tally b first d_first w) as Hc.
  destruct (move_assign_slot _ _ _ _) as [b' [] w'|b' w'|]; try done.
  specialize (IH b' (S first) (S d_first) w').
  destruct (std_move_loop _ _ _ _ _); try done; simpl in *. unfold tally in *. lia.
Qed.

Lemma std_move_backward_tally b first last d_last w :
  tallies w 0 0 (std_move_backward b first last d_last w).
Proof.
  unfold std_move_backward. generalize (last - first). intros n. revert b d_last w.
  induction n as [|n IH]; intros; simpl; [done|].
  destruct d_last as [|d']; [done|].
  pose proof (move_assign_slot_tally b (first + n) d' w) as Hc.
  destruct (move_assign_slot _ _ _ _) as [b' [] w'|b' w'|]; try done.
  specialize (IH b' d' w').
  destruct (std_move_backward_loop _ _ _ _ _); try done; simpl in *. unfold tally in *. lia.
Qed.

Lemma move_construct_within_tally b from to w :
  tallies w 1 0 (move_construct_within b from to w).
Proof.
  unfold move_construct_within. destruct (b !! from) as [[x|]|]; try done.
  pose proof (construct_tally b to (AMoveCtor x) x w eq_refl) as Hc.
  by destruct (construct _ _ _ _ _) as [b' [] w'|b' w'|].
Qed.

Lemma destroy_n_tally n : forall b first w b' w',
  destroy_n b first n w = Some (b', w') -> tally w w' 0 n.
Proof.
  induction n as [|n IH]; intros b first w b' w'; simpl; [by intros [= <- <-]|].
  unfold destroy_at. destruct (b !! first) as [[x|]|]; [| |done]; intros H;
    apply IH in H; unfold tally, constructions, destructor_calls in *; simpl in *; lia.
Qed.

Lemma tally_Deallocate b w : tally w (Deallocate b w) 0 0.
Proof. by destruct b. Qed.

Lemma RawMemory_new_tally n w :
  exists d w1, RawMemory_new (T := T) n w = (Some d, w1) /\ tally w w1 0 0.
Proof.
  unfold RawMemory_new, Allocate. destruct (n =? 0); [by eexists _, _|].
  rewrite attempt_ok by done. by eexists _, _.
Qed.

Lemma constructions_cons e w : constructions (e :: w) = constructed e + constructions w.
Proof. done. Qed.

Lemma destructor_calls_cons e w : destructor_calls (e :: w) = destructed e + destructor_calls w.
Proof. done. Qed.

Lemma constructions_Deallocate b w : constructions (Deallocate b w) = constructions w.
Proof. by destruct b. Qed.

Lemma destructor_calls_Deallocate b w : destructor_calls (Deallocate b w) = destructor_calls w.
Proof. by destruct b. Qed.

Ltac tally_step :=
  match goal with
  | |- context [RawMemory_new ?n ?w] =>
      let H := fresh "Ht" in
      let Hr := fresh "Hr" in
      destruct (RawMemory_new_tally n w) as (? & ? & Hr & H); rewrite Hr
  | |- context [construct ?b ?i ?a ?x ?w] =>
      let H := fresh "Ht" in
      pose proof (construct_tally b i a x w eq_refl) as H;
      destruct (construct b i a x w) as [? [] ?|? ?|]; [|done|done]
  | |- context [move_construct_within ?b ?f ?t ?w] =>
      let H := fresh "Ht" in
      pose proof (move_construct_within_tally b f t w) as H;
      destruct (move_construct_within b f t w) as [? [] ?|? ?|]; [|done|done]
  | |- context [std_move_backward ?b ?f ?l ?d ?w] =>
      let H := fresh "Ht" in
      pose proof (std_move_backward_tally b f l d w) as H;
      destruct (std_move_backward b f l d w) as [? [] ?|? ?|]; [|done|done]
  | |- context [std_move ?b ?f ?l ?d ?w] =>
      let H := fresh "Ht" in
      pose proof (std_move_tally b f l d w) as H;
      destruct (std_move b f l d w) as [? [] ?|? ?|]; [|done|done]
  | |- context [std_copy ?s ?f ?l ?b ?d ?w] =>
      let H := fresh "Ht" in
      pose proof (std_copy_tally s f l b d w) as H;
      destruct (std_copy s f l b d w) as [? [] ?|? ?|]; [|done|done]
  | |- context [uninitialized_value_construct_n ?b ?f ?n ?w] =>
      let H := fresh "Ht" in
      pose proof (uninitialized_value_construct_n_tally b f n w) as H;
      destruct (uninitialized_value_construct_n b f n w) as [? [] ?|? ?|]; [|done|done]
  | |- context [uninitialized_copy_n ?s ?f ?n ?b ?d ?w] =>
      let H := fresh "Ht" in
      pose proof (uninitialized_copy_n_tally s f n b d w) as H;
      destruct (uninitialized_copy_n s f n b d w) as [? [] ?|? ?|]; [|done|done]
  | |- context [uninitialized_move_n ?s ?f ?n ?b ?d ?w] =>
      let H := fresh "Ht" in
      pose proof (uninitialized_move_n_tally s f n b d w) as H;
      destruct (uninitialized_move_n s f n b d w) as [[? ?] [] ?|[? ?] ?|]; [|done|done]
  | |- context [destroy_n ?b ?f ?n ?w] =>
      let H := fresh "Ht" in
      destruct (destroy_n b f n w) as [[? ?]|] eqn:H; [apply destroy_n_tally in H|done]
  | |- context [attempt ?a ?w] => rewrite (attempt_ok a w Hnt)
  end.

Ltac tally_close :=
  cbn [balanced tallies size_ data_ with_buffer] in *; unfold tally in *;
  rewrite ?constructions_Deallocate, ?destructor_calls_Deallocate,
    ?constructions_cons, ?destructor_calls_cons in *;
  cbn [constructed destructed] in *; lia.

Lemma Reserve_balanced n (v : Vector T) w : balanced v w (Reserve n v w).
Proof.
  unfold Reserve. destruct (n <=? capacity_ (data_ v)); [done|].
  tally_step. destruct move_if_noexcept; repeat tally_step; tally_close.
Qed.

Lemma Resize_balanced n (v : Vector T) w : balanced v w (Resize n v w).
Proof.
  unfold Resize. destruct (Nat.ltb_spec n (size_ v)).
  - tally_step. tally_close.
  - pose proof (Reserve_balanced n v w) as Hr.
    assert (match Reserve n v w with Normal v1 _ _ => size_ v1 = size_ v | _ => True end) as Hs.
    { unfold Reserve, destroy_and_swap. repeat case_match; try done; by simplify_eq. }
    destruct (Reserve n v w) as [v1 [] w1|v1 w1|]; [|done|done].
    tally_step. tally_close.
Qed.

Lemma EmplaceBack_balanced args (v : Vector T) w : balanced v w (EmplaceBack args v w).
Proof.
  unfold EmplaceBack, destroy_and_swap.
  destruct (size_ v =? Capacity v).
  - tally_step. tally_step. destruct move_if_noexcept; repeat tally_step;
      cbn [data_ size_ capacity_]; case_decide; tally_close.
  - destruct (Nat.ltb_spec (size_ v) (Capacity v)).
    + tally_step. cbn [with_buffer data_ size_ capacity_]. case_decide; tally_close.
    + unfold Capacity in *. cbn [data_ size_ capacity_]. case_decide; [lia|done].
Qed.

Lemma Emplace_balanced pos args (v : Vector T) w : balanced v w (Emplace pos args v w).
Proof.
  unfold Emplace, destroy_and_swap. case_decide; [|done].
  destruct (size_ v <? Capacity v).
  - destruct (pos =? size_ v).
    + tally_step. tally_close.
    + destruct (size_ v =? 0); [done|].
      tally_step. tally_step. tally_step.
      match goal with |- context [?b !! pos] => destruct (b !! pos) as [[d|]|] end;
        [|done|done].
      tally_step. tally_close.
  - tally_step. tally_step. destruct move_if_noexcept.
    + repeat tally_step. tally_close.
    + tally_step. tally_step. tally_step. tally_close.
Qed.

Lemma PopBack_balanced (v v' : Vector T) w w' :
  PopBack v w = Some (v', w') ->
  constructions w' + destructor_calls w + size_ v
  = constructions w + destructor_calls w' + size_ v'.
Proof.
  unfold PopBack. destruct (Nat.eqb_spec (size_ v) 0); [done|].
  tally_step. intros [= <- <-]. tally_close.
Qed.

Lemma Erase_balanced pos (v : Vector T) w : balanced v w (Erase pos v w).
Proof.
  unfold Erase. case_decide; [|done]. tally_step.
  match goal with |- context [PopBack ?v1 ?w1] =>
    destruct (PopBack v1 w1) as [[v' w']|] eqn:Hp end; [|done].
  apply PopBack_balanced in Hp. tally_close.
Qed.

Lemma Vector_sized_tally size w :
  match Vector_sized size w with
  | Normal _ v w' => size_ v = size /\ tally w w' size 0
  | Throws _ _ => False
  | Fault => True
  end.
Proof. unfold Vector_sized. repeat tally_step. split; [done|tally_close]. Qed.

Lemma Vector_copy_tally (other : Vector T) w :
  match Vector_copy other w with
  | Normal _ v w' => size_ v = size_ other /\ tally w w' (size_ other) 0
  | Throws _ _ => False
  | Fault => True
  end.
Proof. unfold Vector_copy. repeat tally_step. split; [done|tally_close]. Qed.

Lemma Vector_dtor_tally (v : Vector T) w w' :
  Vector_dtor v w = Some w' -> tally w w' 0 (size_ v).
Proof. unfold Vector_dtor. tally_step. intros [= <-]. tally_close. Qed.

Lemma CopyAssign_tally (other v : Vector T) w :
  match CopyAssign other v w with
  | Normal v' _ w' =>
      size_ v' = size_ v /\
      tally w w' (size_ other - size_ v) (size_ v - size_ other)
  | Throws _ _ => False
  | Fault => True
  end.
Proof.
  unfold CopyAssign. tally_step.
  destruct (Nat.eqb_spec (Nat.min (size_ v) (size_ other)) (size_ other)).
  - tally_step. split; [done|]. tally_close.
  - tally_step. split; [done|]. tally_close.
Qed.

(** *** The elements of all the vectors of a program *)

Lemma total_size_insert_new (st : gmap nat (Vector T)) a v :
  st !! a = None -> total_size (<[a := v]> st) = size_ v + total_size st.
Proof.
  intros Ha. unfold total_size. rewrite map_fold_insert_L; [done| |done].
  intros. lia.
Qed.

Lemma total_size_delete (st : gmap nat (Vector T)) a v :
  st !! a = Some v -> total_size st = size_ v + total_size (delete a st).
Proof.
  intros Ha. unfold total_size. rewrite (map_fold_delete_L _ _ a v st); [done| |done].
  intros. lia.
Qed.

Lemma total_size_insert (st : gmap nat (Vector T)) a v0 v :
  st !! a = Some v0 -> total_size (<[a := v]> st) + size_ v0 = size_ v + total_size st.
Proof.
  intros Ha. rewrite <- insert_delete_eq, total_size_insert_new by apply lookup_delete_eq.
  rewrite (total_size_delete st a v0 Ha). lia.
Qed.

Lemma total_size_Swap (st st' : gmap nat (Vector T)) (a b : nat) :
  Swap a b st = Some st' -> total_size st' = total_size st.
Proof.
  unfold Swap. destruct (st !! a) as [va|] eqn:Ha; [|done].
  destruct (st !! b) as [vb|] eqn:Hb; [|done]. rewrite Vector_Swap_eq. intros [= <-].
  destruct (decide (a = b)) as [<-|Hne].
  - assert (vb = va) as -> by congruence. by rewrite insert_insert_eq, insert_id.
  - pose proof (total_size_insert st b vb va Hb) as H1.
    pose proof (total_size_insert (<[b := va]> st) a va vb) as H2.
    rewrite lookup_insert_ne in H2 by done. specialize (H2 Ha). lia.
Qed.

Lemma on_object_balanced {A} a (method : Vector T -> list (Event T Args) ->
                                  result (list (Event T Args)) (Vector T) A)
    (st : gmap nat (Vector T)) w :
  (forall v, balanced v w (method v w)) ->
  match on_object a method st w with
  | Normal st' _ w' =>
      constructions w' + destructor_calls w + total_size st
      = constructions w + destructor_calls w' + total_size st'
  | Throws _ _ => False
  | Fault => True
  end.
Proof.
  intros Hm. unfold on_object. destruct (st !! a) as [v|] eqn:Ha; [|done].
  specialize (Hm v). destruct (method v w) as [v' x w'|v' w'|]; [|done|done].
  pose proof (total_size_insert st a v v' Ha). simpl in Hm. lia.
Qed.

Lemma run_call_balanced c (st : gmap nat (Vector T)) w :
  match run_call c st w with
  | Normal st' _ w' =>
      constructions w' + destructor_calls w + total_size st
      = constructions w + destructor_calls w' + total_size st'
  | Throws _ _ => False
  | Fault => True
  end.
Proof.
  destruct c; cbn [run_call].
  - destruct (st !! a) eqn:Ha; [done|]. rewrite total_size_insert_new by done. simpl. lia.
  - destruct (st !! a) eqn:Ha; [done|]. pose proof (Vector_sized_tally size w) as Hs.
    destruct (Vector_sized size w) as [[] v w'|[] w'|]; [|done|done].
    rewrite total_size_insert_new by done. tally_close.
  - destruct (st !! a) eqn:Ha; [done|]. destruct (st !! other) as [o|] eqn:Ho; [|done].
    pose proof (Vector_copy_tally o w) as Hs.
    destruct (Vector_copy o w) as [[] v w'|[] w'|]; [|done|done].
    rewrite total_size_insert_new by done. tally_close.
  - unfold move_construct, no_throw. destruct (st !! a) eqn:Ha; [done|].
    destruct (Swap _ _ _) as [st'|] eqn:Hsw; [|done].
    apply total_size_Swap in Hsw. rewrite total_size_insert_new in Hsw by done.
    simpl in Hsw. lia.
  - destruct (st !! a) as [v|] eqn:Ha; [|done].
    destruct (Vector_dtor v w) as [w'|] eqn:Hd; [|done].
    apply Vector_dtor_tally in Hd. pose proof (total_size_delete st a v Ha). tally_close.
  - unfold copy_assign. destruct (st !! a) as [v|] eqn:Ha; [|done].
    destruct (st !! other) as [o|] eqn:Ho; [|done].
    case_decide as Hne.
    + destruct (capacity_ (data_ v) <? size_ o).
      * pose proof (Vector_copy_tally o w) as Hs.
        destruct (Vector_copy o w) as [[] c w1|[] w1|]; [|done|done].
        rewrite Vector_Swap_eq.
        destruct (Vector_dtor v w1) as [w2|] eqn:Hd; [|done].
        apply Vector_dtor_tally in Hd.
        pose proof (total_size_insert st a v {| data_ := data_ c; size_ := size_ o |} Ha).
        tally_close.
      * pose proof (CopyAssign_tally o v w) as Hs.
        destruct (CopyAssign o v w) as [v1 [] w1|v1 w1|]; [|done|done].
        pose proof (total_size_insert st a v {| data_ := data_ v1; size_ := size_ o |} Ha).
        tally_close.
    + subst other.
      pose proof (total_size_insert st a v {| data_ := data_ v; size_ := size_ o |} Ha).
      assert (o = v) as -> by congruence. tally_close.
  - unfold move_assign, no_throw. destruct (st !! a) as [v|] eqn:Ha; [|done].
    destruct (st !! other) as [o|] eqn:Ho; [|done].
    case_decide; [|simpl; lia].
    destruct (Swap _ _ _) as [st'|] eqn:Hsw; [|done].
    apply total_size_Swap in Hsw. lia.
  - apply on_object_balanced. intros. apply Reserve_balanced.
  - apply on_object_balanced. intros. apply Resize_balanced.
  - apply on_object_balanced. intros v. unfold PushBack.
    pose proof (EmplaceBack_balanced args v w) as H.
    by destruct (EmplaceBack args v w).
  - pose proof (on_object_balanced a (EmplaceBack args) st w
                  (fun v => EmplaceBack_balanced args v w)) as H.
    by destruct (on_object a (EmplaceBack args) st w).
  - destruct (st !! a) as [v|] eqn:Ha; [|done].
    destruct (PopBack v w) as [[v' w']|] eqn:Hp; [|done].
    apply PopBack_balanced in Hp. pose proof (total_size_insert st a v v' Ha). lia.
  - pose proof (on_object_balanced a (Emplace pos args) st w
                  (fun v => Emplace_balanced pos args v w)) as H.
    by destruct (on_object a (Emplace pos args) st w).
  - pose proof (on_object_balanced a (Insert pos args) st w
                  (fun v => Emplace_balanced pos args v w)) as H.
    by destruct (on_object a (Insert pos args) st w).
  - pose proof (on_object_balanced a (Erase pos) st w
                  (fun v => Erase_balanced pos v w)) as H.
    by destruct (on_object a (Erase pos) st w).
  - unfold no_throw. destruct (Swap a other st) as [st'|] eqn:Hsw; [|done].
    apply total_size_Swap in Hsw. lia.
Qed.

End Ledger.

Section LedgerTheorems.
Context {T Args : Type} `{E : ElementType T Args}.

(** X18.  For an element type whose operations and allocations do not
    throw, after any sequence of calls of the interface the number of objects
    built by constructors since the start equals the number of destructor
    calls since the start plus the growth of the total number of elements of
    the vectors of the program: every object built is an element of some
    vector or was destroyed. *)
Theorem objects_built_equal_objects_destroyed_plus_elements
    (st0 st : gmap nat (Vector T)) (w0 w : list (Event T Args)) :
  never_throws -> reachable st0 w0 st w ->
  constructions w + destructor_calls w0 + total_size st0
  = constructions w0 + destructor_calls w + total_size st.
Proof.
  intros Hnt Hr. induction Hr as [|c st w st' w' Hr IH Hc|c st w st' w' Hr IH Hc].
  - done.
  - pose proof (run_call_balanced Hnt c st w) as Hs. rewrite Hc in Hs. lia.
  - pose proof (run_call_balanced Hnt c st w) as Hs. by rewrite Hc in Hs.
Qed.

End LedgerTheorems.

(** ** The rest of the interface on concrete vectors *)

Lemma sized_constructor_value_initialises_witness :
  request_fits (Sz := sizeof_int) 2 /\
  match Vector_sized_size_t (E := ints) (Sz := sizeof_int) 2 [] with
  | Normal _ v w' => v = vector_of [0; 0] 2 /\ alloc_requests w' = [2] /\ misuses w' = 0
  | _ => False
  end.
Proof.
  assert (request_fits (Sz := sizeof_int) 2) as Hfit by (vm_compute; discriminate).
  split; [exact Hfit|].
  pose proof (sized_constructor_value_initialises (E := ints) (Sz := sizeof_int) 2 [] Hfit) as H.
  destruct (Vector_sized_size_t 2 []) as [? ? ?|? ?|] eqn:Hr;
    [exact H | vm_compute in Hr; discriminate | exact H].
Defined.

Lemma copy_constructor_copies_to_fit_witness :
  holds (vector_of [1; 2; 3] 4) [1; 2; 3] /\
  match Vector_copy (E := ints) (vector_of [1; 2; 3] 4) [] with
  | Normal _ v w' =>
      v = vector_of [1; 2; 3] 3 /\ transfers w' = [false; false; false] /\
      alloc_requests w' = [3] /\ misuses w' = 0
  | _ => False
  end.
Proof.
  assert (holds (vector_of [1; 2; 3] 4) [1; 2; 3]) as Hv by (split; [reflexivity | simpl; lia]).
  split; [exact Hv|].
  pose proof (copy_constructor_copies_to_fit (E := ints) (vector_of [1; 2; 3] 4) [1; 2; 3] [] Hv)
    as H.
  destruct (Vector_copy (vector_of [1; 2; 3] 4) []) as [? ? ?|? ?|] eqn:Hr;
    [exact H | vm_compute in Hr; discriminate | exact H].
Defined.

Lemma destructor_destroys_each_element_once_witness :
  holds (vector_of [1; 2; 3] 4) [1; 2; 3] /\
  Vector_dtor (vector_of [1; 2; 3] 4) ([] : list (Event nat nat))
  = Some [Free []; Destroy 3; Destroy 2; Destroy 1].
Proof.
  assert (holds (vector_of [1; 2; 3] 4) [1; 2; 3]) as Hv by (split; [reflexivity | simpl; lia]).
  split; [exact Hv|].
  exact (destructor_destroys_each_element_once (vector_of [1; 2; 3] 4) [1; 2; 3] [] Hv).
Defined.

Lemma copy_assignment_copies_elements_witness :
  1 <> 0 /\
  holds (vector_of [7] 1) [7] /\ holds (vector_of [1; 2] 2) [1; 2] /\
  match copy_assign (E := ints) 1 0 two_vectors [] with
  | Normal st' _ w' =>
      st' = <[1 := vector_of [1; 2] 2]> two_vectors /\
      alloc_requests w' = [2] /\ misuses w' = 0
  | _ => False
  end.
Proof.
  assert (1 <> 0) as Hne by lia.
  assert (two_vectors !! 1 = Some (vector_of [7] 1)) as H1 by (vm_compute; reflexivity).
  assert (two_vectors !! 0 = Some (vector_of [1; 2] 2)) as H0 by (vm_compute; reflexivity).
  assert (holds (vector_of [7] 1) [7]) as Hv by (split; [reflexivity | simpl; lia]).
  assert (holds (vector_of [1; 2] 2) [1; 2]) as Ho by (split; [reflexivity | simpl; lia]).
  split; [exact Hne|]. split; [exact Hv|]. split; [exact Ho|].
  pose proof (copy_assignment_copies_elements (E := ints) 1 0 two_vectors
                (vector_of [7] 1) (vector_of [1; 2] 2) [7] [1; 2] [] Hne H1 H0 Hv Ho) as H.
  destruct (copy_assign 1 0 two_vectors []) as [? ? ?|? ?|] eqn:Hr;
    [exact H | vm_compute in Hr; discriminate | exact H].
Defined.

Lemma Swap_exchanges_and_undoes_itself_witness :
  two_vectors !! 0 = Some (vector_of [1; 2] 2) /\
  two_vectors !! 1 = Some (vector_of [7] 1) /\
  exists st', Swap 0 1 two_vectors = Some st' /\
              st' !! 0 = Some (vector_of [7] 1) /\ st' !! 1 = Some (vector_of [1; 2] 2) /\
              Swap 0 1 st' = Some two_vectors.
Proof.
  assert (two_vectors !! 0 = Some (vector_of [1; 2] 2)) as H0 by (vm_compute; reflexivity).
  assert (two_vectors !! 1 = Some (vector_of [7] 1)) as H1 by (vm_compute; reflexivity).
  split; [exact H0|]. split; [exact H1|].
  destruct (Swap_exchanges_and_undoes_itself two_vectors 0 1 _ _ H0 H1)
    as (st' & Hs & Ha & Hb & _ & _ & Hback).
  exists st'. split; [exact Hs|]. split; [exact Ha|]. split; [exact Hb|exact Hback].
Defined.

Lemma subscript_reads_the_elements_witness :
  holds (vector_of [1; 2; 3] 4) [1; 2; 3] /\
  Size (vector_of [1; 2; 3] 4) = 3 /\
  subscript (vector_of [1; 2; 3] 4) 1 = Some 2 /\
  subscript (vector_of [1; 2; 3] 4) 3 = None.
Proof.
  assert (holds (vector_of [1; 2; 3] 4) [1; 2; 3]) as Hv by (split; [reflexivity | simpl; lia]).
  split; [exact Hv|].
  destruct (subscript_reads_the_elements (vector_of [1; 2; 3] 4) [1; 2; 3] Hv) as (Hs & _ & Hsub).
  split; [exact Hs|]. split; [exact (Hsub 1)|exact (Hsub 3)].
Defined.

Lemma Reserve_keeps_elements_witness :
  holds (vector_of [1; 2; 3] 3) [1; 2; 3] /\
  request_fits (Sz := sizeof_int) 6 /\
  match Reserve_size_t (E := ints) (Sz := sizeof_int) 6 (vector_of [1; 2; 3] 3) [] with
  | Normal v' _ w' => v' = vector_of [1; 2; 3] 6 /\ misuses w' = 0
  | _ => False
  end.
Proof.
  assert (holds (vector_of [1; 2; 3] 3) [1; 2; 3]) as Hv by (split; [reflexivity | simpl; lia]).
  assert (request_fits (Sz := sizeof_int) 6) as Hfit by (vm_compute; discriminate).
  split; [exact Hv|]. split; [exact Hfit|].
  pose proof (Reserve_keeps_elements (E := ints) (Sz := sizeof_int)
                (vector_of [1; 2; 3] 3) [1; 2; 3] 6 [] Hv (fun _ => Hfit)) as H.
  destruct (Reserve_size_t 6 (vector_of [1; 2; 3] 3) []) as [? ? ?|? ?|] eqn:Hr;
    [exact H | vm_compute in Hr; discriminate | exact H].
Defined.

Lemma Resize_rolls_back_and_misuses_nothing_witness :
  holds (vector_of [1; 2; 3] 3) [1; 2; 3] /\
  request_fits (Sz := sizeof_int) 5 /\
  match Resize_size_t (E := ints) (Sz := sizeof_int) 5 (vector_of [1; 2; 3] 3) [] with
  | Normal v' _ w' => v' = vector_of [1; 2; 3; 0; 0] 5 /\ misuses w' = 0
  | _ => False
  end.
Proof.
  assert (holds (vector_of [1; 2; 3] 3) [1; 2; 3]) as Hv by (split; [reflexivity | simpl; lia]).
  assert (request_fits (Sz := sizeof_int) 5) as Hfit by (vm_compute; discriminate).
  split; [exact Hv|]. split; [exact Hfit|].
  pose proof (Resize_rolls_back_and_misuses_nothing (E := ints) (Sz := sizeof_int)
                (vector_of [1; 2; 3] 3) [1; 2; 3] 5 [] Hv (fun _ => Hfit)) as H.
  destruct (Resize_size_t 5 (vector_of [1; 2; 3] 3) []) as [? ? ?|? ?|] eqn:Hr;
    [exact H | vm_compute in Hr; discriminate | exact H].
Defined.

Lemma PopBack_removes_last_witness :
  holds (vector_of [1; 2; 3] 3) [1; 2; 3] /\
  PopBack (vector_of [1; 2; 3] 3) ([] : list (Event nat nat))
  = Some (vector_of [1; 2] 3, [Destroy 3]).
Proof.
  assert (holds (vector_of [1; 2; 3] 3) [1; 2; 3]) as Hv by (split; [reflexivity | simpl; lia]).
  split; [exact Hv|].
  exact (PopBack_removes_last (vector_of [1; 2; 3] 3) [1; 2; 3] [] Hv).
Defined.

Lemma EmplaceBack_appends_and_returns_its_index_witness :
  holds (vector_of [1; 2; 3] 3) [1; 2; 3] /\
  match EmplaceBack (E := ints) 9 (vector_of [1; 2; 3] 3) [] with
  | Normal v' i w' =>
      v' = vector_of [1; 2; 3; 9] 6 /\ i = 3 /\ subscript v' i = Some 9 /\ misuses w' = 0
  | _ => False
  end.
Proof.
  assert (holds (vector_of [1; 2; 3] 3) [1; 2; 3]) as Hv by (split; [reflexivity | simpl; lia]).
  split; [exact Hv|].
  pose proof (EmplaceBack_appends_and_returns_its_index (E := ints)
                (vector_of [1; 2; 3] 3) [1; 2; 3] 9 [] Hv) as H.
  destruct (EmplaceBack 9 (vector_of [1; 2; 3] 3) []) as [? ? ?|? ?|] eqn:Hr;
    [exact H | vm_compute in Hr; discriminate | exact H].
Defined.

Lemma growing_EmplaceBack_abandons_new_element_when_transfer_throws_witness :
  holds (vector_of [1; 2; 3] 3) [1; 2; 3] /\
  size_ (vector_of [1; 2; 3] 3) = capacity_ (data_ (vector_of [1; 2; 3] 3)) /\
  match EmplaceBack (E := ints_copy_throws_2nd) 9 (vector_of [1; 2; 3] 3) [] with
  | Throws _ w' => misuses w' = 4
  | _ => False
  end.
Proof.
  assert (holds (vector_of [1; 2; 3] 3) [1; 2; 3]) as Hv by (split; [reflexivity | simpl; lia]).
  split; [exact Hv|]. split; [reflexivity|].
  pose proof (growing_EmplaceBack_abandons_new_element_when_transfer_throws
                (E := ints_copy_throws_2nd) (vector_of [1; 2; 3] 3) [1; 2; 3] 9 [] Hv eq_refl) as H.
  destruct (EmplaceBack 9 (vector_of [1; 2; 3] 3) []) as [? ? ?|v' w'|] eqn:Hr;
    [vm_compute in Hr; discriminate | | vm_compute in Hr; discriminate].
  vm_compute in Hr. injection Hr as _ Hw. subst w'.
  destruct H as [[Ht _]|[_ Hm]]; [vm_compute in Ht; discriminate | exact Hm].
Defined.

Lemma Emplace_with_spare_capacity_witness :
  holds (vector_of [1; 2; 3] 4) [1; 2; 3] /\
  size_ (vector_of [1; 2; 3] 4) < capacity_ (data_ (vector_of [1; 2; 3] 4)) /\
  1 <= length [1; 2; 3] /\
  match Emplace (E := ints) 1 9 (vector_of [1; 2; 3] 4) [] with
  | Normal v' i w' =>
      i = 1 /\ misuses w' = 0 /\
      (v' = vector_of [1; 9; 2; 3] 4 \/
       exists d w'', w' = Destroy 9 :: Destroy d :: Try (AMoveAssign d 9) false :: w'')
  | _ => False
  end.
Proof.
  assert (holds (vector_of [1; 2; 3] 4) [1; 2; 3]) as Hv by (split; [reflexivity | simpl; lia]).
  assert (size_ (vector_of [1; 2; 3] 4) < capacity_ (data_ (vector_of [1; 2; 3] 4))) as Hs
    by (simpl; lia).
  assert (1 <= length [1; 2; 3]) as Hp by (simpl; lia).
  split; [exact Hv|]. split; [exact Hs|]. split; [exact Hp|].
  pose proof (Emplace_with_spare_capacity (E := ints)
                (vector_of [1; 2; 3] 4) [1; 2; 3] 1 9 [] Hv Hs Hp) as H.
  destruct (Emplace 1 9 (vector_of [1; 2; 3] 4) []) as [? ? ?|? ?|] eqn:Hr;
    [exact H | vm_compute in Hr; discriminate | exact H].
Defined.

Lemma growing_Emplace_inserts_whenever_it_returns_witness :
  holds (vector_of [1; 2; 3] 3) [1; 2; 3] /\
  size_ (vector_of [1; 2; 3] 3) = capacity_ (data_ (vector_of [1; 2; 3] 3)) /\
  1 <= length [1; 2; 3] /\
  match Emplace (E := ints) 1 9 (vector_of [1; 2; 3] 3) [] with
  | Normal v' i w' =>
      v' = vector_of [1; 9; 2; 3] 6 /\ i = 1 /\ subscript v' i = Some 9 /\ misuses w' = 0
  | _ => False
  end.
Proof.
  assert (holds (vector_of [1; 2; 3] 3) [1; 2; 3]) as Hv by (split; [reflexivity | simpl; lia]).
  assert (1 <= length [1; 2; 3]) as Hp by (simpl; lia).
  split; [exact Hv|]. split; [reflexivity|]. split; [exact Hp|].
  pose proof (growing_Emplace_inserts_whenever_it_returns (E := ints)
                (vector_of [1; 2; 3] 3) [1; 2; 3] 1 9 [] Hv eq_refl Hp) as H.
  destruct (Emplace 1 9 (vector_of [1; 2; 3] 3) []) as [? ? ?|? ?|] eqn:Hr;
    [exact H | vm_compute in Hr; discriminate | exact H].
Defined.

Lemma Erase_shifts_left_witness :
  holds (vector_of [1; 2; 3] 3) [1; 2; 3] /\
  match Erase (E := ints) 1 (vector_of [1; 2; 3] 3) [] with
  | Normal v' i w' => 1 < 3 /\ v' = vector_of [1; 3] 3 /\ i = 1 /\ misuses w' = 0
  | _ => False
  end.
Proof.
  assert (holds (vector_of [1; 2; 3] 3) [1; 2; 3]) as Hv by (split; [reflexivity | simpl; lia]).
  split; [exact Hv|].
  pose proof (Erase_shifts_left (E := ints) (vector_of [1; 2; 3] 3) [1; 2; 3] 1 [] Hv) as H.
  destruct (Erase 1 (vector_of [1; 2; 3] 3) []) as [? ? ?|? ?|] eqn:Hr;
    [exact H | vm_compute in Hr; discriminate | vm_compute in Hr; discriminate].
Defined.

Lemma block_stays_while_capacity_suffices_witness :
  size_ (vector_of [1; 2; 3] 4) < capacity_ (data_ (vector_of [1; 2; 3] 4)) /\
  keeps_block (vector_of [1; 2; 3] 4) []
    (EmplaceBack (E := ints_construct_throws) 9 (vector_of [1; 2; 3] 4) []) /\
  keeps_block (vector_of [1; 2; 3] 4) []
    (Emplace (E := ints_assign_throws) 1 9 (vector_of [1; 2; 3] 4) []).
Proof.
  assert (size_ (vector_of [1; 2; 3] 4) < capacity_ (data_ (vector_of [1; 2; 3] 4))) as Hs
    by (simpl; lia).
  split; [exact Hs|]. split.
  - exact (proj1 (block_stays_while_capacity_suffices (E := ints_construct_throws)
                    (vector_of [1; 2; 3] 4) []) Hs 9).
  - exact (proj1 (proj2 (block_stays_while_capacity_suffices (E := ints_assign_throws)
                           (vector_of [1; 2; 3] 4) [])) Hs 1 9).
Defined.

Lemma repeated_PushBack_doubles_capacity_witness :
  never_throws (E := ints) /\ [1; 2; 3] <> [] /\
  exists k w',
    push_all (E := ints) [1; 2; 3] Vector_default [] = Normal (vector_of [1; 2; 3] (2 ^ k)) tt w' /\
    3 <= 2 ^ k < 6 /\
    alloc_requests w' = reverse (Nat.pow 2 <$> seq 0 (S k)) /\
    transfers w' = replicate (2 ^ k - 1) true.
Proof.
  assert (never_throws (E := ints)) as Hn by (intros w a; reflexivity).
  assert ([1; 2; 3] <> ([] : list nat)) as Hne by discriminate.
  split; [exact Hn|]. split; [exact Hne|].
  destruct (repeated_PushBack_doubles_capacity (E := ints) [1; 2; 3] [] Hn Hne)
    as (k & w' & Hp & Hk & Ha & Ht).
  exists k, w'. split; [exact Hp|]. split; [exact Hk|]. split.
  - rewrite Ha. apply app_nil_r.
  - rewrite Ht. apply app_nil_r.
Defined.

Lemma programs_that_never_throw_misuse_nothing_witness :
  never_throws (E := ints) /\
  map_Forall (fun _ => well_formed) (∅ : gmap nat (Vector nat)) /\
  reachable_size_t (E := ints) (Sz := sizeof_int) ∅ [] (<[0 := vector_of [5] 2]> ∅)
    [Try (AConstruct 5) true; Try (AAlloc 2) true] /\
  well_formed (vector_of [5] 2) /\
  misuses (T := nat) (Args := nat) [Try (AConstruct 5) true; Try (AAlloc 2) true] = 0.
Proof.
  assert (never_throws (E := ints)) as Hn by (intros w a; reflexivity).
  assert (reachable_size_t (E := ints) (Sz := sizeof_int) ∅ [] (<[0 := vector_of [5] 2]> ∅)
            [Try (AConstruct 5) true; Try (AAlloc 2) true]) as Hr.
  { apply (reach_size_t_return _ _ (CPushBack 0 5) (<[0 := vector_of [] 2]> ∅)
             [Try (AAlloc 2) true]); [|exact I|vm_compute; reflexivity].
    apply (reach_size_t_return _ _ (CReserve 0 2) (<[0 := Vector_default]> ∅) []);
      [|vm_compute; discriminate|vm_compute; reflexivity].
    apply (reach_size_t_return _ _ (CNew 0) ∅ []); [|exact I|vm_compute; reflexivity].
    apply reach_size_t_start. }
  split; [exact Hn|]. split; [apply map_Forall_empty|]. split; [exact Hr|].
  destruct (programs_that_never_throw_misuse_nothing (E := ints) (Sz := sizeof_int) ∅ _ [] _ Hn
              (map_Forall_empty _) Hr) as (Hwf & Hm & _).
  split; [|exact Hm].
  apply (Hwf 0). vm_compute. reflexivity.
Defined.

Lemma objects_built_equal_objects_destroyed_plus_elements_witness :
  never_throws (E := ints) /\
  reachable (E := ints) ∅ [] ∅
    [Free []; Destroy 6; Destroy 5;
     Free []; Destroy 5; Try (AMoveCtor 5) true; Try (AConstruct 6) true; Try (AAlloc 2) true;
     Try (AConstruct 5) true; Try (AAlloc 1) true] /\
  constructions (T := nat) (Args := nat)
    [Free []; Destroy 6; Destroy 5;
     Free []; Destroy 5; Try (AMoveCtor 5) true; Try (AConstruct 6) true; Try (AAlloc 2) true;
     Try (AConstruct 5) true; Try (AAlloc 1) true]
  = destructor_calls (T := nat) (Args := nat)
      [Free []; Destroy 6; Destroy 5;
       Free []; Destroy 5; Try (AMoveCtor 5) true; Try (AConstruct 6) true; Try (AAlloc 2) true;
       Try (AConstruct 5) true; Try (AAlloc 1) true].
Proof.
  assert (never_throws (E := ints)) as Hn by (intros w a; reflexivity).
  assert (reachable (E := ints) ∅ [] ∅
            [Free []; Destroy 6; Destroy 5;
             Free []; Destroy 5; Try (AMoveCtor 5) true; Try (AConstruct 6) true;
             Try (AAlloc 2) true; Try (AConstruct 5) true; Try (AAlloc 1) true]) as Hr.
  { apply (reach_return _ _ (CDelete 0) (<[0 := vector_of [5; 6] 2]> ∅)
             [Free []; Destroy 5; Try (AMoveCtor 5) true; Try (AConstruct 6) true;
              Try (AAlloc 2) true; Try (AConstruct 5) true; Try (AAlloc 1) true]);
      [|vm_compute; reflexivity].
    apply (reach_return _ _ (CPushBack 0 6) (<[0 := vector_of [5] 1]> ∅)
             [Try (AConstruct 5) true; Try (AAlloc 1) true]); [|vm_compute; reflexivity].
    apply (reach_return _ _ (CPushBack 0 5) (<[0 := Vector_default]> ∅) []);
      [|vm_compute; reflexivity].
    apply (reach_return _ _ (CNew 0) ∅ []); [|vm_compute; reflexivity].
    apply reach_start. }
  split; [exact Hn|]. split; [exact Hr|].
  pose proof (objects_built_equal_objects_destroyed_plus_elements (E := ints) ∅ ∅ [] _ Hn Hr) as H.
  vm_compute in H |- *. lia.
Defined.
